(** * SafeVar: a shallow embedding of [header/SafeVar.hpp]

    The development follows the header top to bottom: the little-endian
    loader, the FNV-1a checksum, the [ChaCha20] class, the real and the
    fake allocator, and the [SafeVar<T>] container.

    Conventions.
    - A [uint8_t] is a [Z] in [0, 256), a [uint32_t] a [Z] in [0, 2^32);
      every operation that can overflow in the source has its wrap-around
      written out ([wrap32], [wrap8], [wrapptr]).
    - A buffer ([uint8_t*], [std::array<uint8_t, N>]) is a [list Z] holding
      the bytes of the array the pointer points into.  C++ gives no meaning
      to an access outside the array, so every pointer read is checked
      against the length of the list and an access out of range makes the
      whole computation [Undefined].
    - Two accesses of the container leave their array and stay inside the
      object that holds it.  Module [Layout] gives what the compiled code
      computes there, from the layout of the two objects; where no access
      leaves its array the two levels agree.
    - [T] is trivially copyable: a value of type [T] is its object
      representation, the [sizeof(T)] bytes that [std::memcpy] moves.
    - [throw std::runtime_error(...)] is the outcome [Throw], with the
      state the object is left in. *)

From Stdlib Require Import ZArith Lia.
From stdpp Require Import base option list gmap.
From Equations Require Import Equations.

(** ** Outcomes of a C++ computation *)

Inductive error : Set :=
| MemoryAllocationFailed        (* "Memory allocation failed" *)
| MemoryFreeFailed              (* "Memory free failed" *)
| InvalidMemoryState            (* "Invalid memory state" *)
| MemoryValidationFailed        (* "Memory validation failed" *)
| DecryptionVerificationFailed. (* "Decryption verification failed" *)

Inductive outcome (A : Type) : Type :=
| Ok (a : A)          (* normal return *)
| Throw (e : error)   (* an exception reaches the caller *)
| Undefined.          (* an access outside the bounds of an array *)

Arguments Ok {A} a.
Arguments Throw {A} e.
Arguments Undefined {A}.

#[global] Instance error_eq_dec : EqDecision error.
Proof. solve_decision. Defined.

#[global] Instance outcome_eq_dec {A} `{EqDecision A} : EqDecision (outcome A).
Proof. solve_decision. Defined.

#[global] Instance outcome_ret : MRet outcome := fun _ a => Ok a.

#[global] Instance outcome_bind : MBind outcome := fun _ _ k m =>
  match m with
  | Ok a => k a
  | Throw e => Throw e
  | Undefined => Undefined
  end.

(** [for (i = 0; i < n; ++i) body(i)] over a loop state, in the outcome
    monad: the first [n'] rounds run before round [n']. *)
Fixpoint for_upto {S : Type} (n : nat) (body : nat → S → outcome S) (s : S)
  : outcome S :=
  match n with
  | O => Ok s
  | S n' => s' ← for_upto n' body s; body n' s'
  end.

(** ** Machine integers *)

Definition wrap8 (x : Z) : Z := (x mod 2 ^ 8)%Z.
Definition wrap32 (x : Z) : Z := (x mod 2 ^ 32)%Z.

Arguments wrap8 : simpl never.
Arguments wrap32 : simpl never.

(** [buf[i]] through a raw pointer: defined inside the array only. *)
Definition read (buf : list Z) (i : nat) : outcome Z :=
  match buf !! i with
  | Some b => Ok b
  | None => Undefined
  end.

(** [LoadLE32(src + off)]. *)
Definition LoadLE32 (src : list Z) (off : nat) : outcome Z :=
  b0 ← read src off;
  b1 ← read src (off + 1);
  b2 ← read src (off + 2);
  b3 ← read src (off + 3);
  Ok (Z.lor (Z.lor (Z.lor b0 (wrap32 (Z.shiftl b1 8)))
                   (wrap32 (Z.shiftl b2 16)))
            (wrap32 (Z.shiftl b3 24))).

(** ** FNV-1a checksum *)

Definition fnv_prime : Z := 0x01000193.
Definition fnv_offset : Z := 0x811C9DC5.

(** [ComputeChecksumFNV(data, len)]; the loop reads [data[0 .. len)]. *)
Definition ComputeChecksumFNV (data : list Z) (len : nat) : outcome Z :=
  for_upto len
    (fun i hash => b ← read data i; Ok (wrap32 (Z.lxor hash b * fnv_prime)))
    fnv_offset.

(** ** The stream cipher *)

Module ChaCha20.

Definition constants : list Z :=
  [0x61707865; 0x3320646e; 0x79622d36; 0x6b206574]%Z.

Definition RotateLeft (x : Z) (n : Z) : Z :=
  Z.lor (wrap32 (Z.shiftl x n)) (Z.shiftr x (32 - n)).

(** [state[a] += state[b]; state[d] ^= state[a]; state[d] = rotl(state[d], r)] *)
Definition mix (state : list Z) (a b d : nat) (r : Z) : list Z :=
  let state := <[a := wrap32 (state !!! a + state !!! b)]> state in
  let state := <[d := Z.lxor (state !!! d) (state !!! a)]> state in
  <[d := RotateLeft (state !!! d) r]> state.

Definition QuarterRound (state : list Z) (a b c d : nat) : list Z :=
  let state := mix state a b d 16 in
  let state := mix state c d b 12 in
  let state := mix state a b d 8 in
  mix state c d b 7.

(** One pass of the [for (i = 0; i < 20; i += 2)] loop. *)
Definition double_round (workingState : list Z) : list Z :=
  let workingState := QuarterRound workingState 0 4 8 12 in
  let workingState := QuarterRound workingState 1 5 9 13 in
  let workingState := QuarterRound workingState 2 6 10 14 in
  let workingState := QuarterRound workingState 3 7 11 15 in
  let workingState := QuarterRound workingState 0 5 10 15 in
  let workingState := QuarterRound workingState 1 6 11 12 in
  let workingState := QuarterRound workingState 2 7 8 13 in
  QuarterRound workingState 3 4 9 14.

(** The four bytes of a [uint32_t] in memory (little-endian host). *)
Definition word_bytes (w : Z) : list Z :=
  [wrap8 w; wrap8 (Z.shiftr w 8); wrap8 (Z.shiftr w 16); wrap8 (Z.shiftr w 24)].

(** [Block(state, output)]: the 64 bytes written to [output]. *)
Definition Block (state : list Z) : list Z :=
  let workingState := Nat.iter 10 double_round state in
  let workingState :=
    fold_left
      (fun ws i => <[i := wrap32 (ws !!! i + state !!! i)]> ws)
      (seq 0 16) workingState in
  workingState ≫= word_bytes.

(** The state before the [while] loop: constants, key words, the two
    counter words and the two nonce words. *)
Definition init_state (key nonce : list Z) : outcome (list Z) :=
  let state := replicate 16 0%Z in
  let state :=
    fold_left (fun st i => <[i := constants !!! i]> st) (seq 0 4) state in
  state ← for_upto 8
    (fun i st => w ← LoadLE32 key (i * 4); Ok (<[4 + i := w]> st)) state;
  let counter := 0%Z in
  let state := <[12 := counter]> state in
  let state := <[13 := 0%Z]> state in
  w14 ← LoadLE32 nonce 0;
  let state := <[14 := w14]> state in
  w15 ← LoadLE32 nonce 4;
  Ok (<[15 := w15]> state).

Definition blockSize (length bytesProcessed : nat) : nat :=
  if decide (length - bytesProcessed < 64)
  then length - bytesProcessed else 64.

(** The inner [for] loop: [output[bytesProcessed + i] =
    input[bytesProcessed + i] ^ keystream[i]].  [output] holds the bytes
    written so far, positions [0 .. bytesProcessed + i). *)
Definition xor_block (input keystream : list Z) (bytesProcessed n : nat)
    (output : list Z) : outcome (list Z) :=
  for_upto n
    (fun i out =>
       x ← read input (bytesProcessed + i);
       k ← read keystream i;
       Ok (out ++ [Z.lxor x k]))
    output.

(** The [while (bytesProcessed < length)] loop. *)
Equations? Encrypt_loop (state : list Z) (counter : Z) (input : list Z)
    (length bytesProcessed : nat) (output : list Z)
  : outcome (list Z) by wf (length - bytesProcessed) lt :=
  Encrypt_loop state counter input length bytesProcessed output
    with decide (bytesProcessed < length) => {
    | right _ := Ok output
    | left _
        with xor_block input (Block (<[12 := counter]> state))
               bytesProcessed (blockSize length bytesProcessed) output => {
        | Ok output' :=
            Encrypt_loop (<[12 := counter]> state) (wrap32 (counter + 1))
              input length
              (bytesProcessed + blockSize length bytesProcessed) output'
        | Throw e := Throw e
        | Undefined := Undefined } }.
Proof. unfold blockSize. case_decide; lia. Qed.

(** [Encrypt(input, output, length, key, nonce)]: the [length] bytes
    written to [output]. *)
Definition Encrypt (input : list Z) (length : nat) (key nonce : list Z)
  : outcome (list Z) :=
  state ← init_state key nonce;
  Encrypt_loop state 0%Z input length 0 [].

End ChaCha20.


(** ** Raw memory moves *)

(** [std::memcpy(dst, src, n)], source side: the [n] bytes read from
    [src]. *)
Definition memcpy_from (src : list Z) (n : nat) : outcome (list Z) :=
  if decide (n ≤ length src) then Ok (take n src) else Undefined.

(** [std::memcpy(dst, src, n)] and [std::copy(first, last, dst)],
    destination side: [bytes] written over the front of [dst]. *)
Definition memcpy_to (dst bytes : list Z) : outcome (list Z) :=
  if decide (length bytes ≤ length dst)
  then Ok (bytes ++ drop (length bytes) dst) else Undefined.

(** ** The process: one container, the pages it owns, the fake allocator *)

(** [sizeof(T)] for the type the container is instantiated at. *)
Class ValueType := { VALUE_SIZE : nat }.

Definition uintptr_bits : Z := 64.
Definition wrapptr (x : Z) : Z := (x mod 2 ^ uintptr_bits)%Z.

(** The data members of [SafeVar<T>]; [realMemory = 0] is [nullptr]. *)
Record SafeVar := mkSafeVar {
  buffer : list Z;
  key : list Z;
  realMemory : Z;
  fakeMemoryAddress : Z;
  nonce : list Z;
  lastChecksum : Z;
  isValid : bool }.

(** [heap] maps the base address of every region obtained from
    [VirtualAlloc] to its bytes. *)
Record Machine := mkMachine {
  this : SafeVar;
  heap : gmap Z (list Z);
  fakeBaseAddress : Z }.

(** What the environment answers during one call. *)
Record Env := mkEnv {
  VirtualAlloc : Z;          (* the pointer returned; 0 is NULL *)
  VirtualFree : bool;        (* whether the release succeeds *)
  random_device : nat → Z;   (* the successive values of [rd()] *)
  dis : nat → Z }.           (* the successive draws [dis(gen)] *)

Inductive result (A : Type) : Type :=
| Return (a : A) (m : Machine)
| Raise (e : error) (m : Machine)   (* thrown, with the state left behind *)
| Fault.                            (* undefined behaviour *)

Arguments Return {A} a m.
Arguments Raise {A} e m.
Arguments Fault {A}.

Definition exec (A : Type) : Type := Machine → result A.

#[global] Instance exec_ret : MRet exec := fun _ a m => Return a m.

#[global] Instance exec_bind : MBind exec := fun _ _ k c m =>
  match c m with
  | Return a m' => k a m'
  | Raise e m' => Raise e m'
  | Fault => Fault
  end.

Definition lift {A} (o : outcome A) : exec A := fun m =>
  match o with
  | Ok a => Return a m
  | Throw e => Raise e m
  | Undefined => Fault
  end.

Definition throw {A} (e : error) : exec A := fun m => Raise e m.
Definition get_this : exec SafeVar := fun m => Return (this m) m.
Definition gets {A} (f : Machine → A) : exec A := fun m => Return (f m) m.
Definition modify (f : Machine → Machine) : exec unit := fun m => Return () (f m).

Definition with_this (f : SafeVar → SafeVar) (m : Machine) : Machine :=
  mkMachine (f (this m)) (heap m) (fakeBaseAddress m).
Definition with_heap (f : gmap Z (list Z) → gmap Z (list Z)) (m : Machine)
  : Machine :=
  mkMachine (this m) (f (heap m)) (fakeBaseAddress m).

Definition set_buffer (b : list Z) (s : SafeVar) : SafeVar :=
  mkSafeVar b (key s) (realMemory s) (fakeMemoryAddress s) (nonce s)
    (lastChecksum s) (isValid s).
Definition set_key (k : list Z) (s : SafeVar) : SafeVar :=
  mkSafeVar (buffer s) k (realMemory s) (fakeMemoryAddress s) (nonce s)
    (lastChecksum s) (isValid s).
Definition set_realMemory (p : Z) (s : SafeVar) : SafeVar :=
  mkSafeVar (buffer s) (key s) p (fakeMemoryAddress s) (nonce s)
    (lastChecksum s) (isValid s).
Definition set_fakeMemoryAddress (a : Z) (s : SafeVar) : SafeVar :=
  mkSafeVar (buffer s) (key s) (realMemory s) a (nonce s)
    (lastChecksum s) (isValid s).
Definition set_nonce (n : list Z) (s : SafeVar) : SafeVar :=
  mkSafeVar (buffer s) (key s) (realMemory s) (fakeMemoryAddress s) n
    (lastChecksum s) (isValid s).
Definition set_lastChecksum (c : Z) (s : SafeVar) : SafeVar :=
  mkSafeVar (buffer s) (key s) (realMemory s) (fakeMemoryAddress s) (nonce s)
    c (isValid s).
Definition set_isValid (v : bool) (s : SafeVar) : SafeVar :=
  mkSafeVar (buffer s) (key s) (realMemory s) (fakeMemoryAddress s) (nonce s)
    (lastChecksum s) v.

(** Reading [n] bytes through a pointer into the heap. *)
Definition load (h : gmap Z (list Z)) (p : Z) (n : nat) : outcome (list Z) :=
  match h !! p with
  | Some content => memcpy_from content n
  | None => Undefined
  end.

(** Writing [bytes] through a pointer into the heap. *)
Definition store (p : Z) (bytes : list Z) : exec unit := fun m =>
  match heap m !! p with
  | Some content =>
      match memcpy_to content bytes with
      | Ok content' => Return () (with_heap (insert p content') m)
      | _ => Fault
      end
  | None => Fault
  end.

Module RealMemoryAllocator.

(** Fresh pages come zero-filled; only the [size] bytes asked for are
    ever accessed. *)
Definition AllocateRealMemory (env : Env) (size : nat) : exec Z :=
  let ptr := VirtualAlloc env in
  if decide (ptr = 0%Z) then throw MemoryAllocationFailed
  else modify (with_heap (insert ptr (replicate size 0%Z)));; mret ptr.

Definition FreeRealMemory (env : Env) (ptr : Z) : exec unit :=
  if negb (VirtualFree env) then throw MemoryFreeFailed
  else modify (with_heap (delete ptr)).

End RealMemoryAllocator.

Module FakeMemoryAllocator.

Definition base : Z := 0x10000000.

Definition AllocateFakeMemory (size : nat) : exec Z :=
  allocatedAddress ← gets fakeBaseAddress;
  modify (fun m =>
    mkMachine (this m) (heap m)
      (wrapptr (fakeBaseAddress m + wrapptr (Z.of_nat size + 0x10))));;
  mret allocatedAddress.

Definition ResetAllocator : exec unit :=
  modify (fun m => mkMachine (this m) (heap m) base).

End FakeMemoryAllocator.

(** ** The container *)

(** [GenerateNonce(nonceOut)]: [std::generate] stores one [rd()] per
    element, truncated to a byte. *)
Definition GenerateNonce (env : Env) (nonceOut : list Z) : list Z :=
  fold_left (fun n i => <[i := wrap8 (random_device env i)]> n)
    (seq 0 12) nonceOut.

Section SafeVar.
Context `{ValueType}.

Record CryptoState := mkCryptoState {
  fullKey : list Z;   (* std::array<uint8_t, 32> *)
  temp : list Z }.    (* std::array<uint8_t, VALUE_SIZE> *)

(** At the array level the copy of a key of more than 32 bytes leaves
    [fullKey]; [Layout.InitializeCryptoState] follows it further. *)
Definition InitializeCryptoState (s : SafeVar) : outcome CryptoState :=
  let fullKey := replicate 32 0%Z in
  (* std::copy(key.begin(), key.end(), fullKey.begin()) *)
  fullKey ← memcpy_to fullKey (key s);
  Ok (mkCryptoState fullKey (replicate VALUE_SIZE 0%Z)).

(** [Obfuscate(value, outBuffer)]: the bytes left in [outBuffer]. *)
Definition Obfuscate (s : SafeVar) (value : list Z) : outcome (list Z) :=
  cryptoState ← InitializeCryptoState s;
  v ← memcpy_from value VALUE_SIZE;
  temp ← memcpy_to (temp cryptoState) v;
  ChaCha20.Encrypt temp VALUE_SIZE (fullKey cryptoState) (nonce s).

Definition Deobfuscate (s : SafeVar) (inBuffer : list Z)
  : outcome (list Z) :=
  cryptoState ← InitializeCryptoState s;
  out ← ChaCha20.Encrypt inBuffer VALUE_SIZE (fullKey cryptoState) (nonce s);
  temp ← memcpy_to (temp cryptoState) out;
  memcpy_from temp VALUE_SIZE.

Definition ValidateMemory (s : SafeVar) (h : gmap Z (list Z))
  : outcome bool :=
  if bool_decide (realMemory s = 0%Z) || negb (isValid s) then Ok false
  else
    memContent ← load h (realMemory s) VALUE_SIZE;
    Ok (bool_decide (memContent = buffer s)).

Definition GenerateKey (env : Env) : list Z :=
  let keyOut := replicate VALUE_SIZE 0%Z in
  fold_left (fun k i => <[i := wrap8 (dis env i)]> k)
    (seq 0 (VALUE_SIZE `min` 32)) keyOut.

(** [Get] is [const]: it reads the object and the heap. *)
Definition Get (s : SafeVar) (h : gmap Z (list Z)) (encrypted : bool)
  : outcome (list Z) :=
  if bool_decide (realMemory s = 0%Z) then Throw InvalidMemoryState
  else
    valid ← ValidateMemory s h;
    if negb valid then Throw MemoryValidationFailed
    else if encrypted then memcpy_from (buffer s) VALUE_SIZE
    else
      decrypted ← Deobfuscate s (buffer s);
      verify ← Obfuscate s decrypted;
      if bool_decide (verify ≠ buffer s)
      then Throw DecryptionVerificationFailed
      else Ok decrypted.

Definition Clear (env : Env) : exec unit :=
  s ← get_this;
  (if bool_decide (realMemory s ≠ 0%Z) then
     store (realMemory s) (replicate VALUE_SIZE 0%Z);;
     RealMemoryAllocator.FreeRealMemory env (realMemory s);;
     modify (with_this (set_realMemory 0%Z))
   else mret ());;
  modify (with_this (set_buffer (replicate VALUE_SIZE 0%Z)));;
  modify (with_this (set_key (replicate VALUE_SIZE 0%Z)));;
  modify (with_this (set_nonce (replicate 12 0%Z)));;
  modify (with_this (set_fakeMemoryAddress 0%Z)).

Definition Set_ (env : Env) (value : list Z) : exec (list Z) :=
  Clear env;;
  modify (with_this (set_key (GenerateKey env)));;
  modify (with_this (fun s => set_nonce (GenerateNonce env (nonce s)) s));;
  s ← get_this;
  out ← lift (Obfuscate s value);
  modify (with_this (set_buffer out));;
  ptr ← RealMemoryAllocator.AllocateRealMemory env VALUE_SIZE;
  modify (with_this (set_realMemory ptr));;
  (if bool_decide (ptr = 0%Z) then throw MemoryAllocationFailed
   else mret ());;
  s ← get_this;
  bytes ← lift (memcpy_from (buffer s) VALUE_SIZE);
  store (realMemory s) bytes;;
  c ← lift (ComputeChecksumFNV (buffer s) (length (buffer s)));
  modify (with_this (set_lastChecksum c));;
  a ← FakeMemoryAllocator.AllocateFakeMemory VALUE_SIZE;
  modify (with_this (set_fakeMemoryAddress a));;
  modify (with_this (set_isValid true));;
  mret value.

Definition ReKey (env : Env) : exec unit :=
  m ← gets id;
  current ← lift (Get (this m) (heap m) false);
  Set_ env current;;
  mret ().

(** [Serialize()]: nonce, then key, then the buffer encrypted once
    more under [key.data()].  At the array level the key loader of the
    cipher, which reads 32 bytes, leaves a key array of fewer;
    [Layout.Serialize] and [Layout.Deserialize] follow it further. *)
Definition Serialize (s : SafeVar) : outcome (list Z) :=
  n ← memcpy_from (nonce s) 12;
  k ← memcpy_from (key s) VALUE_SIZE;
  encrypted ← ChaCha20.Encrypt (buffer s) VALUE_SIZE (key s) (nonce s);
  Ok (n ++ k ++ encrypted).

Definition Deserialize (data : list Z) (len : nat) : exec bool :=
  if bool_decide (len ≠ VALUE_SIZE + 12 + VALUE_SIZE) then mret false
  else
    n ← lift (memcpy_from data 12);
    modify (with_this (set_nonce n));;
    k ← lift (memcpy_from (drop 12 data) VALUE_SIZE);
    modify (with_this (set_key k));;
    encrypted ← lift (memcpy_from (drop (12 + VALUE_SIZE) data) VALUE_SIZE);
    s ← get_this;
    out ← lift (ChaCha20.Encrypt encrypted VALUE_SIZE (key s) (nonce s));
    modify (with_this (set_buffer out));;
    mret true.

(** The object as the constructor finds it: the three arrays hold
    whatever was in memory, the other members their initialisers. *)
Definition uninitialised (b k n : list Z) : SafeVar :=
  mkSafeVar b k 0%Z 0%Z n 0%Z false.

(** [SafeVar(const T& value) { Set(value); }] *)
Definition construct (env : Env) (value : list Z) : exec unit :=
  Set_ env value;; mret ().

(** ** Histories of one container *)

Inductive call : Type :=
| CallGet (encrypted : bool)
| CallSet (env : Env) (value : list Z)
| CallReKey (env : Env)
| CallSerialize
| CallDeserialize (data : list Z) (len : nat)
| CallClear (env : Env).

Definition run (c : call) : exec unit :=
  match c with
  | CallGet encrypted =>
      m ← gets id; lift (Get (this m) (heap m) encrypted);; mret ()
  | CallSet env value => Set_ env value;; mret ()
  | CallReKey env => ReKey env
  | CallSerialize => s ← get_this; lift (Serialize s);; mret ()
  | CallDeserialize data len => Deserialize data len;; mret ()
  | CallClear env => Clear env
  end.

(** A call is well typed when the value it passes is a [T]. *)
Definition well_typed (c : call) : Prop :=
  match c with
  | CallSet _ value => length value = VALUE_SIZE
  | _ => True
  end.

(** Another party writes [bytes] over the mirrored allocation. *)
Definition tamper (bytes : list Z) (m : Machine) : Machine :=
  with_heap (insert (realMemory (this m)) bytes) m.

(** The states one container passes through: after the constructor
    returns, after every call of [call] that returns or throws, and
    after every outside write to the pages it owns.  Copies of the
    container, which the postfix operators make, are not part of it, and
    at the array level a type of more than 32 bytes has no such state:
    its constructor does not get past the copy of the key. *)
Inductive reachable : Machine → Prop :=
| reach_construct b k n h f env value m :
    length value = VALUE_SIZE →
    construct env value (mkMachine (uninitialised b k n) h f) = Return () m →
    reachable m
| reach_return c m m' :
    reachable m → well_typed c → run c m = Return () m' → reachable m'
| reach_raise c m e m' :
    reachable m → well_typed c → run c m = Raise e m' → reachable m'
| reach_tamper bytes m :
    reachable m → realMemory (this m) ≠ 0%Z → length bytes = VALUE_SIZE →
    reachable (tamper bytes m).

(** The same without outside writes. *)
Inductive reachable_untampered : Machine → Prop :=
| reachu_construct b k n h f env value m :
    length value = VALUE_SIZE →
    construct env value (mkMachine (uninitialised b k n) h f) = Return () m →
    reachable_untampered m
| reachu_return c m m' :
    reachable_untampered m → well_typed c → run c m = Return () m' →
    reachable_untampered m'
| reachu_raise c m e m' :
    reachable_untampered m → well_typed c → run c m = Raise e m' →
    reachable_untampered m'.

End SafeVar.

(** ** Notions used to state the properties *)

(** FNV-1a as a left fold over the bytes. *)
Definition fnv1a (data : list Z) : Z :=
  fold_left (fun hash b => wrap32 (Z.lxor hash b * fnv_prime)) data fnv_offset.

(** The 32-byte cipher key of the container: the key member followed by
    zeros. *)
Definition padded_key (s : SafeVar) : list Z :=
  key s ++ replicate (32 - length (key s)) 0%Z.


Section Notions.
Context `{ValueType}.

(** What [Clear] leaves in the object: the three arrays zeroed, no
    allocation, no fake token; the checksum and the validity flag are
    not touched. *)
Definition cleared (s : SafeVar) : SafeVar :=
  mkSafeVar (replicate VALUE_SIZE 0%Z) (replicate VALUE_SIZE 0%Z) 0%Z 0%Z
    (replicate 12 0%Z) (lastChecksum s) (isValid s).

(** The members [Set] has written when it reaches the allocation:
    fresh key, fresh nonce, the ciphertext [c]. *)
Definition keyed (env : Env) (c : list Z) (s : SafeVar) : SafeVar :=
  mkSafeVar c (GenerateKey env) 0%Z 0%Z
    (GenerateNonce env (replicate 12 0%Z)) (lastChecksum s) (isValid s).

(** The object after a [Set] that returned, with ciphertext [c] and
    fake token [a]. *)
Definition established (env : Env) (c : list Z) (a : Z) : SafeVar :=
  mkSafeVar c (GenerateKey env) (VirtualAlloc env) a
    (GenerateNonce env (replicate 12 0%Z)) (fnv1a c) true.

End Notions.


Section Invariant.
Context `{ValueType}.

(** What every state of a live container satisfies: the arrays have
    the sizes their types give them, and a non-null [realMemory]
    points to a mapped block of [sizeof(T)] bytes of a container whose
    validity flag is set. *)
Definition well_formed (m : Machine) : Prop :=
  length (buffer (this m)) = VALUE_SIZE ∧
  length (key (this m)) = VALUE_SIZE ∧
  length (nonce (this m)) = 12 ∧
  (realMemory (this m) ≠ 0%Z →
   isValid (this m) = true ∧
   ∃ content, heap m !! realMemory (this m) = Some content ∧
              length content = VALUE_SIZE).

(** The bytes of the real allocation, when the container has one. *)
Definition real_allocation (m : Machine) : option (list Z) :=
  if decide (realMemory (this m) = 0%Z) then None
  else heap m !! realMemory (this m).

(** [Get] as the specification words it: no real allocation, an
    allocation that differs from the ciphertext, the raw mode, and the
    decryption with its re-encryption check. *)
Definition Get_specified (m : Machine) (rawMode : bool)
  : outcome (list Z) :=
  match real_allocation m with
  | None => Throw InvalidMemoryState
  | Some content =>
      if bool_decide (content ≠ buffer (this m))
      then Throw MemoryValidationFailed
      else if rawMode then Ok (buffer (this m))
      else
        decrypted ← Deobfuscate (this m) (buffer (this m));
        reencrypted ← Obfuscate (this m) decrypted;
        if bool_decide (reencrypted ≠ buffer (this m))
        then Throw DecryptionVerificationFailed
        else Ok decrypted
  end.

(** The invariant of the specification: a set validity flag means
    that a real allocation exists and holds the bytes of the
    ciphertext. *)
Definition mirror_invariant (m : Machine) : Prop :=
  isValid (this m) = true →
  real_allocation m = Some (buffer (this m)).

End Invariant.


(** ** Sample types, environments and histories *)

(** Four instantiations: a 32-bit integer, a 64-bit integer, and two
    structs of 32 and of 33 bytes. *)
Definition int32_t : ValueType := {| VALUE_SIZE := 4 |}.
Definition uint64_t : ValueType := {| VALUE_SIZE := 8 |}.
Definition bytes32 : ValueType := {| VALUE_SIZE := 32 |}.
Definition bytes33 : ValueType := {| VALUE_SIZE := 33 |}.

(** An operating system that grants the pages at 0x20000, and one that
    refuses; both with the same random draws. *)
Definition os_grants : Env :=
  mkEnv 0x20000 true (fun i => Z.of_nat (7 * i + 3)) (fun i => Z.of_nat (i + 1)).
Definition os_denies : Env :=
  mkEnv 0 true (fun i => Z.of_nat (7 * i + 3)) (fun i => Z.of_nat (i + 1)).

(** A process in which the constructor is about to run: the arrays of
    the object hold the fill pattern of fresh stack memory. *)
Definition fresh_process `{ValueType} : Machine :=
  mkMachine
    (uninitialised (replicate VALUE_SIZE 0xCC%Z) (replicate VALUE_SIZE 0xCC%Z)
       (replicate 12 0xCC%Z))
    ∅ FakeMemoryAllocator.base.

(** The machine a computation leaves behind. *)
Definition machine_after {A} (r : result A) (otherwise : Machine) : Machine :=
  match r with
  | Return _ m => m
  | Raise _ m => m
  | Fault => otherwise
  end.

(** [SafeVar<int32_t> secret(42);] *)
Definition forty_two : list Z := [42; 0; 0; 0]%Z.
Definition secret_42 : Machine :=
  machine_after
    (construct (H := int32_t) os_grants forty_two (fresh_process (H := int32_t)))
    (fresh_process (H := int32_t)).

(** A 32-byte value, its container, and a wire image of 76 bytes that
    did not come from this container. *)
Definition value_32 : list Z := Z.of_nat <$> seq 1 32.
Definition holder_32 : Machine :=
  machine_after
    (construct (H := bytes32) os_grants value_32 (fresh_process (H := bytes32)))
    (fresh_process (H := bytes32)).
Definition foreign_image : list Z := replicate 76 1%Z.
Definition holder_32_loaded : Machine :=
  machine_after (run (H := bytes32) (CallDeserialize foreign_image 76) holder_32)
    holder_32.

(** A 33-byte value. *)
Definition value_33 : list Z := Z.of_nat <$> seq 1 33.

(** Two 8-byte strings with the same FNV-1a digest, and the 64-bit value
    whose ciphertext under the draws of [os_grants] is the first one. *)
Definition collider_1 : list Z := [136; 32; 246; 93; 245; 164; 251; 86]%Z.
Definition preimage_1 : list Z :=
  match
    ChaCha20.Encrypt collider_1 8
      (GenerateKey (H := uint64_t) os_grants ++ replicate 24 0%Z)
      (GenerateNonce os_grants (replicate 12 0%Z))
  with
  | Ok v => v
  | _ => []
  end.
Definition holder_64 : Machine :=
  machine_after
    (construct (H := uint64_t) os_grants preimage_1
       (fresh_process (H := uint64_t)))
    (fresh_process (H := uint64_t)).


(** ** The keystream, position by position *)

(** Byte [i] of the keystream that goes with the initial state [state]:
    byte [i mod 64] of the block computed with word 12 set to the
    number of the block, [i / 64], as a [uint32_t]. *)
Definition keystream_byte (state : list Z) (i : nat) : Z :=
  ChaCha20.Block (<[12 := wrap32 (Z.of_nat (i / 64))]> state) !!! (i mod 64).

Definition keystream (state : list Z) (n : nat) : list Z :=
  keystream_byte state <$> seq 0 n.

(** A list of bytes. *)
Definition bytes (l : list Z) : Prop := Forall (fun b => (0 ≤ b < 256)%Z) l.


(** ** The operators of the container *)

Section Operators.
Context `{ValueType}.

(** [operator+=], [-=], [*=], [/=], [%=], prefix [++] and [--]: read the
    plain value, apply the operation of [T] to it, [Set] the result.
    [op] is that operation on object representations. *)
Definition compound_assign (env : Env) (op : list Z → list Z) : exec unit :=
  m ← gets id;
  currentValue ← lift (Get (this m) (heap m) false);
  Set_ env (op currentValue);;
  mret ().

(** [operator=(const T& value)] *)
Definition assign (env : Env) (value : list Z) : exec unit :=
  Set_ env value;; mret ().

(** Postfix [++] and [--]: [SafeVar temp = *this; ++*this; return temp;]
    where the copy is the memberwise copy the compiler generates. *)
Definition post_step (env : Env) (op : list Z → list Z) : exec SafeVar :=
  temp ← get_this;
  compound_assign env op;;
  mret temp.

(** [~SafeVar() { Clear(); }] run on the object [s], which lives in the
    same process as the container of the machine. *)
Definition destroy (env : Env) (s : SafeVar) (m : Machine) : result unit :=
  Clear env (mkMachine s (heap m) (fakeBaseAddress m)).

Definition GetRealAddress (s : SafeVar) : Z := realMemory s.
Definition GetFakeAddress (s : SafeVar) : Z := fakeMemoryAddress s.

End Operators.

(** ** The pool behind [operator new] and [operator delete] *)

Module MemoryPool.

(** [freeBlocks] is the vector of the pool; [Allocate] returns the
    pointer and leaves the vector. *)
Definition Allocate (env : Env) (size : nat) (freeBlocks : list Z)
  : exec (Z * list Z) :=
  if bool_decide (freeBlocks ≠ []) then
    let ptr := List.last freeBlocks 0%Z in
    mret (ptr, removelast freeBlocks)
  else
    ptr ← RealMemoryAllocator.AllocateRealMemory env size;
    mret (ptr, freeBlocks).

Definition Free (ptr : Z) (freeBlocks : list Z) : list Z :=
  freeBlocks ++ [ptr].

(** [~MemoryPool()]: every block of the vector goes back to the
    operating system, in order; [answers i] holds what the operating
    system answers to call number [i]. *)
Fixpoint release_all (answers : nat → Env) (i : nat) (freeBlocks : list Z)
  : exec unit :=
  match freeBlocks with
  | [] => mret ()
  | ptr :: rest =>
      RealMemoryAllocator.FreeRealMemory (answers i) ptr;;
      release_all answers (S i) rest
  end.

End MemoryPool.


(** ** More samples *)

(** An operating system that grants the pages at another address. *)
Definition os_grants_elsewhere : Env :=
  mkEnv 0x30000 true (fun i => Z.of_nat (5 * i + 1)) (fun i => Z.of_nat (9 * i + 2)).

(** [currentValue += k] for a [DWORD], on its object representation. *)
Definition plus_DWORD (k : Z) (v : list Z) : list Z :=
  match LoadLE32 v 0 with
  | Ok w => ChaCha20.word_bytes (wrap32 (w + k))
  | _ => v
  end.


(** * The XOR variant of [Public/SaveVarUnsecure.h]

    The same interface without cipher, allocation or validation: the
    object is two arrays of [sizeof(T)] bytes, and nothing throws. *)

Module Unsecure.
Section Unsecure.
Context `{ValueType}.

Record SafeVar := mkSafeVar {
  buffer : list Z;
  key : list Z }.

(** [keyOut[i] = static_cast<uint8_t>(rng() & 0xFF)]; [rng i] is draw
    number [i] of this call. *)
Definition GenerateKey (rng : nat → Z) (keyOut : list Z) : list Z :=
  fold_left (fun k i => <[i := wrap8 (Z.land (rng i) 0xFF)]> k)
    (seq 0 VALUE_SIZE) keyOut.

(** [Obfuscate(value, outBuffer)]: what is left in [outBuffer]. *)
Definition Obfuscate (s : SafeVar) (value outBuffer : list Z)
  : outcome (list Z) :=
  raw ← memcpy_from value VALUE_SIZE;
  Ok (fold_left
        (fun out i => <[i := Z.lxor (raw !!! i) (key s !!! i)]> out)
        (seq 0 VALUE_SIZE) outBuffer).

Definition Deobfuscate (s : SafeVar) (inBuffer : list Z) : outcome (list Z) :=
  let raw := replicate VALUE_SIZE 0%Z in
  let raw :=
    fold_left
      (fun raw i => <[i := Z.lxor (inBuffer !!! i) (key s !!! i)]> raw)
      (seq 0 VALUE_SIZE) raw in
  memcpy_from raw VALUE_SIZE.

Definition Get (s : SafeVar) (encrypted : bool) : outcome (list Z) :=
  if encrypted then memcpy_from (buffer s) VALUE_SIZE
  else Deobfuscate s (buffer s).

(** [Set(value)]: the value returned and the object afterwards. *)
Definition Set_ (rng : nat → Z) (value : list Z) (s : SafeVar)
  : outcome (list Z * SafeVar) :=
  let s := mkSafeVar (buffer s) (GenerateKey rng (key s)) in
  out ← Obfuscate s value (buffer s);
  Ok (value, mkSafeVar out (key s)).

Definition ReKey (rng : nat → Z) (s : SafeVar) : outcome SafeVar :=
  current ← Get s false;
  r ← Set_ rng current s;
  Ok r.2.

Definition Serialize (s : SafeVar) : outcome (list Z) :=
  k ← memcpy_from (key s) VALUE_SIZE;
  b ← memcpy_from (buffer s) VALUE_SIZE;
  Ok (k ++ b).

Definition Deserialize (data : list Z) (len : nat) (s : SafeVar)
  : outcome (bool * SafeVar) :=
  if bool_decide (len ≠ VALUE_SIZE * 2) then Ok (false, s)
  else
    k ← memcpy_from data VALUE_SIZE;
    b ← memcpy_from (drop VALUE_SIZE data) VALUE_SIZE;
    Ok (true, mkSafeVar b k).

Definition Clear (s : SafeVar) : SafeVar :=
  mkSafeVar (replicate VALUE_SIZE 0%Z) (replicate VALUE_SIZE 0%Z).

(** The arrays have the size their type gives them. *)
Definition sized (s : SafeVar) : Prop :=
  length (buffer s) = VALUE_SIZE ∧ length (key s) = VALUE_SIZE.

End Unsecure.
End Unsecure.

(** * The container as the compiled code runs it

    The semantics above stops at the first access that leaves its
    array.  Two accesses of the container do so and yet stay inside the
    object that holds the array:
    - the copy of the key into [fullKey], which for [sizeof(T) > 32]
      runs on into [temp], the member of [CryptoState] that follows
      [fullKey];
    - the key loader of the cipher, which [Serialize] and
      [Deserialize] start at [key.data()] and which for
      [sizeof(T) < 32] reads on into the members of [SafeVar<T>] that
      follow [key].
    The compiled code does not stop there.  This part gives what it
    computes, from the layout of the two objects on the 64-bit target
    the header is written for: members in declaration order, byte
    arrays without padding between them, pointers and [uintptr_t] of 8
    bytes aligned to 8, integers least significant byte first.  A
    pointer into one of the two objects stands for the bytes from where
    it points to the last member of the object; everything else is as
    above. *)

Module Layout.

(** [std::memcpy], [std::copy] and [fill] through a pointer [off] bytes
    into an object: [bytes] written over [object] from there on. *)
Definition write_at (object : list Z) (off : nat) (bytes : list Z)
  : outcome (list Z) :=
  if decide (off + length bytes ≤ length object)
  then Ok (take off object ++ bytes ++ drop (off + length bytes) object)
  else Undefined.

(** The bytes of an [n]-byte integer member. *)
Definition le_bytes (n : nat) (x : Z) : list Z :=
  (fun i => wrap8 (Z.shiftr x (8 * Z.of_nat i))) <$> seq 0 n.

Section Layout.
Context `{ValueType}.

(** [CryptoState]: [fullKey] at offset 0, [temp] at offset 32. *)
Definition sizeof_CryptoState : nat := 32 + VALUE_SIZE.
Definition offsetof_temp : nat := 32.

Definition InitializeCryptoState (cryptoState : list Z) (s : SafeVar)
  : outcome (list Z) :=
  (* cryptoState.fullKey.fill(0) *)
  cryptoState ← write_at cryptoState 0 (replicate 32 0%Z);
  (* std::copy(key.begin(), key.end(), cryptoState.fullKey.begin()) *)
  cryptoState ← write_at cryptoState 0 (key s);
  (* cryptoState.temp.fill(0) *)
  write_at cryptoState offsetof_temp (replicate VALUE_SIZE 0%Z).

(** The local [CryptoState] is not initialised; [InitializeCryptoState]
    writes every byte of it before any is read, so the bytes it starts
    with are of no account. *)
Definition fresh_CryptoState : list Z := replicate sizeof_CryptoState 0%Z.

Definition Obfuscate (s : SafeVar) (value : list Z) : outcome (list Z) :=
  cryptoState ← InitializeCryptoState fresh_CryptoState s;
  v ← memcpy_from value VALUE_SIZE;
  cryptoState ← write_at cryptoState offsetof_temp v;
  ChaCha20.Encrypt (drop offsetof_temp cryptoState) VALUE_SIZE
    cryptoState (nonce s).

Definition Deobfuscate (s : SafeVar) (inBuffer : list Z)
  : outcome (list Z) :=
  cryptoState ← InitializeCryptoState fresh_CryptoState s;
  out ← ChaCha20.Encrypt inBuffer VALUE_SIZE cryptoState (nonce s);
  cryptoState ← write_at cryptoState offsetof_temp out;
  memcpy_from (drop offsetof_temp cryptoState) VALUE_SIZE.

Definition Get (s : SafeVar) (h : gmap Z (list Z)) (encrypted : bool)
  : outcome (list Z) :=
  if bool_decide (realMemory s = 0%Z) then Throw InvalidMemoryState
  else
    valid ← ValidateMemory s h;
    if negb valid then Throw MemoryValidationFailed
    else if encrypted then memcpy_from (buffer s) VALUE_SIZE
    else
      decrypted ← Deobfuscate s (buffer s);
      verify ← Obfuscate s decrypted;
      if bool_decide (verify ≠ buffer s)
      then Throw DecryptionVerificationFailed
      else Ok decrypted.

Definition Set_ (env : Env) (value : list Z) : exec (list Z) :=
  Clear env;;
  modify (with_this (set_key (GenerateKey env)));;
  modify (with_this (fun s => set_nonce (GenerateNonce env (nonce s)) s));;
  s ← get_this;
  out ← lift (Obfuscate s value);
  modify (with_this (set_buffer out));;
  ptr ← RealMemoryAllocator.AllocateRealMemory env VALUE_SIZE;
  modify (with_this (set_realMemory ptr));;
  (if bool_decide (ptr = 0%Z) then throw MemoryAllocationFailed
   else mret ());;
  s ← get_this;
  bytes ← lift (memcpy_from (buffer s) VALUE_SIZE);
  store (realMemory s) bytes;;
  c ← lift (ComputeChecksumFNV (buffer s) (length (buffer s)));
  modify (with_this (set_lastChecksum c));;
  a ← FakeMemoryAllocator.AllocateFakeMemory VALUE_SIZE;
  modify (with_this (set_fakeMemoryAddress a));;
  modify (with_this (set_isValid true));;
  mret value.

(** [SafeVar<T>]: [buffer] at offset 0, [key] at [sizeof(T)],
    [realMemory] at the next multiple of 8, then [fakeMemoryAddress],
    [nonce], [lastChecksum] and [isValid].  The bytes between [key] and
    [realMemory] belong to no member and no member function writes
    them: they hold [gap 0], [gap 1], ... *)
Definition gap_size : nat := (8 - (VALUE_SIZE + VALUE_SIZE) mod 8) mod 8.

(** What [key.data()] points to: the object from [key] on. *)
Definition from_key (gap : nat → Z) (s : SafeVar) : list Z :=
  key s ++ (gap <$> seq 0 gap_size)
  ++ le_bytes 8 (realMemory s) ++ le_bytes 8 (fakeMemoryAddress s)
  ++ nonce s ++ le_bytes 4 (lastChecksum s) ++ [Z.b2z (isValid s)].

Definition Serialize (gap : nat → Z) (s : SafeVar) : outcome (list Z) :=
  n ← memcpy_from (nonce s) 12;
  k ← memcpy_from (key s) VALUE_SIZE;
  encrypted ←
    ChaCha20.Encrypt (buffer s) VALUE_SIZE (from_key gap s) (nonce s);
  Ok (n ++ k ++ encrypted).

Definition Deserialize (gap : nat → Z) (data : list Z) (len : nat)
  : exec bool :=
  if bool_decide (len ≠ VALUE_SIZE + 12 + VALUE_SIZE) then mret false
  else
    n ← lift (memcpy_from data 12);
    modify (with_this (set_nonce n));;
    k ← lift (memcpy_from (drop 12 data) VALUE_SIZE);
    modify (with_this (set_key k));;
    encrypted ← lift (memcpy_from (drop (12 + VALUE_SIZE) data) VALUE_SIZE);
    s ← get_this;
    out ← lift (ChaCha20.Encrypt encrypted VALUE_SIZE (from_key gap s)
                  (nonce s));
    modify (with_this (set_buffer out));;
    mret true.

Definition ReKey (env : Env) : exec unit :=
  m ← gets id;
  current ← lift (Get (this m) (heap m) false);
  Set_ env current;;
  mret ().

(** The compound assignments and the prefix steps, and the postfix
    steps with the copy they return. *)
Definition compound_assign (env : Env) (op : list Z → list Z) : exec unit :=
  m ← gets id;
  currentValue ← lift (Get (this m) (heap m) false);
  Set_ env (op currentValue);;
  mret ().

Definition post_step (env : Env) (op : list Z → list Z) : exec SafeVar :=
  temp ← get_this;
  compound_assign env op;;
  mret temp.

(** The public member functions that reach the data members. *)
Inductive operation : Type :=
| OpGet (encrypted : bool)
| OpSet (env : Env) (value : list Z)            (* Set, operator= *)
| OpReKey (env : Env)
| OpSerialize
| OpDeserialize (data : list Z) (len : nat)
| OpClear (env : Env)
| OpAssign (env : Env) (op : list Z → list Z)   (* += ... %=, ++x, --x *)
| OpPostfix (env : Env) (op : list Z → list Z). (* x++, x-- *)

Definition run (gap : nat → Z) (o : operation) : exec unit :=
  match o with
  | OpGet encrypted =>
      m ← gets id; lift (Get (this m) (heap m) encrypted);; mret ()
  | OpSet env value => Set_ env value;; mret ()
  | OpReKey env => ReKey env
  | OpSerialize => s ← get_this; lift (Serialize gap s);; mret ()
  | OpDeserialize data len => Deserialize gap data len;; mret ()
  | OpClear env => Clear env
  | OpAssign env op => compound_assign env op
  | OpPostfix env op => post_step env op;; mret ()
  end.

(** An operation is well typed when the values it passes are values
    of [T]. *)
Definition well_typed (o : operation) : Prop :=
  match o with
  | OpSet _ value => length value = VALUE_SIZE
  | OpAssign _ op | OpPostfix _ op =>
      ∀ v, length v = VALUE_SIZE → length (op v) = VALUE_SIZE
  | _ => True
  end.

(** The three arrays have the sizes their types give them. *)
Definition sized (s : SafeVar) : Prop :=
  length (buffer s) = VALUE_SIZE ∧ length (key s) = VALUE_SIZE ∧
  length (nonce s) = 12.

End Layout.
End Layout.

(** The 32 bytes the copy of the key leaves in [fullKey]: the first 32
    bytes of the key member, zero-filled when it has fewer. *)
Definition cipher_key (s : SafeVar) : list Z :=
  take 32 (key s ++ replicate 32 0%Z).

(** Two more samples: the key material [GenerateKey] draws at 33 bytes
    with its last byte replaced, and what lies between [key] and
    [realMemory] in freshly used stack memory. *)
Definition stack_fill : nat → Z := fun _ => 0xCC%Z.
Definition secret_33 : SafeVar :=
  mkSafeVar (replicate 33 0%Z) (GenerateKey (H := bytes33) os_grants) 0 0
    (GenerateNonce os_grants (replicate 12 0%Z)) 0 false.
Definition secret_33' : SafeVar :=
  set_key (<[32 := 0xFF%Z]> (key secret_33)) secret_33.

(** * Properties *)

(** ** The outcome monad and counted loops *)

Lemma for_upto_S {S : Type} n (body : nat → S → outcome S) s :
  for_upto (Datatypes.S n) body s = for_upto n body s ≫= body n.
Proof. reflexivity. Qed.

Lemma for_upto_ext {S : Type} n (f g : nat → S → outcome S) s :
  (∀ i s', i < n → f i s' = g i s') → for_upto n f s = for_upto n g s.
Proof.
  induction n as [|n IH]; intros Hfg; [done|].
  rewrite !for_upto_S, IH by (intros; apply Hfg; lia).
  destruct (for_upto n g s); simpl; auto.
Qed.

Lemma read_lookup buf i b : buf !! i = Some b → read buf i = Ok b.
Proof. unfold read. by intros ->. Qed.

Lemma read_ge buf i : length buf ≤ i → read buf i = Undefined.
Proof. unfold read. intros Hi. by rewrite lookup_ge_None_2. Qed.

Lemma read_take buf n i : i < n → read (take n buf) i = read buf i.
Proof. unfold read. intros Hi. by rewrite lookup_take_lt. Qed.

Lemma read_app_l buf1 buf2 i :
  i < length buf1 → read (buf1 ++ buf2) i = read buf1 i.
Proof. unfold read. intros Hi. by rewrite lookup_app_l. Qed.

Lemma LoadLE32_take src n off :
  off + 4 ≤ n → LoadLE32 (take n src) off = LoadLE32 src off.
Proof. intros Hn. unfold LoadLE32. by rewrite !read_take by lia. Qed.

Lemma LoadLE32_app_l src1 src2 off :
  off + 4 ≤ length src1 → LoadLE32 (src1 ++ src2) off = LoadLE32 src1 off.
Proof. intros Hn. unfold LoadLE32. by rewrite !read_app_l by lia. Qed.

Lemma LoadLE32_defined src off :
  off + 4 ≤ length src → ∃ w, LoadLE32 src off = Ok w.
Proof.
  intros Hn. unfold LoadLE32.
  destruct (lookup_lt_is_Some_2 src off) as [b0 H0]; [lia|].
  destruct (lookup_lt_is_Some_2 src (off + 1)) as [b1 H1]; [lia|].
  destruct (lookup_lt_is_Some_2 src (off + 2)) as [b2 H2]; [lia|].
  destruct (lookup_lt_is_Some_2 src (off + 3)) as [b3 H3]; [lia|].
  rewrite (read_lookup _ _ _ H0), (read_lookup _ _ _ H1),
    (read_lookup _ _ _ H2), (read_lookup _ _ _ H3).
  simpl. eauto.
Qed.

Lemma LoadLE32_undefined src off :
  length src < off + 4 → LoadLE32 src off = Undefined.
Proof.
  intros Hn. unfold LoadLE32, read.
  destruct (src !! off) eqn:H0; simpl; [|done].
  destruct (src !! (off + 1)) eqn:H1; simpl; [|done].
  destruct (src !! (off + 2)) eqn:H2; simpl; [|done].
  destruct (src !! (off + 3)) eqn:H3; simpl; [|done].
  apply lookup_lt_Some in H3. lia.
Qed.

(** ** The cipher *)

Module ChaCha20Facts.
Import ChaCha20.

Lemma length_mix state a b d r : length (mix state a b d r) = length state.
Proof. unfold mix. by rewrite !length_insert. Qed.

Lemma length_QuarterRound state a b c d :
  length (QuarterRound state a b c d) = length state.
Proof. unfold QuarterRound. by rewrite !length_mix. Qed.

Lemma length_double_round ws : length (double_round ws) = length ws.
Proof. unfold double_round. by rewrite !length_QuarterRound. Qed.

Lemma length_iter_double_round n ws :
  length (Nat.iter n double_round ws) = length ws.
Proof.
  induction n as [|n IH]; [done|].
  by rewrite Nat.iter_succ, length_double_round.
Qed.

Lemma length_fold_insert {A} (f : list A → nat → A) (idx : list nat) l :
  length (fold_left (fun ws i => <[i := f ws i]> ws) idx l) = length l.
Proof.
  revert l. induction idx as [|i idx IH]; intros l; simpl; [done|].
  by rewrite IH, length_insert.
Qed.

Lemma length_bind_word_bytes (ws : list Z) :
  length (ws ≫= word_bytes) = 4 * length ws.
Proof.
  induction ws as [|w ws IH]; [done|].
  change ((w :: ws) ≫= word_bytes) with (word_bytes w ++ (ws ≫= word_bytes)).
  rewrite length_app, IH. simpl. lia.
Qed.

Lemma length_Block state : length (Block state) = 4 * length state.
Proof.
  unfold Block. rewrite length_bind_word_bytes.
  rewrite (length_fold_insert (fun ws i => wrap32 (ws !!! i + state !!! i))).
  by rewrite length_iter_double_round.
Qed.

End ChaCha20Facts.
Module EncryptFacts.
Import ChaCha20 ChaCha20Facts.

Lemma Encrypt_loop_unfold state counter input length bytesProcessed output :
  Encrypt_loop state counter input length bytesProcessed output =
  if decide (bytesProcessed < length) then
    xor_block input (Block (<[12 := counter]> state)) bytesProcessed
      (blockSize length bytesProcessed) output ≫= λ output',
    Encrypt_loop (<[12 := counter]> state) (wrap32 (counter + 1)) input
      length (bytesProcessed + blockSize length bytesProcessed) output'
  else Ok output.
Proof.
  rewrite Encrypt_loop_equation_1.
  destruct (decide (bytesProcessed < length)); simpl; [|done].
  destruct (xor_block _ _ _ _ _); done.
Qed.

(** The inner loop XORs [n] input bytes with the head of the keystream
    block and appends them to what was written before. *)
Lemma xor_block_spec input keystream bytesProcessed n output :
  bytesProcessed + n ≤ length input → n ≤ length keystream →
  xor_block input keystream bytesProcessed n output =
  Ok (output ++
      zip_with Z.lxor (take n (drop bytesProcessed input)) (take n keystream)).
Proof.
  unfold xor_block. induction n as [|n IH]; intros Hin Hks.
  - simpl. by rewrite app_nil_r.
  - rewrite for_upto_S, IH by lia. simpl.
    destruct (lookup_lt_is_Some_2 input (bytesProcessed + n)) as [x Hx];
      [lia|].
    destruct (lookup_lt_is_Some_2 keystream n) as [k Hk]; [lia|].
    rewrite (read_lookup _ _ _ Hx), (read_lookup _ _ _ Hk). simpl.
    rewrite (take_S_r (drop bytesProcessed input) n x)
      by (by rewrite lookup_drop).
    rewrite (take_S_r keystream n k) by done.
    rewrite zip_with_app by (rewrite !length_take, length_drop; lia).
    by rewrite <- (assoc_L (++)).
Qed.

(** A read past the input makes the inner loop undefined. *)
Lemma xor_block_short input keystream bytesProcessed n output :
  bytesProcessed ≤ length input < bytesProcessed + n →
  n ≤ length keystream →
  xor_block input keystream bytesProcessed n output = Undefined.
Proof.
  induction n as [|n IH]; intros Hin Hks; [lia|].
  unfold xor_block. rewrite for_upto_S.
  fold (xor_block input keystream bytesProcessed n output).
  destruct (decide (length input < bytesProcessed + n)) as [Hlt|Hge].
  - by rewrite IH by lia.
  - rewrite xor_block_spec by lia. simpl.
    by rewrite (read_ge input) by lia.
Qed.

Lemma LoadLE32_no_throw src off e : LoadLE32 src off ≠ Throw e.
Proof.
  unfold LoadLE32, read.
  destruct (src !! off); simpl; [|done].
  destruct (src !! (off + 1)); simpl; [|done].
  destruct (src !! (off + 2)); simpl; [|done].
  by destruct (src !! (off + 3)).
Qed.

Lemma length_init_fold (st : list Z) :
  length (fold_left (fun st i => <[i := constants !!! i]> st) (seq 0 4) st)
  = length st.
Proof. apply (length_fold_insert (fun _ i => constants !!! i)). Qed.

Lemma key_words_length key n (st st' : list Z) :
  for_upto n
    (fun i (st : list Z) => w ← LoadLE32 key (i * 4); Ok (<[4 + i := w]> st)) st
  = Ok st' → length st' = length st.
Proof.
  revert st'. induction n as [|n IH]; intros st'.
  - simpl. by intros [= <-].
  - rewrite for_upto_S. destruct (for_upto n _ st) as [s| |]; simpl; [|done..].
    destruct (LoadLE32 key (n * 4)); simpl; [|done..].
    intros [= <-]. rewrite length_insert. by apply IH.
Qed.

Lemma key_words_defined key n (st : list Z) :
  n * 4 ≤ length key →
  ∃ st', for_upto n
    (fun i (st : list Z) => w ← LoadLE32 key (i * 4); Ok (<[4 + i := w]> st)) st
  = Ok st'.
Proof.
  induction n as [|n IH]; intros Hn; [by eexists|].
  rewrite for_upto_S. destruct IH as [s ->]; [lia|]. simpl.
  destruct (LoadLE32_defined key (n * 4)) as [w ->]; [lia|]. simpl. eauto.
Qed.

Lemma key_words_no_throw key n (st : list Z) e :
  for_upto n
    (fun i (st : list Z) => w ← LoadLE32 key (i * 4); Ok (<[4 + i := w]> st)) st
  ≠ Throw e.
Proof.
  revert e. induction n as [|n IH]; intros e; [done|].
  rewrite for_upto_S.
  destruct (for_upto n _ st) as [s|e'|] eqn:E; simpl; [| |done].
  - pose proof (LoadLE32_no_throw key (n * 4)) as Hnt.
    destruct (LoadLE32 key (n * 4)) as [w|e0|]; simpl;
      [done|by destruct (Hnt e0)|done].
  - by destruct (IH e').
Qed.

(** The key loader reads [key[0 .. 32)]. *)
Lemma init_state_defined key nonce :
  32 ≤ length key → 8 ≤ length nonce →
  ∃ state, init_state key nonce = Ok state ∧ length state = 16.
Proof.
  intros Hk Hn. unfold init_state.
  destruct (key_words_defined key 8
    (fold_left (fun st i => <[i := constants !!! i]> st) (seq 0 4)
       (replicate 16 0%Z))) as [st Hst]; [lia|].
  rewrite Hst. simpl.
  destruct (LoadLE32_defined nonce 0) as [w14 ->]; [lia|]. simpl.
  destruct (LoadLE32_defined nonce 4) as [w15 ->]; [lia|]. simpl.
  eexists; split; [done|].
  rewrite !length_insert. rewrite (key_words_length _ _ _ _ Hst).
  by rewrite length_init_fold, length_replicate.
Qed.

Lemma init_state_short_key key nonce :
  length key < 32 → init_state key nonce = Undefined.
Proof.
  intros Hk. unfold init_state. rewrite for_upto_S.
  destruct (for_upto 7 _ _) as [s|e|] eqn:E; simpl; [| |done].
  - by rewrite (LoadLE32_undefined key 28) by lia.
  - by apply key_words_no_throw in E.
Qed.

Lemma init_state_short_nonce key nonce :
  32 ≤ length key → length nonce < 8 → init_state key nonce = Undefined.
Proof.
  intros Hk Hn. unfold init_state.
  destruct (key_words_defined key 8
    (fold_left (fun st i => <[i := constants !!! i]> st) (seq 0 4)
       (replicate 16 0%Z))) as [st ->]; [lia|].
  simpl. destruct (LoadLE32 nonce 0) as [w|e|] eqn:E; simpl; [| |done].
  - by rewrite (LoadLE32_undefined nonce 4) by lia.
  - by apply LoadLE32_no_throw in E.
Qed.

(** Only [nonce[0 .. 8)] enters the state. *)
Lemma init_state_nonce_prefix key nonce :
  init_state key (take 8 nonce) = init_state key nonce.
Proof. unfold init_state. by rewrite !LoadLE32_take by lia. Qed.

(** Only [key[0 .. 32)] enters the state. *)
Lemma init_state_key_prefix key nonce :
  init_state (take 32 key) nonce = init_state key nonce.
Proof.
  unfold init_state. f_equal.
  erewrite (for_upto_ext 8); [done|].
  intros i s' Hi. simpl. by rewrite LoadLE32_take by lia.
Qed.

End EncryptFacts.

Module CipherFacts.
Import ChaCha20 ChaCha20Facts EncryptFacts.

Lemma blockSize_bounds len bytesProcessed :
  bytesProcessed < len →
  1 ≤ blockSize len bytesProcessed ≤ 64 ∧
  bytesProcessed + blockSize len bytesProcessed ≤ len.
Proof. unfold blockSize. case_decide; lia. Qed.

Lemma zip_lxor_twice (b K : list Z) :
  length b ≤ length K → zip_with Z.lxor (zip_with Z.lxor b K) K = b.
Proof.
  revert K. induction b as [|x b IH]; intros [|k K] Hlen; simpl in *;
    [done|done|lia|].
  rewrite IH by lia. f_equal.
  by rewrite Z.lxor_assoc, Z.lxor_nilpotent, Z.lxor_0_r.
Qed.

(** From any point of the loop on, the bytes still to be written are
    the input bytes XORed with a keystream that the state, the counter
    and the two positions fix: it does not depend on the input. *)
Lemma Encrypt_loop_keystream state counter len bytesProcessed :
  length state = 16 → bytesProcessed ≤ len →
  ∃ K, length K = len - bytesProcessed ∧
    ∀ input output, len ≤ length input →
      Encrypt_loop state counter input len bytesProcessed output =
      Ok (output ++
          zip_with Z.lxor
            (take (len - bytesProcessed) (drop bytesProcessed input)) K).
Proof.
  remember (len - bytesProcessed) as d eqn:Hd.
  revert state counter bytesProcessed Hd.
  induction d as [d IH] using lt_wf_ind.
  intros state counter bytesProcessed Hd Hst Hle.
  destruct (decide (bytesProcessed < len)) as [Hlt|Hge].
  - destruct (blockSize_bounds len bytesProcessed Hlt) as [Hbs Hbs'].
    set (bs := blockSize len bytesProcessed) in *.
    set (state' := <[12 := counter]> state).
    assert (Hst' : length state' = 16) by (unfold state'; by rewrite length_insert).
    destruct (IH (len - (bytesProcessed + bs)) ltac:(lia)
                state' (wrap32 (counter + 1)) (bytesProcessed + bs)
                eq_refl Hst' ltac:(lia)) as (K' & HK' & Hrun).
    exists (take bs (Block state') ++ K'). split.
    + rewrite length_app, length_take, length_Block, Hst'. lia.
    + intros input output Hin.
      rewrite Encrypt_loop_unfold, decide_True by done.
      fold bs state'.
      rewrite xor_block_spec by (rewrite ?length_Block, ?Hst'; lia).
      simpl. rewrite Hrun by done.
      rewrite <- (assoc_L (++)). do 2 f_equal.
      replace d with (bs + (len - (bytesProcessed + bs))) by lia.
      rewrite <- take_take_drop, drop_drop.
      rewrite zip_with_app; [done|].
      rewrite !length_take, length_drop, length_Block, Hst'. lia.
  - exists []. split; [simpl; lia|].
    intros input output Hin.
    rewrite Encrypt_loop_unfold, decide_False by done.
    replace d with 0 by lia. simpl. by rewrite app_nil_r.
Qed.

(** [Encrypt] with a key of at least 32 bytes and a nonce of at least
    8: the output is the input XORed with a keystream of [len] bytes
    fixed by the key, the nonce and [len]. *)
Lemma Encrypt_keystream key nonce len :
  32 ≤ length key → 8 ≤ length nonce →
  ∃ K, length K = len ∧
    ∀ input, len ≤ length input →
      Encrypt input len key nonce = Ok (zip_with Z.lxor (take len input) K).
Proof.
  intros Hk Hn.
  destruct (init_state_defined key nonce Hk Hn) as (state & Hinit & Hst).
  destruct (Encrypt_loop_keystream state 0 len 0 Hst ltac:(lia))
    as (K & HK & Hrun).
  exists K. split; [lia|]. intros input Hin.
  unfold Encrypt. rewrite Hinit. simpl. rewrite Hrun by done.
  by rewrite Nat.sub_0_r.
Qed.

Lemma Encrypt_length input len key nonce out :
  Encrypt input len key nonce = Ok out → length out = len.
Proof.
  intros Hrun.
  destruct (decide (32 ≤ length key)) as [Hk|Hk];
    [|unfold Encrypt in Hrun;
      by rewrite init_state_short_key in Hrun by lia].
  destruct (decide (8 ≤ length nonce)) as [Hn|Hn];
    [|unfold Encrypt in Hrun;
      by rewrite init_state_short_nonce in Hrun by lia].
  destruct (decide (len ≤ length input)) as [Hin|Hin].
  - destruct (Encrypt_keystream key nonce len Hk Hn) as (K & HK & HE).
    rewrite HE in Hrun by done. injection Hrun as <-.
    rewrite length_zip_with, length_take. lia.
  - exfalso. revert Hrun. unfold Encrypt.
    destruct (init_state_defined key nonce Hk Hn) as (state & -> & Hst).
    simpl. clear Hk Hn.
    assert (Hgen : ∀ d bytesProcessed counter st output,
      len - bytesProcessed = d → length st = 16 →
      bytesProcessed ≤ length input →
      Encrypt_loop st counter input len bytesProcessed output ≠ Ok out).
    { induction d as [d IH] using lt_wf_ind.
      intros bp counter st output Hd Hst' Hbp.
      rewrite Encrypt_loop_unfold, decide_True by lia.
      destruct (blockSize_bounds len bp ltac:(lia)) as [Hbs Hbs'].
      destruct (decide (bp + blockSize len bp ≤ length input)) as [Hfit|Hfit].
      - rewrite xor_block_spec by (rewrite ?length_Block, ?length_insert; lia).
        simpl. eapply (IH (len - (bp + blockSize len bp))); try done; try lia.
        by rewrite length_insert.
      - rewrite xor_block_short
          by (rewrite ?length_Block, ?length_insert; lia).
        done. }
    apply (Hgen len 0 _ state []); [lia|done|lia].
Qed.

End CipherFacts.

Arguments ChaCha20.Encrypt : simpl never.
Arguments ChaCha20.Block : simpl never.
Arguments ComputeChecksumFNV : simpl never.
Arguments GenerateNonce : simpl never.
Arguments GenerateKey : simpl never.

(** ** Raw memory moves and the checksum *)

Lemma memcpy_from_all src : memcpy_from src (length src) = Ok src.
Proof.
  unfold memcpy_from. rewrite decide_True by done. by rewrite firstn_all.
Qed.

Lemma memcpy_to_all dst bytes :
  length bytes = length dst → memcpy_to dst bytes = Ok bytes.
Proof.
  intros Hlen. unfold memcpy_to. rewrite decide_True by lia.
  by rewrite drop_ge, app_nil_r by lia.
Qed.

Lemma memcpy_to_overflow dst bytes :
  length dst < length bytes → memcpy_to dst bytes = Undefined.
Proof. intros Hlen. unfold memcpy_to. by rewrite decide_False by lia. Qed.

Lemma ComputeChecksumFNV_fold data len :
  len ≤ length data → ComputeChecksumFNV data len = Ok (fnv1a (take len data)).
Proof.
  unfold ComputeChecksumFNV, fnv1a. induction len as [|len IH]; intros Hlen.
  - done.
  - rewrite for_upto_S, IH by lia. simpl.
    destruct (lookup_lt_is_Some_2 data len) as [b Hb]; [lia|].
    rewrite (read_lookup _ _ _ Hb). simpl.
    rewrite (take_S_r _ _ _ Hb), fold_left_app. done.
Qed.

Ltac exec_unfold :=
  unfold mbind, exec_bind, mret, exec_ret, lift, modify, gets, get_this, throw.

Section SafeVarFacts.
Context `{ValueType}.
Import ChaCha20 CipherFacts EncryptFacts.

(** *** Key schedule of the container *)

Lemma length_GenerateKey env : length (GenerateKey env) = VALUE_SIZE.
Proof.
  unfold GenerateKey.
  rewrite (ChaCha20Facts.length_fold_insert (fun _ i => wrap8 (dis env i))).
  by rewrite length_replicate.
Qed.

Lemma length_GenerateNonce env nonceOut :
  length (GenerateNonce env nonceOut) = length nonceOut.
Proof.
  unfold GenerateNonce.
  by rewrite (ChaCha20Facts.length_fold_insert (fun _ i => wrap8 (random_device env i))).
Qed.

Lemma length_padded_key s : length (key s) ≤ 32 → length (padded_key s) = 32.
Proof.
  intros Hk. unfold padded_key. rewrite length_app, length_replicate. lia.
Qed.

Lemma InitializeCryptoState_fits s :
  length (key s) ≤ 32 →
  InitializeCryptoState s =
  Ok (mkCryptoState (padded_key s) (replicate VALUE_SIZE 0%Z)).
Proof.
  intros Hk. unfold InitializeCryptoState, memcpy_to.
  rewrite length_replicate, decide_True by done.
  by rewrite drop_replicate.
Qed.

Lemma InitializeCryptoState_overflow s :
  32 < length (key s) → InitializeCryptoState s = Undefined.
Proof.
  intros Hk. unfold InitializeCryptoState.
  by rewrite memcpy_to_overflow by (by rewrite length_replicate).
Qed.

Lemma Obfuscate_fits s value :
  length (key s) ≤ 32 → length value = VALUE_SIZE →
  Obfuscate s value = Encrypt value VALUE_SIZE (padded_key s) (nonce s).
Proof.
  intros Hk Hv. unfold Obfuscate.
  rewrite InitializeCryptoState_fits by done. simpl.
  rewrite <- Hv at 1. rewrite memcpy_from_all. simpl.
  by rewrite memcpy_to_all by (by rewrite length_replicate).
Qed.

Lemma Deobfuscate_fits s inBuffer :
  length (key s) ≤ 32 →
  Deobfuscate s inBuffer =
  Encrypt inBuffer VALUE_SIZE (padded_key s) (nonce s).
Proof.
  intros Hk. unfold Deobfuscate.
  rewrite InitializeCryptoState_fits by done. simpl.
  destruct (Encrypt inBuffer _ _ _) as [out| |] eqn:Hrun; simpl; [|done..].
  apply Encrypt_length in Hrun.
  rewrite memcpy_to_all by (by rewrite length_replicate). simpl.
  by rewrite <- Hrun, memcpy_from_all.
Qed.

Lemma Obfuscate_overflow s value :
  32 < length (key s) → Obfuscate s value = Undefined.
Proof.
  intros Hk. unfold Obfuscate. by rewrite InitializeCryptoState_overflow.
Qed.

Lemma Deobfuscate_overflow s inBuffer :
  32 < length (key s) → Deobfuscate s inBuffer = Undefined.
Proof.
  intros Hk. unfold Deobfuscate. by rewrite InitializeCryptoState_overflow.
Qed.

(** Encrypting and decrypting under one key and nonce undo each
    other. *)
Lemma Obfuscate_Deobfuscate s value :
  length (key s) ≤ 32 → 8 ≤ length (nonce s) → length value = VALUE_SIZE →
  ∃ c, Obfuscate s value = Ok c ∧ length c = VALUE_SIZE ∧
       Deobfuscate s c = Ok value ∧ Deobfuscate s value = Ok c.
Proof.
  intros Hk Hn Hv.
  destruct (Encrypt_keystream (padded_key s) (nonce s) VALUE_SIZE)
    as (K & HK & HE); [by rewrite length_padded_key|done|].
  exists (zip_with Z.lxor value K).
  rewrite Obfuscate_fits, !Deobfuscate_fits by done.
  assert (Hc : length (zip_with Z.lxor value K) = VALUE_SIZE)
    by (rewrite length_zip_with; lia).
  rewrite !HE by lia.
  rewrite (take_ge value), (take_ge (zip_with Z.lxor value K)) by lia.
  by rewrite zip_lxor_twice by lia.
Qed.

End SafeVarFacts.

Section ClearFacts.
Context `{ValueType}.

Lemma Clear_null env m :
  realMemory (this m) = 0%Z →
  Clear env m =
  Return () (mkMachine (cleared (this m)) (heap m) (fakeBaseAddress m)).
Proof.
  intros Hp. unfold Clear. exec_unfold.
  rewrite bool_decide_false by (by intros []).
  by unfold with_this, set_buffer, set_key, set_nonce, set_fakeMemoryAddress,
    cleared; cbn; rewrite Hp.
Qed.

Lemma Clear_release env m content :
  realMemory (this m) ≠ 0%Z →
  heap m !! realMemory (this m) = Some content →
  VALUE_SIZE ≤ length content →
  VirtualFree env = true →
  Clear env m =
  Return () (mkMachine (cleared (this m))
               (delete (realMemory (this m)) (heap m)) (fakeBaseAddress m)).
Proof.
  intros Hp Hc Hlen Hfree. unfold Clear. exec_unfold.
  rewrite bool_decide_true by done.
  unfold store, RealMemoryAllocator.FreeRealMemory, memcpy_to. exec_unfold.
  rewrite Hc, length_replicate, decide_True, Hfree by done.
  unfold with_this, with_heap, set_buffer, set_key, set_nonce,
    set_fakeMemoryAddress, set_realMemory, cleared; cbn.
  by rewrite delete_insert_eq.
Qed.

Lemma Clear_free_fails env m content :
  realMemory (this m) ≠ 0%Z →
  heap m !! realMemory (this m) = Some content →
  VALUE_SIZE ≤ length content →
  VirtualFree env = false →
  Clear env m =
  Raise MemoryFreeFailed
    (mkMachine (this m)
       (<[realMemory (this m) :=
            replicate VALUE_SIZE 0%Z ++ drop VALUE_SIZE content]> (heap m))
       (fakeBaseAddress m)).
Proof.
  intros Hp Hc Hlen Hfree. unfold Clear. exec_unfold.
  rewrite bool_decide_true by done.
  unfold store, RealMemoryAllocator.FreeRealMemory, memcpy_to. exec_unfold.
  rewrite Hc, length_replicate, decide_True, Hfree by done.
  done.
Qed.

Lemma Clear_dangling env m :
  realMemory (this m) ≠ 0%Z →
  heap m !! realMemory (this m) = None →
  Clear env m = Fault.
Proof.
  intros Hp Hc. unfold Clear. exec_unfold.
  rewrite bool_decide_true by done.
  unfold store. by rewrite Hc.
Qed.

Lemma Clear_short env m content :
  realMemory (this m) ≠ 0%Z →
  heap m !! realMemory (this m) = Some content →
  length content < VALUE_SIZE →
  Clear env m = Fault.
Proof.
  intros Hp Hc Hlen. unfold Clear. exec_unfold.
  rewrite bool_decide_true by done.
  unfold store, memcpy_to.
  by rewrite Hc, length_replicate, decide_False by lia.
Qed.

(** Whenever [Clear] returns, the object is [cleared], the fake
    allocator is as before and the heap has lost the block of the
    container, if it had one. *)
Lemma Clear_Return env m m1 :
  Clear env m = Return () m1 →
  m1 = mkMachine (cleared (this m))
         (if decide (realMemory (this m) = 0%Z) then heap m
          else delete (realMemory (this m)) (heap m))
         (fakeBaseAddress m).
Proof.
  intros Hrun. destruct (decide (realMemory (this m) = 0%Z)) as [Hp|Hp].
  - rewrite Clear_null in Hrun by done. by injection Hrun as <-.
  - destruct (heap m !! realMemory (this m)) as [content|] eqn:Hc;
      [|by rewrite Clear_dangling in Hrun].
    destruct (decide (VALUE_SIZE ≤ length content)) as [Hlen|Hlen];
      [|by rewrite (Clear_short _ _ content) in Hrun by (done || lia)].
    destruct (VirtualFree env) eqn:Hfree.
    + rewrite (Clear_release _ _ content) in Hrun by done.
      by injection Hrun as <-.
    + by rewrite (Clear_free_fails _ _ content) in Hrun.
Qed.

(** [Clear] throws only when the release fails, and then the object
    is untouched. *)
Lemma Clear_Raise env m e m1 :
  Clear env m = Raise e m1 →
  e = MemoryFreeFailed ∧ this m1 = this m ∧
  fakeBaseAddress m1 = fakeBaseAddress m ∧
  realMemory (this m) ≠ 0%Z ∧
  ∃ content, heap m !! realMemory (this m) = Some content ∧
    VALUE_SIZE ≤ length content ∧
    heap m1 = <[realMemory (this m) :=
                  replicate VALUE_SIZE 0%Z ++ drop VALUE_SIZE content]>
                (heap m).
Proof.
  intros Hrun. destruct (decide (realMemory (this m) = 0%Z)) as [Hp|Hp].
  - by rewrite Clear_null in Hrun.
  - destruct (heap m !! realMemory (this m)) as [content|] eqn:Hc;
      [|by rewrite Clear_dangling in Hrun].
    destruct (decide (VALUE_SIZE ≤ length content)) as [Hlen|Hlen];
      [|by rewrite (Clear_short _ _ content) in Hrun by (done || lia)].
    destruct (VirtualFree env) eqn:Hfree.
    + by rewrite (Clear_release _ _ content) in Hrun.
    + rewrite (Clear_free_fails _ _ content) in Hrun by done.
      injection Hrun as <- <-. eauto 10.
Qed.

End ClearFacts.

Section SetFacts.
Context `{ValueType}.
Import ChaCha20 CipherFacts EncryptFacts.

Lemma keyed_key env c s : key (keyed env c s) = GenerateKey env.
Proof. done. Qed.

Lemma padded_key_keyed env c s :
  padded_key (keyed env c s) =
  GenerateKey env ++ replicate (32 - VALUE_SIZE) 0%Z.
Proof. unfold padded_key. cbn. by rewrite length_GenerateKey. Qed.

Lemma padded_key_established env c a :
  padded_key (established env c a) =
  GenerateKey env ++ replicate (32 - VALUE_SIZE) 0%Z.
Proof. unfold padded_key. cbn. by rewrite length_GenerateKey. Qed.

(** [Set] starts with [Clear]; what [Clear] throws, [Set] throws. *)
Lemma Set_Clear_Raise env value m e m1 :
  Clear env m = Raise e m1 → Set_ env value m = Raise e m1.
Proof. intros Hc. unfold Set_. exec_unfold. by rewrite Hc. Qed.

Lemma Set_Clear_Fault env value m :
  Clear env m = Fault → Set_ env value m = Fault.
Proof. intros Hc. unfold Set_. exec_unfold. by rewrite Hc. Qed.

(** The two cipher paths of the container read the key and the nonce
    of the object and nothing else. *)
Lemma Obfuscate_ext s s' value :
  key s = key s' → nonce s = nonce s' →
  Obfuscate s value = Obfuscate s' value.
Proof.
  intros Hk Hn. unfold Obfuscate, InitializeCryptoState. by rewrite Hk, Hn.
Qed.

Lemma Deobfuscate_ext s s' inBuffer :
  key s = key s' → nonce s = nonce s' →
  Deobfuscate s inBuffer = Deobfuscate s' inBuffer.
Proof.
  intros Hk Hn. unfold Deobfuscate, InitializeCryptoState. by rewrite Hk, Hn.
Qed.

(** The ciphertext [Set] computes with the answers [env] and the
    value, when the key fits the 32-byte buffer. *)
Lemma Set_ciphertext env value :
  VALUE_SIZE ≤ 32 → length value = VALUE_SIZE →
  ∃ c, length c = VALUE_SIZE ∧
    ∀ b s, Obfuscate (keyed env b s) value = Ok c ∧
           Deobfuscate (keyed env b s) c = Ok value.
Proof.
  intros Hsz Hv.
  set (s0 := keyed env [] (mkSafeVar [] [] 0 0 [] 0 false)).
  destruct (Obfuscate_Deobfuscate s0 value) as (c & Hob & Hc & Hde & _);
    [by cbn; rewrite length_GenerateKey
    |by cbn; rewrite length_GenerateNonce; cbn; lia|done|].
  exists c. split; [done|]. intros b s.
  by rewrite (Obfuscate_ext _ s0), (Deobfuscate_ext _ s0).
Qed.

Lemma Set_returns env value m m1 :
  Clear env m = Return () m1 →
  VALUE_SIZE ≤ 32 → length value = VALUE_SIZE → VirtualAlloc env ≠ 0%Z →
  ∃ c, length c = VALUE_SIZE ∧
    Obfuscate (keyed env c (this m)) value = Ok c ∧
    Set_ env value m =
    Return value
      (mkMachine (established env c (fakeBaseAddress m))
         (<[VirtualAlloc env := c]> (heap m1))
         (wrapptr (fakeBaseAddress m
                   + wrapptr (Z.of_nat VALUE_SIZE + 0x10)))).
Proof.
  intros Hclear Hsz Hv Halloc.
  destruct (Set_ciphertext env value Hsz Hv) as (c & Hc & Hob).
  exists c. split; [done|]. split; [apply Hob|].
  pose proof (Clear_Return _ _ _ Hclear) as ->.
  unfold Set_. exec_unfold. rewrite Hclear.
  unfold with_this, set_key, set_nonce; cbn.
  rewrite (Obfuscate_ext _ (keyed env c (this m))) by done.
  rewrite (proj1 (Hob c (this m))).
  unfold RealMemoryAllocator.AllocateRealMemory. exec_unfold.
  rewrite decide_False by done. rewrite bool_decide_false by done.
  unfold with_this, with_heap, set_buffer, set_realMemory; cbn.
  rewrite <- Hc at 1. rewrite memcpy_from_all.
  unfold store, with_heap; cbn. rewrite lookup_insert_eq.
  rewrite memcpy_to_all by (by rewrite length_replicate).
  rewrite ComputeChecksumFNV_fold, firstn_all by done.
  unfold FakeMemoryAllocator.AllocateFakeMemory. exec_unfold.
  unfold with_this, set_lastChecksum, set_fakeMemoryAddress, set_isValid,
    established; cbn.
  by rewrite insert_insert_eq.
Qed.

End SetFacts.

Section SetCases.
Context `{ValueType}.
Import ChaCha20 CipherFacts EncryptFacts.

Lemma Set_alloc_fails env value m m1 :
  Clear env m = Return () m1 →
  VALUE_SIZE ≤ 32 → length value = VALUE_SIZE → VirtualAlloc env = 0%Z →
  ∃ c, length c = VALUE_SIZE ∧
    Obfuscate (keyed env c (this m)) value = Ok c ∧
    Set_ env value m =
    Raise MemoryAllocationFailed
      (mkMachine (keyed env c (this m)) (heap m1) (fakeBaseAddress m)).
Proof.
  intros Hclear Hsz Hv Halloc.
  destruct (Set_ciphertext env value Hsz Hv) as (c & Hc & Hob).
  exists c. split; [done|]. split; [apply Hob|].
  pose proof (Clear_Return _ _ _ Hclear) as ->.
  unfold Set_. exec_unfold. rewrite Hclear.
  unfold with_this, set_key, set_nonce; cbn.
  rewrite (Obfuscate_ext _ (keyed env c (this m))) by done.
  rewrite (proj1 (Hob c (this m))).
  unfold RealMemoryAllocator.AllocateRealMemory. exec_unfold.
  by rewrite decide_True by done.
Qed.

(** A type of more than 32 bytes: the copy of the key into the
    32-byte buffer leaves the buffer, and [Set] has no defined
    result once [Clear] has returned. *)
Lemma Set_oversized env value m m1 :
  Clear env m = Return () m1 → 32 < VALUE_SIZE →
  Set_ env value m = Fault.
Proof.
  intros Hclear Hsz. unfold Set_. exec_unfold. rewrite Hclear.
  unfold with_this; cbn.
  by rewrite Obfuscate_overflow by (cbn; rewrite length_GenerateKey; lia).
Qed.

Lemma Set_Return_inv env value m v m' :
  length value = VALUE_SIZE → Set_ env value m = Return v m' →
  ∃ m1 c, Clear env m = Return () m1 ∧ VALUE_SIZE ≤ 32 ∧
    VirtualAlloc env ≠ 0%Z ∧ length c = VALUE_SIZE ∧
    Obfuscate (keyed env c (this m)) value = Ok c ∧ v = value ∧
    m' = mkMachine (established env c (fakeBaseAddress m))
           (<[VirtualAlloc env := c]> (heap m1))
           (wrapptr (fakeBaseAddress m
                     + wrapptr (Z.of_nat VALUE_SIZE + 0x10))).
Proof.
  intros Hv Hrun.
  destruct (Clear env m) as [[] m1|e m1|] eqn:Hclear;
    [|by rewrite (Set_Clear_Raise _ _ _ _ _ Hclear) in Hrun
     |by rewrite (Set_Clear_Fault _ _ _ Hclear) in Hrun].
  destruct (decide (VALUE_SIZE ≤ 32)) as [Hsz|Hsz];
    [|by rewrite (Set_oversized _ _ _ _ Hclear) in Hrun by lia].
  destruct (decide (VirtualAlloc env = 0%Z)) as [Ha|Ha].
  - destruct (Set_alloc_fails _ _ _ _ Hclear Hsz Hv Ha) as (c & _ & _ & Hs).
    by rewrite Hs in Hrun.
  - destruct (Set_returns _ _ _ _ Hclear Hsz Hv Ha) as (c & Hc & Hob & Hs).
    rewrite Hs in Hrun. injection Hrun as <- <-. eauto 12.
Qed.

Lemma Set_Raise_inv env value m e m' :
  length value = VALUE_SIZE → Set_ env value m = Raise e m' →
  Clear env m = Raise e m' ∨
  ∃ m1 c, Clear env m = Return () m1 ∧ VALUE_SIZE ≤ 32 ∧
    VirtualAlloc env = 0%Z ∧ e = MemoryAllocationFailed ∧
    length c = VALUE_SIZE ∧
    Obfuscate (keyed env c (this m)) value = Ok c ∧
    m' = mkMachine (keyed env c (this m)) (heap m1) (fakeBaseAddress m).
Proof.
  intros Hv Hrun.
  destruct (Clear env m) as [[] m1|e1 m1|] eqn:Hclear;
    [|rewrite (Set_Clear_Raise _ _ _ _ _ Hclear) in Hrun; left; congruence
     |by rewrite (Set_Clear_Fault _ _ _ Hclear) in Hrun].
  right.
  destruct (decide (VALUE_SIZE ≤ 32)) as [Hsz|Hsz];
    [|by rewrite (Set_oversized _ _ _ _ Hclear) in Hrun by lia].
  destruct (decide (VirtualAlloc env = 0%Z)) as [Ha|Ha].
  - destruct (Set_alloc_fails _ _ _ _ Hclear Hsz Hv Ha) as (c & Hc & Hob & Hs).
    rewrite Hs in Hrun. injection Hrun as <- <-. eauto 12.
  - destruct (Set_returns _ _ _ _ Hclear Hsz Hv Ha) as (c & _ & _ & Hs).
    by rewrite Hs in Hrun.
Qed.

End SetCases.

Section GetFacts.
Context `{ValueType}.
Import ChaCha20 CipherFacts EncryptFacts.

Lemma Get_null s h encrypted :
  realMemory s = 0%Z → Get s h encrypted = Throw InvalidMemoryState.
Proof. intros Hp. unfold Get. by rewrite bool_decide_true. Qed.

Lemma Get_not_valid s h encrypted :
  realMemory s ≠ 0%Z → isValid s = false →
  Get s h encrypted = Throw MemoryValidationFailed.
Proof.
  intros Hp Hv. unfold Get, ValidateMemory.
  by rewrite bool_decide_false, Hv by done.
Qed.

Lemma load_mapped (h : gmap Z (list Z)) p content n :
  h !! p = Some content → n ≤ length content →
  load h p n = Ok (take n content).
Proof.
  intros Hc Hn. unfold load, memcpy_from. by rewrite Hc, decide_True.
Qed.

Lemma ValidateMemory_mapped s h content :
  realMemory s ≠ 0%Z → isValid s = true →
  h !! realMemory s = Some content → VALUE_SIZE ≤ length content →
  ValidateMemory s h = Ok (bool_decide (take VALUE_SIZE content = buffer s)).
Proof.
  intros Hp Hv Hc Hlen. unfold ValidateMemory.
  rewrite bool_decide_false, Hv by done. simpl.
  by rewrite (load_mapped _ _ content).
Qed.

Lemma Get_mismatch s h content encrypted :
  realMemory s ≠ 0%Z → isValid s = true →
  h !! realMemory s = Some content → VALUE_SIZE ≤ length content →
  take VALUE_SIZE content ≠ buffer s →
  Get s h encrypted = Throw MemoryValidationFailed.
Proof.
  intros Hp Hv Hc Hlen Hne. unfold Get.
  rewrite bool_decide_false, (ValidateMemory_mapped _ _ content) by done.
  simpl. by rewrite bool_decide_false by done.
Qed.

Lemma Get_match s h content encrypted :
  realMemory s ≠ 0%Z → isValid s = true →
  h !! realMemory s = Some content → VALUE_SIZE ≤ length content →
  take VALUE_SIZE content = buffer s →
  Get s h encrypted =
  if encrypted then Ok (buffer s)
  else
    decrypted ← Deobfuscate s (buffer s);
    verify ← Obfuscate s decrypted;
    if bool_decide (verify ≠ buffer s)
    then Throw DecryptionVerificationFailed
    else Ok decrypted.
Proof.
  intros Hp Hv Hc Hlen Heq. unfold Get.
  rewrite bool_decide_false, (ValidateMemory_mapped _ _ content) by done.
  simpl. rewrite bool_decide_true by done. simpl.
  destruct encrypted; [|done].
  assert (length (buffer s) = VALUE_SIZE) as Hb
    by (rewrite <- Heq, length_take; lia).
  by rewrite <- Hb, memcpy_from_all.
Qed.

Lemma Deobfuscate_length s inBuffer d :
  Deobfuscate s inBuffer = Ok d → length d = VALUE_SIZE.
Proof.
  unfold Deobfuscate, memcpy_from.
  destruct (InitializeCryptoState s); simpl; [|done..].
  destruct (Encrypt _ _ _ _); simpl; [|done..].
  destruct (memcpy_to _ _); simpl; [|done..].
  case_decide; [|done]. intros [= <-]. rewrite length_take. lia.
Qed.

Lemma Get_length s h encrypted v :
  Get s h encrypted = Ok v → length v = VALUE_SIZE.
Proof.
  unfold Get. case_bool_decide; [done|].
  destruct (ValidateMemory s h) as [[]| |]; simpl; [|done..].
  destruct encrypted.
  - unfold memcpy_from. case_decide; [|done]. intros [= <-].
    rewrite length_take. lia.
  - destruct (Deobfuscate s (buffer s)) as [d| |] eqn:Hd; simpl; [|done..].
    destruct (Obfuscate s d); simpl; [|done..].
    case_bool_decide; [done|]. intros [= <-].
    by eapply Deobfuscate_length.
Qed.


End GetFacts.

Section SerializeFacts.
Context `{ValueType}.
Import ChaCha20 CipherFacts EncryptFacts.

Lemma memcpy_from_no_throw src n e : memcpy_from src n ≠ Throw e.
Proof. unfold memcpy_from. by case_decide. Qed.

Lemma xor_block_no_throw input keystream bytesProcessed n output e :
  xor_block input keystream bytesProcessed n output ≠ Throw e.
Proof.
  revert e. induction n as [|n IH]; intros e; [done|].
  unfold xor_block. rewrite for_upto_S.
  fold (xor_block input keystream bytesProcessed n output).
  destruct (xor_block _ _ _ n _) as [out|e'|] eqn:E; simpl;
    [|by destruct (IH e')|done].
  unfold read. destruct (input !! _); simpl; [|done].
  by destruct (keystream !! _).
Qed.

Lemma Encrypt_loop_no_throw state counter input len bytesProcessed output e :
  Encrypt_loop state counter input len bytesProcessed output ≠ Throw e.
Proof.
  remember (len - bytesProcessed) as d eqn:Hd.
  revert state counter bytesProcessed output Hd.
  induction d as [d IH] using lt_wf_ind.
  intros state counter bp output Hd.
  rewrite Encrypt_loop_unfold. case_decide; [|done].
  destruct (blockSize_bounds len bp ltac:(lia)) as [Hbs Hbs'].
  destruct (xor_block _ _ _ _ _) as [out|e'|] eqn:E; simpl;
    [|by apply xor_block_no_throw in E|done].
  eapply (IH (len - (bp + blockSize len bp))); [lia|done].
Qed.

Lemma init_state_no_throw key nonce e : init_state key nonce ≠ Throw e.
Proof.
  unfold init_state.
  destruct (for_upto 8 _ _) as [st|e'|] eqn:E; simpl;
    [|by apply key_words_no_throw in E|done].
  destruct (LoadLE32 nonce 0) as [w|e'|] eqn:E14; simpl;
    [|by apply LoadLE32_no_throw in E14|done].
  destruct (LoadLE32 nonce 4) as [w'|e'|] eqn:E15; simpl;
    [done|by apply LoadLE32_no_throw in E15|done].
Qed.

(** The cipher has no [throw]. *)
Lemma Encrypt_no_throw input len key nonce e :
  Encrypt input len key nonce ≠ Throw e.
Proof.
  unfold Encrypt.
  destruct (init_state key nonce) as [st|e'|] eqn:E; simpl;
    [|by apply init_state_no_throw in E|done].
  apply Encrypt_loop_no_throw.
Qed.

(** [Serialize] hands the [sizeof(T)]-byte key member to the cipher,
    which reads 32 bytes of it. *)
Lemma Serialize_short_key s :
  length (key s) < 32 → Serialize s = Undefined.
Proof.
  intros Hk. unfold Serialize.
  destruct (memcpy_from (nonce s) 12) as [n|e|] eqn:Hn; simpl;
    [|by apply memcpy_from_no_throw in Hn|done].
  destruct (memcpy_from (key s) VALUE_SIZE) as [k|e|] eqn:Hk'; simpl;
    [|by apply memcpy_from_no_throw in Hk'|done].
  unfold Encrypt. by rewrite init_state_short_key.
Qed.

Lemma Serialize_defined s :
  32 ≤ VALUE_SIZE → length (key s) = VALUE_SIZE → length (nonce s) = 12 →
  length (buffer s) = VALUE_SIZE →
  ∃ encrypted, length encrypted = VALUE_SIZE ∧
    Encrypt (buffer s) VALUE_SIZE (key s) (nonce s) = Ok encrypted ∧
    Encrypt encrypted VALUE_SIZE (key s) (nonce s) = Ok (buffer s) ∧
    Serialize s = Ok (nonce s ++ key s ++ encrypted).
Proof.
  intros Hsz Hk Hn Hb.
  destruct (Encrypt_keystream (key s) (nonce s) VALUE_SIZE)
    as (K & HK & HE); [lia..|].
  exists (zip_with Z.lxor (buffer s) K).
  assert (Hc : length (zip_with Z.lxor (buffer s) K) = VALUE_SIZE)
    by (rewrite length_zip_with; lia).
  rewrite !HE by lia.
  rewrite (take_ge (buffer s)), (take_ge (zip_with _ _ _)) by lia.
  rewrite zip_lxor_twice by lia.
  repeat split; [done|].
  unfold Serialize.
  rewrite <- Hn at 1. rewrite memcpy_from_all. simpl.
  rewrite <- Hk at 1. rewrite memcpy_from_all. simpl.
  rewrite HE, (take_ge (buffer s)) by lia. done.
Qed.

Lemma Deserialize_wrong_length data len m :
  len ≠ VALUE_SIZE + 12 + VALUE_SIZE →
  Deserialize data len m = Return false m.
Proof. intros Hlen. unfold Deserialize. by rewrite bool_decide_true. Qed.

(** [Deserialize] too hands the [sizeof(T)]-byte key member to the
    cipher. *)
Lemma Deserialize_short_key data m :
  VALUE_SIZE < 32 →
  Deserialize data (VALUE_SIZE + 12 + VALUE_SIZE) m = Fault.
Proof.
  intros Hsz. unfold Deserialize. rewrite bool_decide_false by (by intros []).
  exec_unfold. unfold memcpy_from.
  case_decide; [|done].
  unfold with_this; cbn. case_decide; [|done]. cbn.
  case_decide; [|done]. cbn.
  unfold Encrypt.
  by rewrite init_state_short_key by (rewrite length_take; lia).
Qed.

Lemma Deserialize_accepts data m :
  32 ≤ VALUE_SIZE → VALUE_SIZE + 12 + VALUE_SIZE ≤ length data →
  ∃ out, length out = VALUE_SIZE ∧
    Encrypt (take VALUE_SIZE (drop (12 + VALUE_SIZE) data)) VALUE_SIZE
      (take VALUE_SIZE (drop 12 data)) (take 12 data) = Ok out ∧
    Deserialize data (VALUE_SIZE + 12 + VALUE_SIZE) m =
    Return true
      (with_this
         (fun s => set_buffer out
                     (set_key (take VALUE_SIZE (drop 12 data))
                        (set_nonce (take 12 data) s))) m).
Proof.
  intros Hsz Hlen.
  destruct (Encrypt_keystream (take VALUE_SIZE (drop 12 data))
              (take 12 data) VALUE_SIZE) as (K & HK & HE);
    [rewrite length_take, length_drop; lia|rewrite length_take; lia|].
  eexists. rewrite HE by (rewrite length_take, length_drop; lia).
  split; [|split; [done|]].
  { rewrite length_zip_with, !length_take, length_drop. lia. }
  unfold Deserialize. rewrite bool_decide_false by (by intros []).
  exec_unfold. unfold memcpy_from.
  rewrite decide_True by lia. unfold with_this; cbn.
  rewrite decide_True by (rewrite length_drop; lia). cbn.
  rewrite decide_True by (rewrite length_drop; lia). cbn.
  by rewrite HE by (rewrite length_take, length_drop; lia).
Qed.

Lemma Deserialize_no_raise data len m e m' :
  Deserialize data len m ≠ Raise e m'.
Proof.
  unfold Deserialize. case_bool_decide; [done|].
  exec_unfold. unfold memcpy_from.
  case_decide; [|done]. unfold with_this; cbn.
  case_decide; [|done]. cbn. case_decide; [|done]. cbn.
  destruct (Encrypt _ _ _ _) as [out|e'|] eqn:HE; [done| |done].
  by apply Encrypt_no_throw in HE.
Qed.

(** What a returning [Deserialize] can have changed: nothing, or the
    three arrays, which keep their sizes. *)
Lemma Deserialize_Return_inv data len m b m' :
  Deserialize data len m = Return b m' →
  (b = false ∧ m' = m) ∨
  (b = true ∧ len = VALUE_SIZE + 12 + VALUE_SIZE ∧
   heap m' = heap m ∧ fakeBaseAddress m' = fakeBaseAddress m ∧
   realMemory (this m') = realMemory (this m) ∧
   fakeMemoryAddress (this m') = fakeMemoryAddress (this m) ∧
   lastChecksum (this m') = lastChecksum (this m) ∧
   isValid (this m') = isValid (this m) ∧
   length (buffer (this m')) = VALUE_SIZE ∧
   length (key (this m')) = VALUE_SIZE ∧
   length (nonce (this m')) = 12).
Proof.
  unfold Deserialize. case_bool_decide as Hlen.
  { intros [= <- <-]. by left. }
  exec_unfold. unfold memcpy_from.
  case_decide; [|done]. unfold with_this; cbn.
  case_decide; [|done]. cbn. case_decide; [|done]. cbn.
  destruct (Encrypt _ _ _ _) as [out|e'|] eqn:HE; [|done..].
  intros [= <- <-]. right. cbn.
  apply Encrypt_length in HE.
  rewrite length_drop in *.
  rewrite !length_take, !length_drop. repeat split; try done; lia.
Qed.

End SerializeFacts.

Ltac solve_const Hr :=
  first [discriminate Hr | injection Hr; intros; subst; done].

Section Reachability.
Context `{ValueType}.
Import ChaCha20 CipherFacts EncryptFacts.

Lemma lift_Return {A} (o : outcome A) m a m' :
  lift o m = Return a m' → o = Ok a ∧ m' = m.
Proof. destruct o; unfold lift; [|done..]. by intros [= <- <-]. Qed.

Lemma lift_Raise {A} (o : outcome A) m e m' :
  lift o m = Raise e m' → o = Throw e ∧ m' = m.
Proof. destruct o; unfold lift; [done| |done]. by intros [= <- <-]. Qed.

Lemma well_formed_established env c a h f :
  length c = VALUE_SIZE → VirtualAlloc env ≠ 0%Z →
  well_formed (mkMachine (established env c a) (<[VirtualAlloc env := c]> h) f).
Proof.
  intros Hc Ha. unfold well_formed; cbn.
  rewrite length_GenerateKey, length_GenerateNonce.
  split; [done|]. split; [done|]. split; [done|]. intros _.
  split; [done|].
  exists c. by rewrite lookup_insert_eq.
Qed.

Lemma well_formed_keyed env c s h f :
  length c = VALUE_SIZE → well_formed (mkMachine (keyed env c s) h f).
Proof.
  intros Hc. unfold well_formed; cbn.
  by rewrite length_GenerateKey, length_GenerateNonce.
Qed.

Lemma well_formed_cleared s h f :
  well_formed (mkMachine (cleared s) h f).
Proof. unfold well_formed; cbn. by rewrite !length_replicate. Qed.

Lemma well_formed_Clear_Raise env m e m' :
  well_formed m → Clear env m = Raise e m' → well_formed m'.
Proof.
  intros (Hb & Hk & Hn & Hp) Hrun.
  destruct (Clear_Raise _ _ _ _ Hrun)
    as (_ & Hthis & _ & Hnz & content & Hc & Hlen & Hheap).
  unfold well_formed. rewrite Hthis, Hheap.
  split; [done|]. split; [done|]. split; [done|]. intros _.
  destruct (Hp Hnz) as (Hv & content' & Hc' & Hlen').
  split; [done|].
  eexists. rewrite lookup_insert_eq. split; [done|].
  rewrite length_app, length_replicate, length_drop.
  rewrite Hc in Hc'. injection Hc' as ->. lia.
Qed.

Lemma well_formed_Set env value m v m' :
  length value = VALUE_SIZE → Set_ env value m = Return v m' →
  well_formed m'.
Proof.
  intros Hv Hrun.
  destruct (Set_Return_inv _ _ _ _ _ Hv Hrun)
    as (m1 & c & _ & _ & Ha & Hc & _ & _ & ->).
  by apply well_formed_established.
Qed.

Lemma well_formed_Set_Raise env value m e m' :
  well_formed m → length value = VALUE_SIZE →
  Set_ env value m = Raise e m' → well_formed m'.
Proof.
  intros Hwf Hv Hrun.
  destruct (Set_Raise_inv _ _ _ _ _ Hv Hrun)
    as [Hclear|(m1 & c & _ & _ & _ & _ & Hc & _ & ->)].
  - by eapply well_formed_Clear_Raise.
  - by apply well_formed_keyed.
Qed.

(** Every call leaves a well-formed machine well formed, whether it
    returns or throws. *)
Lemma well_formed_run c m m' :
  well_formed m → well_typed c →
  (run c m = Return () m' ∨ ∃ e, run c m = Raise e m') →
  well_formed m'.
Proof.
  intros Hwf Hty Hrun. destruct c as [enc|env value|env| |data len|env]; cbn in *.
  - (* Get *)
    revert Hrun. exec_unfold. unfold id.
    destruct (Get (this m) (heap m) enc); cbn;
      intros [Hr|[e' Hr]]; solve_const Hr.
  - (* Set *)
    revert Hrun. exec_unfold.
    destruct (Set_ env value m) as [v m1|e m1|] eqn:Hs;
      intros [Hr|[e' Hr]]; try done.
    + injection Hr as <-. by eapply well_formed_Set.
    + injection Hr as _ <-. by eapply well_formed_Set_Raise.
  - (* ReKey *)
    revert Hrun. unfold ReKey. exec_unfold. unfold id.
    destruct (Get (this m) (heap m) false) as [current|e0|] eqn:Hg; cbn.
    + apply Get_length in Hg.
      destruct (Set_ env current m) as [v m1|e m1|] eqn:Hs;
        intros [Hr|[e' Hr]]; try done.
      * injection Hr as <-. by eapply well_formed_Set.
      * injection Hr as _ <-. by eapply well_formed_Set_Raise.
    + intros [Hr|[e' Hr]]; solve_const Hr.
    + intros [Hr|[e' Hr]]; solve_const Hr.
  - (* Serialize *)
    revert Hrun. exec_unfold.
    destruct (Serialize (this m)); cbn;
      intros [Hr|[e' Hr]]; solve_const Hr.
  - (* Deserialize *)
    revert Hrun. exec_unfold.
    destruct (Deserialize data len m) as [b m1|e m1|] eqn:Hd;
      intros [Hr|[e' Hr]]; try done.
    + injection Hr as <-.
      destruct (Deserialize_Return_inv _ _ _ _ _ Hd)
        as [[_ ->]|(_ & _ & Hh & _ & Hp & _ & _ & Hv & Hb & Hk & Hn)];
        [done|].
      destruct Hwf as (_ & _ & _ & Hreal).
      unfold well_formed. rewrite Hh, Hp, Hv.
      split; [done|]. split; [done|]. by split.
    + by apply Deserialize_no_raise in Hd.
  - (* Clear *)
    destruct Hrun as [Hr|[e Hr]].
    + rewrite (Clear_Return _ _ _ Hr). apply well_formed_cleared.
    + by eapply well_formed_Clear_Raise.
Qed.

Lemma well_formed_tamper bytes m :
  well_formed m → length bytes = VALUE_SIZE → well_formed (tamper bytes m).
Proof.
  intros (Hb & Hk & Hn & Hp) Hlen. unfold well_formed, tamper; cbn.
  split; [done|]. split; [done|]. split; [done|]. intros Hnz.
  split; [by apply Hp|].
  exists bytes. by rewrite lookup_insert_eq.
Qed.

Lemma reachable_well_formed m : reachable m → well_formed m.
Proof.
  induction 1 as [b k n h f env value m Hv Hrun|c m m' _ IH Hty Hrun
                 |c m e m' _ IH Hty Hrun|bytes m _ IH Hp Hlen].
  - revert Hrun. unfold construct. exec_unfold.
    destruct (Set_ env value _) as [v m1|e m1|] eqn:Hs; [|done..].
    intros [= <-]. by eapply well_formed_Set.
  - eapply well_formed_run; eauto.
  - eapply well_formed_run; eauto.
  - by apply well_formed_tamper.
Qed.

Lemma reachable_untampered_reachable m :
  reachable_untampered m → reachable m.
Proof.
  induction 1; [by eapply reach_construct|by eapply reach_return
               |by eapply reach_raise].
Qed.

(** On a well-formed machine [Get] is [Get_specified]. *)
Lemma Get_well_formed m rawMode :
  well_formed m → Get (this m) (heap m) rawMode = Get_specified m rawMode.
Proof.
  intros (Hb & Hk & Hn & Hp). unfold Get_specified, real_allocation.
  case_decide as Hnull; [by apply Get_null|].
  destruct (Hp Hnull) as (Hv & content & Hc & Hlen). rewrite Hc.
  case_bool_decide as Hne.
  - apply (Get_mismatch _ _ content); try done; [lia|].
    by rewrite take_ge by lia.
  - rewrite (Get_match _ _ content); try done; [lia|].
    by rewrite take_ge by lia.
Qed.

End Reachability.

(** * The claims *)

Section Claims.
Import ChaCha20 CipherFacts EncryptFacts.

(** C2. Cipher involution: for every 32-byte key, every 12-byte nonce
    and every buffer [b] of any length, [Encrypt] returns a ciphertext
    [c], and [Encrypt] applied to [c] under the same key and nonce
    returns [b]. *)
Theorem Encrypt_involution (key nonce b : list Z) :
  length key = 32 → length nonce = 12 →
  ∃ c, Encrypt b (length b) key nonce = Ok c ∧
       Encrypt c (length c) key nonce = Ok b.
Proof.
  intros Hk Hn.
  destruct (Encrypt_keystream key nonce (length b)) as (K & HK & HE);
    [lia..|].
  exists (zip_with Z.lxor b K).
  assert (Hc : length (zip_with Z.lxor b K) = length b)
    by (rewrite length_zip_with; lia).
  rewrite Hc, !HE by lia.
  rewrite firstn_all, <- Hc, firstn_all.
  by rewrite zip_lxor_twice by lia.
Qed.

Lemma Encrypt_involution_witness :
  ∃ c, Encrypt [1; 2; 3]%Z 3 (replicate 32 7%Z) (replicate 12 9%Z) = Ok c ∧
       Encrypt c (length c) (replicate 32 7%Z) (replicate 12 9%Z)
       = Ok [1; 2; 3]%Z.
Proof.
  exact (Encrypt_involution (replicate 32 7%Z) (replicate 12 9%Z)
           [1; 2; 3]%Z eq_refl eq_refl).
Defined.

(** C10. The last four bytes of the nonce do not reach the cipher: for
    every key, input and length, two 12-byte nonces that agree on
    bytes 0 to 7 give the same outcome of [Encrypt]. *)
Theorem Encrypt_ignores_nonce_tail (key input nonce1 nonce2 : list Z)
    (len : nat) :
  length nonce1 = 12 → length nonce2 = 12 →
  take 8 nonce1 = take 8 nonce2 →
  Encrypt input len key nonce1 = Encrypt input len key nonce2.
Proof.
  intros _ _ Hpre. unfold Encrypt.
  by rewrite <- (init_state_nonce_prefix key nonce1), Hpre,
    init_state_nonce_prefix.
Qed.

Lemma Encrypt_ignores_nonce_tail_witness :
  Encrypt [1; 2; 3]%Z 3 (replicate 32 7%Z)
    [1; 2; 3; 4; 5; 6; 7; 8; 9; 10; 11; 12]%Z =
  Encrypt [1; 2; 3]%Z 3 (replicate 32 7%Z)
    [1; 2; 3; 4; 5; 6; 7; 8; 255; 254; 253; 252]%Z.
Proof.
  exact (Encrypt_ignores_nonce_tail (replicate 32 7%Z) [1; 2; 3]%Z
           [1; 2; 3; 4; 5; 6; 7; 8; 9; 10; 11; 12]%Z
           [1; 2; 3; 4; 5; 6; 7; 8; 255; 254; 253; 252]%Z 3
           eq_refl eq_refl eq_refl).
Defined.

End Claims.

Section ContainerClaims.
Import ChaCha20 CipherFacts EncryptFacts.

Lemma secret_42_constructed :
  construct (H := int32_t) os_grants forty_two (fresh_process (H := int32_t))
  = Return () secret_42.
Proof. vm_compute. reflexivity. Qed.

Lemma secret_42_reachable : reachable (H := int32_t) secret_42.
Proof.
  eapply (reach_construct (H := int32_t)); [|apply secret_42_constructed].
  reflexivity.
Qed.

Lemma holder_32_constructed :
  construct (H := bytes32) os_grants value_32 (fresh_process (H := bytes32))
  = Return () holder_32.
Proof. vm_compute. reflexivity. Qed.

Lemma holder_64_constructed :
  construct (H := uint64_t) os_grants preimage_1
    (fresh_process (H := uint64_t))
  = Return () holder_64.
Proof. vm_compute. reflexivity. Qed.

(** [Get] and the specification agree on every state reached through
    the constructor, the member functions of [call] and outside writes:
    there a non-null pointer always has its block behind it. *)
Lemma Get_specified_on_reachable `{ValueType} (m : Machine) (rawMode : bool) :
  reachable m → Get (this m) (heap m) rawMode = Get_specified m rawMode.
Proof. intros Hm. by apply Get_well_formed, reachable_well_formed. Qed.

(** C4. The mirror invariant, broken without any outside write: a
    container of a 32-byte type is constructed and then handed a wire
    image of the right length.  [Deserialize] rewrites the ciphertext,
    leaves the real allocation and the validity flag as they were, and
    the two differ. *)
Theorem mirror_invariant_broken_by_Deserialize :
  reachable_untampered (H := bytes32) holder_32_loaded ∧
  isValid (this holder_32_loaded) = true ∧
  ∃ content, real_allocation holder_32_loaded = Some content ∧
             content ≠ buffer (this holder_32_loaded).
Proof.
  split; [|split].
  - eapply (reachu_return (H := bytes32) (CallDeserialize foreign_image 76)).
    + eapply (reachu_construct (H := bytes32));
        [|apply holder_32_constructed]. reflexivity.
    + exact I.
    + vm_compute. reflexivity.
  - vm_compute. reflexivity.
  - eexists. split; [vm_compute; reflexivity|]. vm_compute. discriminate.
Qed.

(** C5. Allocation failure during [Set]: on a valid container of a
    32-bit integer, a [Set] that the operating system refuses throws
    the allocation error and leaves the fresh key, the fresh nonce and
    the new ciphertext in the object, with the validity flag still
    set; only the pointer and the fake token are zero. *)
Theorem Set_allocation_failure_not_cleared :
  ∃ m', Set_ (H := int32_t) os_denies [50; 0; 0; 0]%Z secret_42
        = Raise MemoryAllocationFailed m' ∧
    this m' ≠ cleared (H := int32_t) (this m') ∧
    isValid (this m') = true ∧
    key (this m') = [1; 2; 3; 4]%Z ∧
    nonce (this m') = [3; 10; 17; 24; 31; 38; 45; 52; 59; 66; 73; 80]%Z ∧
    buffer (this m') ≠ replicate 4 0%Z ∧
    realMemory (this m') = 0%Z ∧ fakeMemoryAddress (this m') = 0%Z.
Proof.
  eexists. split; [vm_compute; reflexivity|].
  repeat split; try (vm_compute; reflexivity); vm_compute; discriminate.
Qed.

(** C9. Key accesses that leave their buffer.  With a 32-bit integer
    the key member has 4 bytes and the key loader of the cipher,
    called from [Serialize] and [Deserialize], reads byte 4 and
    onwards; with a 33-byte type [InitializeCryptoState] writes 33
    bytes into the 32-byte [fullKey]. *)
Theorem key_accesses_out_of_bounds :
  (length (key (this secret_42)) = 4 ∧
   read (key (this secret_42)) 4 = Undefined ∧
   init_state (key (this secret_42)) (nonce (this secret_42)) = Undefined ∧
   Serialize (H := int32_t) (this secret_42) = Undefined ∧
   Deserialize (H := int32_t) (replicate 20 0%Z) 20 secret_42 = Fault) ∧
  (length (GenerateKey (H := bytes33) os_grants) = 33 ∧
   memcpy_to (replicate 32 0%Z) (GenerateKey (H := bytes33) os_grants)
   = Undefined ∧
   InitializeCryptoState (H := bytes33)
     (keyed (H := bytes33) os_grants (replicate 33 0%Z)
        (this (fresh_process (H := bytes33))))
   = Undefined).
Proof. repeat split; vm_compute; reflexivity. Qed.

End ContainerClaims.

Section ChecksumClaim.
Import ChaCha20 CipherFacts EncryptFacts.





End ChecksumClaim.

(** * Further properties of the cipher *)

Module KeystreamFacts.
Import ChaCha20 ChaCha20Facts EncryptFacts CipherFacts.

Lemma bind_Ok {A B} (a : A) (k : A → outcome B) : Ok a ≫= k = k a.
Proof. reflexivity. Qed.

Lemma take_lookup_total (l : list Z) n :
  n ≤ length l → take n l = (fun i => l !!! i) <$> seq 0 n.
Proof.
  intros Hn. apply list_eq. intros i.
  rewrite list_lookup_fmap.
  destruct (decide (i < n)) as [Hi|Hi].
  - rewrite lookup_take_lt, lookup_seq_lt by done. simpl.
    destruct (lookup_lt_is_Some_2 l i) as [x Hx]; [lia|].
    by rewrite Hx, (list_lookup_total_correct _ _ _ Hx).
  - rewrite lookup_take_ge, lookup_seq_ge by lia. done.
Qed.

Lemma keystream_block state j n :
  length state = 16 → n ≤ 64 →
  take n (Block (<[12 := wrap32 (Z.of_nat j)]> state)) =
  keystream_byte state <$> seq (64 * j) n.
Proof.
  intros Hst Hn.
  rewrite take_lookup_total by (rewrite length_Block, length_insert; lia).
  replace (seq (64 * j) n) with (Nat.add (64 * j) <$> seq 0 n)
    by (rewrite fmap_add_seq; f_equal; lia).
  rewrite <- list_fmap_compose. apply list_fmap_ext.
  intros i x Hx. apply lookup_seq in Hx as [-> Hi].
  unfold compose, keystream_byte. rewrite Nat.add_0_l.
  replace ((64 * j + i) / 64) with j
    by (apply Nat.div_unique with i; lia).
  replace ((64 * j + i) mod 64) with i
    by (apply Nat.mod_unique with j; lia).
  reflexivity.
Qed.

Lemma wrap32_succ j :
  wrap32 (wrap32 (Z.of_nat j) + 1) = wrap32 (Z.of_nat (S j)).
Proof.
  unfold wrap32. rewrite Zplus_mod_idemp_l. f_equal. lia.
Qed.

(** The loop at the start of block [j]. *)
Lemma Encrypt_loop_explicit state st j input len output :
  length state = 16 →
  (∀ c, <[12 := c]> st = <[12 := c]> state) →
  64 * j ≤ len → len ≤ length input →
  Encrypt_loop st (wrap32 (Z.of_nat j)) input len (64 * j) output =
  Ok (output ++
      zip_with Z.lxor (take (len - 64 * j) (drop (64 * j) input))
        (keystream_byte state <$> seq (64 * j) (len - 64 * j))).
Proof.
  remember (len - 64 * j) as d eqn:Hd. revert st j output Hd.
  induction d as [d IH] using lt_wf_ind.
  intros st j output Hd Hst Hsame Hj Hin.
  rewrite Encrypt_loop_unfold. case_decide as Hlt.
  - destruct (blockSize_bounds len (64 * j) Hlt) as [Hbs Hbs'].
    rewrite Hsame.
    rewrite xor_block_spec by (rewrite ?length_Block, ?length_insert; lia).
    rewrite bind_Ok, keystream_block by (done || lia).
    destruct (decide (64 * j + blockSize len (64 * j) = len)) as [Hend|Hmore].
    + rewrite Encrypt_loop_unfold, decide_False by lia.
      by replace (blockSize len (64 * j)) with d by lia.
    + assert (blockSize len (64 * j) = 64) as Hfull
        by (revert Hmore; unfold blockSize; case_decide; lia).
      rewrite Hfull, wrap32_succ.
      replace (64 * j + 64) with (64 * S j) by lia.
      rewrite (IH (len - 64 * S j)); try done; try lia.
      * rewrite <- (assoc_L (++)). do 2 f_equal.
        replace d with (64 + (len - 64 * S j)) by lia.
        rewrite <- take_take_drop, drop_drop, seq_app, fmap_app.
        rewrite zip_with_app
          by (rewrite length_take, length_drop, length_fmap, length_seq; lia).
        by replace (64 * j + 64) with (64 * S j) by lia.
      * intros c. by rewrite list_insert_insert_eq.
  - replace d with 0 by lia. simpl. by rewrite app_nil_r.
Qed.

(** [Encrypt], byte by byte. *)
Lemma Encrypt_explicit_state key nonce state input len :
  init_state key nonce = Ok state → len ≤ length input →
  Encrypt input len key nonce =
  Ok (zip_with Z.lxor (take len input) (keystream state len)).
Proof.
  intros Hinit Hin. unfold Encrypt. rewrite Hinit. simpl.
  assert (length state = 16) as Hst.
  { destruct (decide (32 ≤ length key)) as [Hk|Hk];
      [|by rewrite init_state_short_key in Hinit by lia].
    destruct (decide (8 ≤ length nonce)) as [Hn|Hn];
      [|by rewrite init_state_short_nonce in Hinit by lia].
    destruct (init_state_defined key nonce Hk Hn) as (st' & Hst' & Hlen).
    congruence. }
  pose proof (Encrypt_loop_explicit state state 0 input len [] Hst
                ltac:(done) ltac:(lia) Hin) as Hrun.
  change (64 * 0) with 0 in Hrun.
  change (wrap32 (Z.of_nat 0)) with 0%Z in Hrun.
  rewrite Nat.sub_0_r, drop_0 in Hrun. by rewrite Hrun.
Qed.

Lemma lxor_byte a b :
  (0 ≤ a < 256)%Z → (0 ≤ b < 256)%Z → (0 ≤ Z.lxor a b < 256)%Z.
Proof.
  intros Ha Hb.
  assert (0 ≤ Z.lxor a b)%Z as Hnn by (apply Z.lxor_nonneg; lia).
  split; [done|].
  destruct (decide (Z.lxor a b = 0%Z)) as [->|Hnz]; [lia|].
  change 256%Z with (2 ^ 8)%Z. apply Z.log2_lt_pow2; [lia|].
  pose proof (Z.log2_lxor a b ltac:(lia) ltac:(lia)) as Hlog.
  assert (∀ x, (0 ≤ x < 256)%Z → (Z.log2 x < 8)%Z) as Hl.
  { intros x Hx. destruct (decide (x = 0%Z)) as [->|?]; [done|].
    apply Z.log2_lt_pow2; lia. }
  specialize (Hl a Ha) as Hla. specialize (Hl b Hb) as Hlb. lia.
Qed.

Lemma wrap8_byte x : (0 ≤ wrap8 x < 256)%Z.
Proof. unfold wrap8. apply Z.mod_pos_bound. lia. Qed.

Lemma Block_bytes state : bytes (Block state).
Proof.
  unfold Block, bytes.
  generalize (fold_left
    (fun ws i => <[i := wrap32 (ws !!! i + state !!! i)]> ws) (seq 0 16)
    (Nat.iter 10 double_round state)).
  intros ws. induction ws as [|w ws IH]; [constructor|].
  change ((w :: ws) ≫= word_bytes) with (word_bytes w ++ (ws ≫= word_bytes)).
  apply Forall_app. split; [|done].
  unfold word_bytes. repeat constructor; apply wrap8_byte.
Qed.

Lemma keystream_byte_range state i : (0 ≤ keystream_byte state i < 256)%Z.
Proof.
  unfold keystream_byte.
  set (blk := Block _). pose proof (Block_bytes (<[12 := wrap32 (Z.of_nat (i / 64))]> state)) as Hb.
  fold blk in Hb.
  destruct (blk !! (i mod 64)) as [x|] eqn:Hx.
  - rewrite (list_lookup_total_correct _ _ _ Hx).
    by apply (Forall_lookup_1 _ _ _ _ Hb Hx).
  - rewrite list_lookup_total_alt, Hx. simpl. lia.
Qed.

Lemma length_keystream state n : length (keystream state n) = n.
Proof. unfold keystream. by rewrite length_fmap, length_seq. Qed.

Lemma keystream_bytes state n : bytes (keystream state n).
Proof.
  unfold keystream, bytes. apply Forall_fmap, Forall_forall.
  intros i _. apply keystream_byte_range.
Qed.

Lemma keystream_take state n m :
  n ≤ m → take n (keystream state m) = keystream state n.
Proof.
  intros Hnm. unfold keystream. rewrite <- fmap_take. f_equal.
  replace m with (n + (m - n)) by lia.
  by rewrite seq_app, take_app_length' by (by rewrite length_seq).
Qed.

Lemma Encrypt_explicit (input key nonce : list Z) (len : nat) :
  32 ≤ length key → 8 ≤ length nonce → len ≤ length input →
  ∃ state, init_state key nonce = Ok state ∧
    Encrypt input len key nonce =
    Ok (zip_with Z.lxor (take len input) (keystream state len)).
Proof.
  intros Hk Hn Hin.
  destruct (init_state_defined key nonce Hk Hn) as (state & Hinit & _).
  exists state. split; [done|]. by apply Encrypt_explicit_state.
Qed.

End KeystreamFacts.

Section CipherProperties.
Import ChaCha20 ChaCha20Facts EncryptFacts CipherFacts KeystreamFacts.

(** X1. [Encrypt], byte by byte.  With a key of at least 32 bytes, a
    nonce of at least 8 and an input of at least [len] bytes, [Encrypt]
    returns, and output byte [i] is input byte [i] XOR byte [i mod 64]
    of the block computed from the initial state with word 12 set to
    [i / 64] reduced to 32 bits: the counter starts at 0 on every call
    and counts the 64-byte blocks. *)
Theorem Encrypt_byte_by_byte (input key nonce : list Z) (len : nat) :
  32 ≤ length key → 8 ≤ length nonce → len ≤ length input →
  ∃ state, init_state key nonce = Ok state ∧
    Encrypt input len key nonce =
    Ok (zip_with Z.lxor (take len input) (keystream state len)).
Proof.
  intros Hk Hn Hin.
  destruct (init_state_defined key nonce Hk Hn) as (state & Hinit & _).
  exists state. split; [done|]. by apply Encrypt_explicit_state.
Qed.

Lemma Encrypt_byte_by_byte_witness :
  ∃ state, init_state (replicate 32 7%Z) (replicate 12 9%Z) = Ok state ∧
    Encrypt (replicate 70 1%Z) 70 (replicate 32 7%Z) (replicate 12 9%Z) =
    Ok (zip_with Z.lxor (take 70 (replicate 70 1%Z)) (keystream state 70)).
Proof.
  apply (Encrypt_byte_by_byte (replicate 70 1%Z) (replicate 32 7%Z)
           (replicate 12 9%Z) 70); vm_compute; lia.
Defined.

Lemma zip_lxor_bytes (a b : list Z) :
  bytes a → bytes b → bytes (zip_with Z.lxor a b).
Proof.
  unfold bytes. intros Ha. revert b.
  induction Ha as [|x a Hx Ha IH]; intros [|y b] Hb; simpl;
    try by constructor.
  apply Forall_cons in Hb as [Hy Hb].
  constructor; [by apply lxor_byte|by apply IH].
Qed.

Lemma Encrypt_loop_input_short st counter input len bytesProcessed output :
  length st = 16 → bytesProcessed ≤ length input → length input < len →
  Encrypt_loop st counter input len bytesProcessed output = Undefined.
Proof.
  remember (len - bytesProcessed) as d eqn:Hd.
  revert st counter bytesProcessed output Hd.
  induction d as [d IH] using lt_wf_ind.
  intros st counter bp output Hd Hst Hbp Hin.
  rewrite Encrypt_loop_unfold, decide_True by lia.
  destruct (blockSize_bounds len bp ltac:(lia)) as [Hbs Hbs'].
  destruct (decide (bp + blockSize len bp ≤ length input)) as [Hfit|Hfit].
  - rewrite xor_block_spec by (rewrite ?length_Block, ?length_insert; lia).
    rewrite bind_Ok.
    apply (IH (len - (bp + blockSize len bp))); try done; try lia.
    by rewrite length_insert.
  - by rewrite xor_block_short
      by (rewrite ?length_Block, ?length_insert; lia).
Qed.

Lemma Encrypt_input_short input len key nonce :
  32 ≤ length key → 8 ≤ length nonce → length input < len →
  Encrypt input len key nonce = Undefined.
Proof.
  intros Hk Hn Hin. unfold Encrypt.
  destruct (init_state_defined key nonce Hk Hn) as (state & -> & Hst).
  rewrite bind_Ok. apply Encrypt_loop_input_short; [done|lia|done].
Qed.

(** X2. When [Encrypt] returns, it has written exactly [len] bytes, and
    they are bytes whenever the first [len] input values are. *)
Theorem Encrypt_writes_len_bytes (input key nonce out : list Z) (len : nat) :
  Encrypt input len key nonce = Ok out →
  length out = len ∧ (bytes (take len input) → bytes out).
Proof.
  intros Hrun. split; [by eapply Encrypt_length|]. intros Hb.
  destruct (decide (32 ≤ length key)) as [Hk|Hk];
    [|unfold Encrypt in Hrun;
      by rewrite init_state_short_key in Hrun by lia].
  destruct (decide (8 ≤ length nonce)) as [Hn|Hn];
    [|unfold Encrypt in Hrun;
      by rewrite init_state_short_nonce in Hrun by lia].
  destruct (decide (len ≤ length input)) as [Hin|Hin];
    [|by rewrite Encrypt_input_short in Hrun by lia].
  destruct (Encrypt_explicit input key nonce len Hk Hn Hin)
    as (state & _ & HE).
  rewrite HE in Hrun. injection Hrun as <-.
  apply zip_lxor_bytes; [done|apply keystream_bytes].
Qed.

Lemma Encrypt_writes_len_bytes_witness :
  ∃ out,
    Encrypt [1; 2; 3]%Z 3 (replicate 32 7%Z) (replicate 12 9%Z) = Ok out ∧
    length out = 3 ∧ (bytes (take 3 [1; 2; 3]%Z) → bytes out).
Proof.
  eexists. split; [vm_compute; reflexivity|].
  apply (Encrypt_writes_len_bytes [1; 2; 3]%Z (replicate 32 7%Z)
           (replicate 12 9%Z) _ 3).
  vm_compute. reflexivity.
Defined.

(** X3. The bounds of [Encrypt].  It returns exactly when the key has
    at least 32 bytes, the nonce at least 8 and the input at least
    [len]; in every other case an access leaves its buffer.  It never
    throws.  The key and the nonce are read even when [len] is 0. *)
Theorem Encrypt_defined_iff (input key nonce : list Z) (len : nat) :
  ((∃ out, Encrypt input len key nonce = Ok out) ↔
   32 ≤ length key ∧ 8 ≤ length nonce ∧ len ≤ length input) ∧
  (¬ (32 ≤ length key ∧ 8 ≤ length nonce ∧ len ≤ length input) →
   Encrypt input len key nonce = Undefined) ∧
  (∀ e, Encrypt input len key nonce ≠ Throw e).
Proof.
  assert (¬ (32 ≤ length key ∧ 8 ≤ length nonce ∧ len ≤ length input) →
          Encrypt input len key nonce = Undefined) as Hundef.
  { intros Hnot.
    destruct (decide (32 ≤ length key)) as [Hk|Hk];
      [|unfold Encrypt; by rewrite init_state_short_key by lia].
    destruct (decide (8 ≤ length nonce)) as [Hn|Hn];
      [|unfold Encrypt; by rewrite init_state_short_nonce by lia].
    apply Encrypt_input_short; lia. }
  split; [|split; [done|intros e; apply Encrypt_no_throw]].
  split.
  - intros [out Hrun].
    destruct (decide (32 ≤ length key ∧ 8 ≤ length nonce ∧ len ≤ length input))
      as [?|Hnot]; [done|].
    by rewrite Hundef in Hrun.
  - intros (Hk & Hn & Hin).
    destruct (Encrypt_explicit input key nonce len Hk Hn Hin)
      as (state & _ & HE). eauto.
Qed.

Lemma Encrypt_defined_iff_witness :
  Encrypt [] 0 (replicate 31 7%Z) (replicate 12 9%Z) = Undefined.
Proof.
  apply (Encrypt_defined_iff [] (replicate 31 7%Z) (replicate 12 9%Z) 0).
  vm_compute. lia.
Defined.

(** X4. A stream cipher: shortening [len] shortens the output and
    changes no byte of it, so the ciphertext of a prefix is the prefix
    of the ciphertext. *)
Theorem Encrypt_prefix (input key nonce : list Z) (n len : nat) :
  32 ≤ length key → 8 ≤ length nonce → n ≤ len → len ≤ length input →
  ∃ out, Encrypt input len key nonce = Ok out ∧
         Encrypt input n key nonce = Ok (take n out) ∧
         Encrypt (take n input) n key nonce = Ok (take n out).
Proof.
  intros Hk Hn Hnl Hin.
  destruct (init_state_defined key nonce Hk Hn) as (state & Hinit & _).
  rewrite !(Encrypt_explicit_state key nonce state) by
    (done || lia || rewrite length_take; lia).
  eexists. split; [done|].
  rewrite zip_with_take, take_take, keystream_take by done.
  rewrite take_take. by replace (n `min` len) with n by lia;
    replace (n `min` n) with n by lia.
Qed.

Lemma Encrypt_prefix_witness :
  ∃ out,
    Encrypt [1; 2; 3; 4]%Z 4 (replicate 32 7%Z) (replicate 12 9%Z) = Ok out ∧
    Encrypt [1; 2; 3; 4]%Z 2 (replicate 32 7%Z) (replicate 12 9%Z)
    = Ok (take 2 out) ∧
    Encrypt (take 2 [1; 2; 3; 4]%Z) 2 (replicate 32 7%Z) (replicate 12 9%Z)
    = Ok (take 2 out).
Proof.
  apply (Encrypt_prefix [1; 2; 3; 4]%Z (replicate 32 7%Z) (replicate 12 9%Z)
           2 4); vm_compute; lia.
Defined.

(** X5. No integrity in the cipher: XORing [delta] into the input XORs
    the same [delta] into the output, so a change made to a ciphertext
    shows up, bit for bit, in what it decrypts to. *)
Theorem Encrypt_malleable (input delta key nonce : list Z) :
  32 ≤ length key → 8 ≤ length nonce → length delta = length input →
  ∃ out, Encrypt input (length input) key nonce = Ok out ∧
    Encrypt (zip_with Z.lxor input delta) (length input) key nonce =
    Ok (zip_with Z.lxor out delta).
Proof.
  intros Hk Hn Hd.
  destruct (init_state_defined key nonce Hk Hn) as (state & Hinit & _).
  rewrite !(Encrypt_explicit_state key nonce state)
    by (done || rewrite ?length_zip_with; lia).
  eexists. split; [done|]. f_equal.
  rewrite !firstn_all2 by (rewrite ?length_zip_with; lia).
  pose proof (length_keystream state (length input)) as HK.
  revert HK Hd. generalize (keystream state (length input)) as K.
  generalize delta. clear.
  induction input as [|x input IH]; intros [|d delta] [|k K] HK Hd;
    simpl in *; try done.
  f_equal; [|apply IH; lia].
  rewrite !Z.lxor_assoc. f_equal. apply Z.lxor_comm.
Qed.

Lemma Encrypt_malleable_witness :
  ∃ out,
    Encrypt [1; 2; 3]%Z 3 (replicate 32 7%Z) (replicate 12 9%Z) = Ok out ∧
    Encrypt (zip_with Z.lxor [1; 2; 3]%Z [0; 128; 0]%Z) 3
      (replicate 32 7%Z) (replicate 12 9%Z)
    = Ok (zip_with Z.lxor out [0; 128; 0]%Z).
Proof.
  apply (Encrypt_malleable [1; 2; 3]%Z [0; 128; 0]%Z (replicate 32 7%Z)
           (replicate 12 9%Z)); vm_compute; lia.
Defined.

(** X6. Only [key[0 .. 32)] reaches the cipher: whatever follows the
    first 32 bytes of the buffer passed as key changes nothing. *)
Theorem Encrypt_reads_32_key_bytes (input key nonce : list Z) (len : nat) :
  Encrypt input len (take 32 key) nonce = Encrypt input len key nonce.
Proof. unfold Encrypt. by rewrite init_state_key_prefix. Qed.

(** X7. The checksum is FNV-1a.  For [len] within the buffer,
    [ComputeChecksumFNV] is the left fold of [hash = (hash XOR byte) *
    0x01000193] over the first [len] bytes, started at 0x811C9DC5 and
    kept to 32 bits; the digest of no bytes is the start value; one more
    byte extends the digest by one step; a [len] beyond the buffer is an
    access out of range. *)
Theorem ComputeChecksumFNV_is_fnv1a (data : list Z) (len : nat) :
  (len ≤ length data →
   ComputeChecksumFNV data len = Ok (fnv1a (take len data))) ∧
  (length data < len → ComputeChecksumFNV data len = Undefined) ∧
  fnv1a [] = 0x811C9DC5%Z ∧
  (∀ b, fnv1a (data ++ [b]) = wrap32 (Z.lxor (fnv1a data) b * 0x01000193)) ∧
  (data ≠ [] → (0 ≤ fnv1a data < 2 ^ 32)%Z).
Proof.
  split; [apply ComputeChecksumFNV_fold|]. split; [|split; [done|split]].
  - intros Hlen. unfold ComputeChecksumFNV.
    induction len as [|len IH]; [lia|].
    rewrite for_upto_S.
    destruct (decide (length data < len)) as [Hlt|Hge]; [by rewrite IH|].
    fold (ComputeChecksumFNV data len).
    rewrite ComputeChecksumFNV_fold, bind_Ok by lia.
    by rewrite read_ge by lia.
  - intros b. unfold fnv1a. by rewrite fold_left_app.
  - intros Hne. destruct (exists_last Hne) as (l & b & ->).
    unfold fnv1a. rewrite fold_left_app. simpl.
    unfold wrap32. apply Z.mod_pos_bound. lia.
Qed.

Lemma ComputeChecksumFNV_is_fnv1a_witness :
  ComputeChecksumFNV [97; 98; 99]%Z 2 = Ok (fnv1a (take 2 [97; 98; 99]%Z)).
Proof.
  apply (ComputeChecksumFNV_is_fnv1a [97; 98; 99]%Z 2). vm_compute. lia.
Defined.

End CipherProperties.

Section ByteOrder.
Import ChaCha20 KeystreamFacts.

Lemma testbit_wrap8 x n :
  (0 ≤ n)%Z → Z.testbit (wrap8 x) n = if decide (n < 8)%Z then Z.testbit x n else false.
Proof.
  intros Hn. unfold wrap8. case_decide.
  - by rewrite Z.mod_pow2_bits_low by lia.
  - by rewrite Z.mod_pow2_bits_high by lia.
Qed.

Lemma wrap32_shifted_byte b k :
  (0 ≤ b < 256)%Z → (0 ≤ k ≤ 24)%Z → wrap32 (Z.shiftl b k) = Z.shiftl b k.
Proof.
  intros Hb Hk. unfold wrap32. apply Z.mod_small.
  rewrite Z.shiftl_mul_pow2 by lia. split; [nia|].
  assert (2 ^ k ≤ 2 ^ 24)%Z by (apply Z.pow_le_mono_r; lia).
  assert (0 < 2 ^ k)%Z by (apply Z.pow_pos_nonneg; lia).
  change (2 ^ 32)%Z with (256 * 2 ^ 24)%Z. nia.
Qed.

(** X8. The byte order of the key loader is the byte order of the
    keystream: [LoadLE32] applied to the four bytes that the block
    function stores for a 32-bit word gives the word back, whatever
    follows them in the buffer. *)
Theorem LoadLE32_word_bytes (w : Z) (rest : list Z) :
  (0 ≤ w < 2 ^ 32)%Z → LoadLE32 (word_bytes w ++ rest) 0 = Ok w.
Proof.
  intros Hw. unfold LoadLE32, word_bytes, read. simpl. f_equal.
  rewrite !wrap32_shifted_byte by (apply wrap8_byte || lia).
  apply Z.bits_inj'. intros n Hn.
  rewrite !Z.lor_spec, !Z.shiftl_spec by lia.
  assert (¬ (n < 32)%Z → Z.testbit w n = false) as Hhigh.
  { intros Hge. rewrite <- (Z.mod_small w (2 ^ 32)) by lia.
    by rewrite Z.mod_pow2_bits_high by lia. }
  destruct (decide (n < 8)%Z).
  { rewrite testbit_wrap8, decide_True by lia.
    rewrite !(Z.testbit_neg_r _ (n - _)) by lia. by rewrite !orb_false_r. }
  rewrite testbit_wrap8, decide_False by lia.
  destruct (decide (n < 16)%Z).
  { rewrite testbit_wrap8, decide_True, Z.shiftr_spec by lia.
    rewrite !(Z.testbit_neg_r _ (n - _)) by lia.
    rewrite !orb_false_r. simpl. f_equal. lia. }
  rewrite (testbit_wrap8 _ (n - 8)), decide_False by lia.
  destruct (decide (n < 24)%Z).
  { rewrite testbit_wrap8, decide_True, Z.shiftr_spec by lia.
    rewrite !(Z.testbit_neg_r _ (n - _)) by lia.
    rewrite !orb_false_r. simpl. f_equal. lia. }
  rewrite (testbit_wrap8 _ (n - 16)), decide_False by lia.
  rewrite testbit_wrap8 by lia. simpl.
  destruct (decide (n - 24 < 8)%Z).
  - rewrite Z.shiftr_spec by lia. f_equal. lia.
  - by rewrite Hhigh by lia.
Qed.

Lemma LoadLE32_word_bytes_witness :
  LoadLE32 (word_bytes 0x61707865 ++ [1; 2]%Z) 0 = Ok 0x61707865%Z.
Proof. apply (LoadLE32_word_bytes 0x61707865 [1; 2]%Z). lia. Defined.

End ByteOrder.

(** * Further properties of the container *)

Section ContainerProperties.
Context `{ValueType}.
Import ChaCha20 CipherFacts EncryptFacts KeystreamFacts.

Lemma Clear_returns env m :
  well_formed m → VirtualFree env = true →
  Clear env m =
  Return () (mkMachine (cleared (this m))
               (if decide (realMemory (this m) = 0%Z) then heap m
                else delete (realMemory (this m)) (heap m))
               (fakeBaseAddress m)).
Proof.
  intros (_ & _ & _ & Hp) Hfree. case_decide as Hnull.
  - by apply Clear_null.
  - destruct (Hp Hnull) as (_ & content & Hc & Hlen).
    apply (Clear_release _ _ content); try done. lia.
Qed.

Lemma Get_established env c a h value :
  VALUE_SIZE ≤ 32 → length c = VALUE_SIZE → length value = VALUE_SIZE →
  VirtualAlloc env ≠ 0%Z →
  Obfuscate (keyed env c (established env c a)) value = Ok c →
  Get (established env c a) (<[VirtualAlloc env := c]> h) false = Ok value ∧
  Get (established env c a) (<[VirtualAlloc env := c]> h) true = Ok c.
Proof.
  intros Hsz Hc Hv Ha Hob.
  destruct (Set_ciphertext env value Hsz Hv) as (c' & Hc' & Hcipher).
  destruct (Hcipher c (established env c a)) as (Hob' & Hde).
  assert (c' = c) as -> by congruence.
  pose proof (fun encrypted =>
    Get_match (established env c a) (<[VirtualAlloc env := c]> h) c encrypted
      Ha eq_refl (lookup_insert_eq _ _ _) ltac:(lia)
      ltac:(by rewrite take_ge by lia)) as HGet.
  change (buffer (established env c a)) with c in HGet.
  split; [|apply HGet]. rewrite HGet.
  rewrite (Deobfuscate_ext _ (keyed env c (established env c a))) by done.
  rewrite Hde, bind_Ok.
  rewrite (Obfuscate_ext _ (keyed env c (established env c a))) by done.
  rewrite Hob', bind_Ok. by rewrite bool_decide_false by (by intros []).
Qed.

(** X9. Round trip for types of at most 32 bytes.  On a well-formed
    container (a fresh one included), when the operating system frees
    and grants the pages, [Set] of a value returns that value and leaves
    a well-formed container on which [Get] returns the value and the raw
    [Get] returns the ciphertext. *)
Theorem Set_Get_round_trip env value m :
  well_formed m → VALUE_SIZE ≤ 32 → length value = VALUE_SIZE →
  VirtualFree env = true → VirtualAlloc env ≠ 0%Z →
  ∃ m', Set_ env value m = Return value m' ∧ well_formed m' ∧
    Get (this m') (heap m') false = Ok value ∧
    Get (this m') (heap m') true = Ok (buffer (this m')).
Proof.
  intros Hwf Hsz Hv Hfree Ha.
  destruct (Set_returns _ value _ _ (Clear_returns env m Hwf Hfree) Hsz Hv Ha)
    as (c & Hc & Hob & Hrun).
  eexists. split; [exact Hrun|]. cbn [heap this].
  split; [by apply well_formed_established|].
  by apply Get_established.
Qed.

End ContainerProperties.

Lemma fresh_process_well_formed `{ValueType} : well_formed fresh_process.
Proof.
  unfold well_formed, fresh_process; cbn. by rewrite !length_replicate.
Qed.

Lemma Set_Get_round_trip_witness :
  ∃ m', Set_ (H := int32_t) os_grants forty_two (fresh_process (H := int32_t))
        = Return forty_two m' ∧ well_formed (H := int32_t) m' ∧
    Get (H := int32_t) (this m') (heap m') false = Ok forty_two ∧
    Get (H := int32_t) (this m') (heap m') true = Ok (buffer (this m')).
Proof.
  apply (Set_Get_round_trip (H := int32_t) os_grants forty_two
           (fresh_process (H := int32_t)));
    [apply (fresh_process_well_formed (H := int32_t))
    |vm_compute; lia|reflexivity|reflexivity|discriminate].
Defined.

Section KeySizeProperties.
Context `{ValueType}.
Import ChaCha20 CipherFacts EncryptFacts KeystreamFacts.

(** X10. The cipher key of the container for types of at most 32
    bytes: [Obfuscate] and [Deobfuscate] run [Encrypt] under the key
    member followed by [32 - sizeof(T)] zero bytes. *)
Theorem Obfuscate_zero_padded_key s value :
  VALUE_SIZE ≤ 32 → length (key s) = VALUE_SIZE →
  length value = VALUE_SIZE →
  Obfuscate s value =
  Encrypt value VALUE_SIZE (key s ++ replicate (32 - VALUE_SIZE) 0%Z) (nonce s) ∧
  Deobfuscate s value =
  Encrypt value VALUE_SIZE (key s ++ replicate (32 - VALUE_SIZE) 0%Z) (nonce s).
Proof.
  intros Hsz Hk Hv.
  rewrite Obfuscate_fits, Deobfuscate_fits by (done || lia).
  unfold padded_key. by rewrite Hk.
Qed.

End KeySizeProperties.

Lemma Obfuscate_zero_padded_key_witness :
  Obfuscate (H := int32_t) (this secret_42) forty_two =
  ChaCha20.Encrypt forty_two 4
    (key (this secret_42) ++ replicate (32 - 4) 0%Z) (nonce (this secret_42)) ∧
  Deobfuscate (H := int32_t) (this secret_42) forty_two =
  ChaCha20.Encrypt forty_two 4
    (key (this secret_42) ++ replicate (32 - 4) 0%Z) (nonce (this secret_42)).
Proof.
  apply (Obfuscate_zero_padded_key (H := int32_t) (this secret_42) forty_two);
    [vm_compute; lia|reflexivity|reflexivity].
Defined.

Section LifeCycle.
Context `{ValueType}.
Import ChaCha20 CipherFacts EncryptFacts KeystreamFacts.



(** X16. [Clear] on a live container whose block the operating system
    releases: it returns; the arrays, the pointer and the fake token are
    zero; the checksum and the validity flag keep their values; the
    block is gone from the heap; a second [Clear] changes nothing and
    asks nothing of the operating system; and [Get] then fails with the
    invalid-memory-state error. *)
Theorem Clear_keeps_isValid env env' m rawMode :
  well_formed m → VirtualFree env = true →
  ∃ m1, Clear env m = Return () m1 ∧
    this m1 = cleared (this m) ∧
    isValid (this m1) = isValid (this m) ∧
    lastChecksum (this m1) = lastChecksum (this m) ∧
    (realMemory (this m) ≠ 0%Z → heap m1 !! realMemory (this m) = None) ∧
    Clear env' m1 = Return () m1 ∧
    Get (this m1) (heap m1) rawMode = Throw InvalidMemoryState.
Proof.
  intros Hwf Hfree. eexists. split; [by apply Clear_returns|]. cbn.
  split; [done|]. split; [done|]. split; [done|]. split.
  { intros Hnz. rewrite decide_False by done. apply lookup_delete_eq. }
  split; [by rewrite Clear_null|by rewrite Get_null].
Qed.

End LifeCycle.


Lemma Clear_keeps_isValid_witness :
  ∃ m1, Clear (H := int32_t) os_grants secret_42 = Return () m1 ∧
    this m1 = cleared (H := int32_t) (this secret_42) ∧
    isValid (this m1) = isValid (this secret_42) ∧
    lastChecksum (this m1) = lastChecksum (this secret_42) ∧
    (realMemory (this secret_42) ≠ 0%Z →
     heap m1 !! realMemory (this secret_42) = None) ∧
    Clear (H := int32_t) os_denies m1 = Return () m1 ∧
    Get (H := int32_t) (this m1) (heap m1) false = Throw InvalidMemoryState.
Proof.
  apply (Clear_keeps_isValid (H := int32_t) os_grants os_denies secret_42 false);
    [apply (reachable_well_formed (H := int32_t)), secret_42_reachable
    |reflexivity].
Defined.

Section WireImage.
Context `{ValueType}.
Import ChaCha20 CipherFacts EncryptFacts KeystreamFacts.

(** X11. Serialize then Deserialize, for types of 32 bytes and more.
    On a well-formed container [Serialize] returns an image of
    [2 * sizeof(T) + 12] bytes (nonce, key, the ciphertext encrypted
    once more), and [Deserialize] of that image into the same container
    returns [true] and leaves every member as it was, so that [Get]
    gives what it gave before. *)
Theorem Serialize_Deserialize_fixed_point m :
  well_formed m → 32 ≤ VALUE_SIZE →
  ∃ image, Serialize (this m) = Ok image ∧
    length image = VALUE_SIZE + 12 + VALUE_SIZE ∧
    Deserialize image (length image) m = Return true m.
Proof.
  intros (Hb & Hk & Hn & _) Hsz.
  destruct (Serialize_defined (this m) Hsz Hk Hn Hb)
    as (encrypted & He & Henc & Hdec & ->).
  eexists. split; [done|].
  assert (length (nonce (this m) ++ key (this m) ++ encrypted)
          = VALUE_SIZE + 12 + VALUE_SIZE) as Hlen
    by (rewrite !length_app; lia).
  split; [done|]. rewrite Hlen.
  destruct (Deserialize_accepts (nonce (this m) ++ key (this m) ++ encrypted)
              m Hsz ltac:(lia)) as (out & _ & Hrun & ->).
  revert Hrun.
  rewrite (take_app_length' (nonce (this m))) by lia.
  rewrite <- (drop_drop _ VALUE_SIZE 12).
  rewrite (drop_app_length' (nonce (this m))) by lia.
  rewrite (take_app_length' (key (this m))) by lia.
  rewrite (drop_app_length' (key (this m))) by lia.
  rewrite (take_ge encrypted) by lia.
  rewrite Hdec. intros [= <-].
  f_equal. by destruct m as [[] ? ?].
Qed.


End WireImage.

Lemma holder_32_well_formed : well_formed (H := bytes32) holder_32.
Proof.
  apply (reachable_well_formed (H := bytes32)).
  eapply (reach_construct (H := bytes32)); [|apply holder_32_constructed].
  reflexivity.
Qed.

Lemma Serialize_Deserialize_fixed_point_witness :
  ∃ image, Serialize (H := bytes32) (this holder_32) = Ok image ∧
    length image = 32 + 12 + 32 ∧
    Deserialize (H := bytes32) image (length image) holder_32
    = Return true holder_32.
Proof.
  apply (Serialize_Deserialize_fixed_point (H := bytes32) holder_32);
    [apply holder_32_well_formed|vm_compute; lia].
Defined.


Section Mutation.
Context `{ValueType}.
Import ChaCha20 CipherFacts EncryptFacts KeystreamFacts.

(** X13. [ReKey] keeps the value and replaces the representation.  On a
    well-formed container of at most 32 bytes on which [Get] returns
    [v], when the operating system frees and grants the pages, [ReKey]
    returns, [Get] returns [v] again, and the key and the nonce are the
    fresh draws. *)
Theorem ReKey_preserves_value env m v :
  well_formed m → VALUE_SIZE ≤ 32 →
  Get (this m) (heap m) false = Ok v →
  VirtualFree env = true → VirtualAlloc env ≠ 0%Z →
  ∃ m', ReKey env m = Return () m' ∧
    Get (this m') (heap m') false = Ok v ∧
    key (this m') = GenerateKey env ∧
    nonce (this m') = GenerateNonce env (replicate 12 0%Z) ∧
    realMemory (this m') = VirtualAlloc env.
Proof.
  intros Hwf Hsz Hget Hfree Ha.
  pose proof (Get_length _ _ _ _ Hget) as Hv.
  destruct (Set_returns _ v _ _ (Clear_returns env m Hwf Hfree) Hsz Hv Ha)
    as (c & Hc & Hob & Hrun).
  eexists. split.
  { unfold ReKey. exec_unfold. unfold id. rewrite Hget, Hrun. done. }
  cbn. split; [|done].
  by apply Get_established.
Qed.

(** X20. The compound assignments and the prefix increment and
    decrement.  On a well-formed container of at most 32 bytes on which
    [Get] returns [v], when the operating system frees and grants the
    pages and the operation of [T] yields a value of [T], the operator
    returns and [Get] returns the operation applied to [v]. *)
Theorem compound_assign_updates_value env op m v :
  well_formed m → VALUE_SIZE ≤ 32 →
  Get (this m) (heap m) false = Ok v → length (op v) = VALUE_SIZE →
  VirtualFree env = true → VirtualAlloc env ≠ 0%Z →
  ∃ m', compound_assign env op m = Return () m' ∧
    Get (this m') (heap m') false = Ok (op v).
Proof.
  intros Hwf Hsz Hget Hv Hfree Ha.
  destruct (Set_returns _ (op v) _ _ (Clear_returns env m Hwf Hfree) Hsz Hv Ha)
    as (c & Hc & Hob & Hrun).
  eexists. split.
  { unfold compound_assign. exec_unfold. unfold id. rewrite Hget, Hrun. done. }
  cbn. by apply Get_established.
Qed.

(** X19. A [Set] that the operating system refuses, on a live container
    of at most 32 bytes: the allocation error is thrown after the old
    block has been released and the old members overwritten, so the
    previous value is lost.  The object holds the fresh key, the fresh
    nonce and the new ciphertext, a null pointer and no fake token; the
    checksum and the validity flag are those of before; the fake
    allocator has not advanced; and [Get] now fails with the
    invalid-memory-state error. *)
Theorem Set_allocation_failure env value m rawMode :
  well_formed m → VALUE_SIZE ≤ 32 → length value = VALUE_SIZE →
  VirtualFree env = true → VirtualAlloc env = 0%Z →
  ∃ c m', Set_ env value m = Raise MemoryAllocationFailed m' ∧
    this m' = keyed env c (this m) ∧
    Obfuscate (this m') value = Ok c ∧
    fakeBaseAddress m' = fakeBaseAddress m ∧
    (realMemory (this m) ≠ 0%Z → heap m' !! realMemory (this m) = None) ∧
    Get (this m') (heap m') rawMode = Throw InvalidMemoryState.
Proof.
  intros Hwf Hsz Hv Hfree Ha.
  destruct (Set_alloc_fails _ value _ _ (Clear_returns env m Hwf Hfree)
              Hsz Hv Ha) as (c & Hc & Hob & Hrun).
  exists c. eexists. split; [exact Hrun|]. cbn.
  split; [done|]. split; [done|]. split; [done|]. split.
  { intros Hnz. rewrite decide_False by done. apply lookup_delete_eq. }
  by rewrite Get_null.
Qed.

(** X21. The copy that postfix [++] and [--] return.  The copy shares
    the pointer of the original; the increment releases that block and
    obtains another.  When the new block is at another address, the
    returned object points to released memory: its [Get] reads it, and
    so does its destructor. *)
Theorem post_step_copy_dangles env env' op m v rawMode :
  well_formed m → VALUE_SIZE ≤ 32 → realMemory (this m) ≠ 0%Z →
  Get (this m) (heap m) false = Ok v → length (op v) = VALUE_SIZE →
  VirtualFree env = true → VirtualAlloc env ≠ 0%Z →
  VirtualAlloc env ≠ realMemory (this m) →
  ∃ m', post_step env op m = Return (this m) m' ∧
    Get (this m') (heap m') false = Ok (op v) ∧
    heap m' !! realMemory (this m) = None ∧
    Get (this m) (heap m') rawMode = Undefined ∧
    destroy env' (this m) m' = Fault.
Proof.
  intros Hwf Hsz Hnz Hget Hv Hfree Ha Hother.
  assert (isValid (this m) = true) as Hval
    by (destruct Hwf as (_ & _ & _ & Hp); by destruct (Hp Hnz)).
  destruct (Set_returns _ (op v) _ _ (Clear_returns env m Hwf Hfree) Hsz Hv Ha)
    as (c & Hc & Hob & Hrun).
  eexists. split.
  { unfold post_step, compound_assign. exec_unfold. unfold id.
    rewrite Hget, Hrun. done. }
  cbn. rewrite decide_False by done.
  assert (<[VirtualAlloc env := c]> (delete (realMemory (this m)) (heap m))
          !! realMemory (this m) = None) as Hgone
    by (by rewrite lookup_insert_ne, lookup_delete_eq).
  split; [by apply Get_established|]. split; [done|]. split.
  - unfold Get, ValidateMemory, load.
    by rewrite bool_decide_false, Hval, Hgone by done.
  - unfold destroy. by apply Clear_dangling.
Qed.

End Mutation.

Section MutationWitnesses.

Lemma secret_42_well_formed : well_formed (H := int32_t) secret_42.
Proof. apply (reachable_well_formed (H := int32_t)), secret_42_reachable. Qed.

Lemma ReKey_preserves_value_witness :
  ∃ m', ReKey (H := int32_t) os_grants_elsewhere secret_42 = Return () m' ∧
    Get (H := int32_t) (this m') (heap m') false = Ok forty_two ∧
    key (this m') = GenerateKey (H := int32_t) os_grants_elsewhere ∧
    nonce (this m') = GenerateNonce os_grants_elsewhere (replicate 12 0%Z) ∧
    realMemory (this m') = VirtualAlloc os_grants_elsewhere.
Proof.
  apply (ReKey_preserves_value (H := int32_t) os_grants_elsewhere secret_42
           forty_two);
    [apply secret_42_well_formed|vm_compute; lia|vm_compute; reflexivity
    |reflexivity|discriminate].
Defined.

Lemma compound_assign_updates_value_witness :
  ∃ m', compound_assign (H := int32_t) os_grants (plus_DWORD 8) secret_42
        = Return () m' ∧
    Get (H := int32_t) (this m') (heap m') false = Ok [50; 0; 0; 0]%Z.
Proof.
  apply (compound_assign_updates_value (H := int32_t) os_grants (plus_DWORD 8)
           secret_42 forty_two);
    [apply secret_42_well_formed|vm_compute; lia|vm_compute; reflexivity
    |reflexivity|reflexivity|discriminate].
Defined.

Lemma Set_allocation_failure_witness :
  ∃ c m', Set_ (H := int32_t) os_denies [50; 0; 0; 0]%Z secret_42
          = Raise MemoryAllocationFailed m' ∧
    this m' = keyed (H := int32_t) os_denies c (this secret_42) ∧
    Obfuscate (H := int32_t) (this m') [50; 0; 0; 0]%Z = Ok c ∧
    fakeBaseAddress m' = fakeBaseAddress secret_42 ∧
    (realMemory (this secret_42) ≠ 0%Z →
     heap m' !! realMemory (this secret_42) = None) ∧
    Get (H := int32_t) (this m') (heap m') false = Throw InvalidMemoryState.
Proof.
  apply (Set_allocation_failure (H := int32_t) os_denies [50; 0; 0; 0]%Z
           secret_42 false);
    [apply secret_42_well_formed|vm_compute; lia|reflexivity|reflexivity
    |reflexivity].
Defined.

Lemma post_step_copy_dangles_witness :
  ∃ m', post_step (H := int32_t) os_grants_elsewhere (plus_DWORD 1) secret_42
        = Return (this secret_42) m' ∧
    Get (H := int32_t) (this m') (heap m') false = Ok [43; 0; 0; 0]%Z ∧
    heap m' !! realMemory (this secret_42) = None ∧
    Get (H := int32_t) (this secret_42) (heap m') false = Undefined ∧
    destroy (H := int32_t) os_grants (this secret_42) m' = Fault.
Proof.
  apply (post_step_copy_dangles (H := int32_t) os_grants_elsewhere os_grants
           (plus_DWORD 1) secret_42 forty_two false);
    [apply secret_42_well_formed|vm_compute; lia|vm_compute; discriminate
    |vm_compute; reflexivity|reflexivity|reflexivity|discriminate
    |vm_compute; discriminate].
Defined.

End MutationWitnesses.

(** * The allocators *)

Section Allocators.
Import RealMemoryAllocator FakeMemoryAllocator.

(** X22. The fake allocator hands out the counter and advances it by
    the size plus 16, as a [uintptr_t]; it touches neither the
    container nor the heap.  Two successive tokens differ, and the
    second is the first plus [size + 16] as long as the counter does not
    wrap; after [ResetAllocator] the next token is 0x10000000. *)
Theorem AllocateFakeMemory_tokens size1 size2 m :
  (0 ≤ fakeBaseAddress m < 2 ^ 64)%Z → (Z.of_nat size1 + 16 < 2 ^ 64)%Z →
  ∃ a2 m1 m2,
    AllocateFakeMemory size1 m = Return (fakeBaseAddress m) m1 ∧
    AllocateFakeMemory size2 m1 = Return a2 m2 ∧
    a2 ≠ fakeBaseAddress m ∧
    ((fakeBaseAddress m + Z.of_nat size1 + 16 < 2 ^ 64)%Z →
     a2 = (fakeBaseAddress m + Z.of_nat size1 + 16)%Z) ∧
    this m2 = this m ∧ heap m2 = heap m ∧
    (ResetAllocator;; AllocateFakeMemory size1) m2
    = Return 0x10000000%Z
        (mkMachine (this m) (heap m)
           (wrapptr (0x10000000 + wrapptr (Z.of_nat size1 + 16)))).
Proof.
  intros Hbase Hsize.
  assert (wrapptr (Z.of_nat size1 + 16) = (Z.of_nat size1 + 16)%Z) as Hw
    by (unfold wrapptr, uintptr_bits; apply Z.mod_small; lia).
  do 3 eexists. split; [reflexivity|]. split; [reflexivity|].
  cbn [fakeBaseAddress this heap].
  split; [|split; [|repeat split]]; rewrite Hw.
  - unfold wrapptr, uintptr_bits.
    destruct (decide (fakeBaseAddress m + (Z.of_nat size1 + 16) < 2 ^ 64)%Z).
    + rewrite Z.mod_small by lia. lia.
    + replace (fakeBaseAddress m + (Z.of_nat size1 + 16))%Z
        with ((fakeBaseAddress m + (Z.of_nat size1 + 16) - 2 ^ 64)
              + 1 * 2 ^ 64)%Z by lia.
      rewrite Z.mod_add, Z.mod_small by lia. lia.
  - intros Hfit. unfold wrapptr, uintptr_bits.
    rewrite Z.mod_small by lia. lia.
Qed.

Lemma AllocateFakeMemory_tokens_witness :
  ∃ a2 m1 m2,
    AllocateFakeMemory 4 secret_42 = Return (fakeBaseAddress secret_42) m1 ∧
    AllocateFakeMemory 4 m1 = Return a2 m2 ∧
    a2 ≠ fakeBaseAddress secret_42 ∧
    ((fakeBaseAddress secret_42 + Z.of_nat 4 + 16 < 2 ^ 64)%Z →
     a2 = (fakeBaseAddress secret_42 + Z.of_nat 4 + 16)%Z) ∧
    this m2 = this secret_42 ∧ heap m2 = heap secret_42 ∧
    (ResetAllocator;; AllocateFakeMemory 4) m2
    = Return 0x10000000%Z
        (mkMachine (this secret_42) (heap secret_42)
           (wrapptr (0x10000000 + wrapptr (Z.of_nat 4 + 16)))).
Proof.
  apply (AllocateFakeMemory_tokens 4 4 secret_42); vm_compute; split; congruence.
Defined.

(** X23. The pool recycles without looking at the size.  After
    [Free(ptr)], [Allocate] of any size returns [ptr], asks nothing of
    the operating system, leaves the heap (and so the old bytes of the
    block) as it is and the pool as it was before the [Free]; blocks
    come back last freed first. *)
Theorem MemoryPool_recycles env size size' ptr ptr' freeBlocks m :
  MemoryPool.Allocate env size (MemoryPool.Free ptr freeBlocks) m
  = Return (ptr, freeBlocks) m ∧
  (MemoryPool.Allocate env size
     (MemoryPool.Free ptr' (MemoryPool.Free ptr freeBlocks)) m
   = Return (ptr', MemoryPool.Free ptr freeBlocks) m) ∧
  (p ← MemoryPool.Allocate env size
         (MemoryPool.Free ptr' (MemoryPool.Free ptr freeBlocks));
   MemoryPool.Allocate env size' p.2) m
  = Return (ptr, freeBlocks) m.
Proof.
  assert (∀ p l, MemoryPool.Allocate env size (MemoryPool.Free p l) m
                 = Return (p, l) m) as Hpop.
  { intros p l. unfold MemoryPool.Allocate, MemoryPool.Free.
    rewrite bool_decide_true by (by destruct l).
    by rewrite last_last, removelast_last. }
  split; [apply Hpop|]. split; [apply Hpop|].
  exec_unfold. rewrite Hpop. cbn.
  unfold MemoryPool.Allocate, MemoryPool.Free.
  rewrite bool_decide_true by (by destruct freeBlocks).
  by rewrite last_last, removelast_last.
Qed.

(** X25. The destructor of the pool returns every retained block to the
    operating system: when each release succeeds, none of the blocks is
    mapped afterwards and the rest of the heap is as before; the first
    release that fails throws. *)
Theorem MemoryPool_release_all answers i freeBlocks m :
  (∀ j, VirtualFree (answers j) = true) →
  ∃ m', MemoryPool.release_all answers i freeBlocks m = Return () m' ∧
    this m' = this m ∧ fakeBaseAddress m' = fakeBaseAddress m ∧
    ∀ p, heap m' !! p = if decide (p ∈ freeBlocks) then None else heap m !! p.
Proof.
  intros Hfree. revert i m.
  induction freeBlocks as [|ptr rest IH]; intros i m.
  - exists m. split; [done|]. split; [done|]. split; [done|]. intros p.
    by rewrite decide_False by (apply not_elem_of_nil).
  - destruct (IH (S i) (with_heap (delete ptr) m))
      as (m' & Hrun & Hthis & Hfake & Hheap).
    exists m'. split.
    { cbn [MemoryPool.release_all]. unfold FreeRealMemory. exec_unfold.
      by rewrite Hfree. }
    split; [done|]. split; [done|]. intros p. rewrite Hheap. cbn.
    destruct (decide (p = ptr)) as [->|Hne].
    + rewrite (decide_True (P := ptr ∈ ptr :: rest)) by (apply elem_of_cons; by left).
      case_decide; [done|]. apply lookup_delete_eq.
    + rewrite lookup_delete_ne by done.
      destruct (decide (p ∈ rest)) as [Hin|Hnin].
      * by rewrite decide_True by (apply elem_of_cons; by right).
      * rewrite decide_False; [done|].
        intros [?|?]%elem_of_cons; done.
Qed.

Lemma MemoryPool_release_all_witness :
  ∃ m', MemoryPool.release_all (fun _ => os_grants) 0 [0x20000%Z] secret_42
        = Return () m' ∧
    this m' = this secret_42 ∧
    fakeBaseAddress m' = fakeBaseAddress secret_42 ∧
    ∀ p, heap m' !! p =
         if decide (p ∈ [0x20000%Z]) then None else heap secret_42 !! p.
Proof.
  apply (MemoryPool_release_all (fun _ => os_grants) 0 [0x20000%Z] secret_42).
  reflexivity.
Defined.

End Allocators.

Section KeyMaterial.
Context `{ValueType}.

Lemma fold_insert_lookup (f : nat → Z) n (l : list Z) i :
  n ≤ length l →
  fold_left (fun k j => <[j := f j]> k) (seq 0 n) l !! i =
  if decide (i < n) then Some (f i) else l !! i.
Proof.
  revert l. induction n as [|n IH]; intros l Hn.
  - by rewrite decide_False by lia.
  - rewrite seq_S, fold_left_app. cbn [fold_left].
    destruct (decide (i = n)) as [->|Hne].
    + rewrite decide_True by lia.
      apply list_lookup_insert_eq.
      rewrite (ChaCha20Facts.length_fold_insert (fun _ j => f j)). lia.
    + rewrite list_lookup_insert_ne by done. rewrite IH by lia.
      destruct (decide (i < n)); [by rewrite decide_True by lia|].
      by rewrite decide_False by lia.
Qed.

(** X26. What the two generators leave in the arrays.  The key has
    [sizeof(T)] bytes: the first [min(sizeof(T), 32)] are the draws,
    each reduced to a byte, and every byte from position 32 on is zero;
    the nonce is the twelve draws of the random device, each reduced to
    a byte. *)
Theorem GenerateKey_GenerateNonce_contents env nonceOut :
  length nonceOut = 12 →
  GenerateKey env =
    ((fun i => wrap8 (dis env i)) <$> seq 0 (VALUE_SIZE `min` 32))
    ++ replicate (VALUE_SIZE - 32) 0%Z ∧
  drop 32 (GenerateKey env) = replicate (VALUE_SIZE - 32) 0%Z ∧
  GenerateNonce env nonceOut = (fun i => wrap8 (random_device env i)) <$> seq 0 12.
Proof.
  intros Hn.
  assert (GenerateKey env =
    ((fun i => wrap8 (dis env i)) <$> seq 0 (VALUE_SIZE `min` 32))
    ++ replicate (VALUE_SIZE - 32) 0%Z) as Hkey.
  { apply list_eq. intros i. unfold GenerateKey.
    rewrite (fold_insert_lookup (fun i => wrap8 (dis env i)))
      by (rewrite length_replicate; lia).
    case_decide as Hi.
    - rewrite lookup_app_l by (rewrite length_fmap, length_seq; lia).
      by rewrite list_lookup_fmap, lookup_seq_lt.
    - rewrite lookup_app_r by (rewrite length_fmap, length_seq; lia).
      rewrite length_fmap, length_seq.
      destruct (decide (i < VALUE_SIZE)) as [Hlt|Hge].
      + by rewrite !lookup_replicate_2 by lia.
      + by rewrite !lookup_ge_None_2 by (rewrite length_replicate; lia). }
  split; [done|]. split.
  - rewrite Hkey, drop_app, length_fmap, length_seq.
    rewrite drop_ge by (rewrite length_fmap, length_seq; lia).
    rewrite drop_replicate. cbn [app]. f_equal. lia.
  - apply list_eq. intros i. unfold GenerateNonce.
    rewrite (fold_insert_lookup (fun i => wrap8 (random_device env i)))
      by lia.
    case_decide as Hi.
    + by rewrite list_lookup_fmap, lookup_seq_lt.
    + rewrite list_lookup_fmap, lookup_seq_ge by lia.
      by rewrite lookup_ge_None_2 by lia.
Qed.

End KeyMaterial.

Lemma GenerateKey_GenerateNonce_contents_witness :
  GenerateKey (H := bytes33) os_grants =
    ((fun i => wrap8 (dis os_grants i)) <$> seq 0 (33 `min` 32))
    ++ replicate (33 - 32) 0%Z ∧
  drop 32 (GenerateKey (H := bytes33) os_grants) = replicate (33 - 32) 0%Z ∧
  GenerateNonce os_grants (replicate 12 0xCC%Z)
  = (fun i => wrap8 (random_device os_grants i)) <$> seq 0 12.
Proof.
  apply (GenerateKey_GenerateNonce_contents (H := bytes33) os_grants
           (replicate 12 0xCC%Z)).
  reflexivity.
Defined.

(** * The XOR variant *)

Section UnsecureProperties.
Context `{ValueType}.

Lemma memcpy_from_exact src n : length src = n → memcpy_from src n = Ok src.
Proof. intros <-. apply memcpy_from_all. Qed.

Lemma zip_lxor_swap (a b c : list Z) :
  zip_with Z.lxor (zip_with Z.lxor a c) b
  = zip_with Z.lxor (zip_with Z.lxor a b) c.
Proof.
  revert b c. induction a as [|x a IH]; intros [|y b] [|z c]; simpl;
    try done.
  rewrite IH. f_equal. rewrite !Z.lxor_assoc. f_equal. apply Z.lxor_comm.
Qed.

Lemma fold_insert_closed (f : nat → Z) n (l : list Z) :
  length l = n →
  fold_left (fun k j => <[j := f j]> k) (seq 0 n) l = f <$> seq 0 n.
Proof.
  intros Hl. apply list_eq. intros i.
  rewrite fold_insert_lookup by lia. case_decide as Hi.
  - by rewrite list_lookup_fmap, lookup_seq_lt.
  - rewrite list_lookup_fmap, lookup_seq_ge by lia.
    by rewrite lookup_ge_None_2 by lia.
Qed.

Lemma zip_lxor_closed (a b : list Z) n :
  length a = n → length b = n →
  (fun i => Z.lxor (a !!! i) (b !!! i)) <$> seq 0 n = zip_with Z.lxor a b.
Proof.
  intros Ha Hb. apply list_eq. intros i.
  rewrite list_lookup_fmap, lookup_zip_with.
  destruct (decide (i < n)) as [Hi|Hi].
  - rewrite lookup_seq_lt by done.
    destruct (lookup_lt_is_Some_2 a i) as [x Hx]; [lia|].
    destruct (lookup_lt_is_Some_2 b i) as [y Hy]; [lia|].
    rewrite Hx, Hy. cbn.
    by rewrite (list_lookup_total_correct _ _ _ Hx),
      (list_lookup_total_correct _ _ _ Hy).
  - rewrite lookup_seq_ge by lia.
    by rewrite (lookup_ge_None_2 a) by lia.
Qed.

Lemma Unsecure_Obfuscate_closed s value out :
  length value = VALUE_SIZE → length (Unsecure.key s) = VALUE_SIZE →
  length out = VALUE_SIZE →
  Unsecure.Obfuscate s value out = Ok (zip_with Z.lxor value (Unsecure.key s)).
Proof.
  intros Hv Hk Ho. unfold Unsecure.Obfuscate.
  rewrite memcpy_from_exact, KeystreamFacts.bind_Ok by done.
  rewrite (fold_insert_closed
             (fun i => Z.lxor (value !!! i) (Unsecure.key s !!! i))) by done.
  by rewrite (zip_lxor_closed value (Unsecure.key s)).
Qed.

Lemma Unsecure_Deobfuscate_closed s inBuffer :
  length inBuffer = VALUE_SIZE → length (Unsecure.key s) = VALUE_SIZE →
  Unsecure.Deobfuscate s inBuffer
  = Ok (zip_with Z.lxor inBuffer (Unsecure.key s)).
Proof.
  intros Hb Hk. unfold Unsecure.Deobfuscate.
  rewrite (fold_insert_closed
             (fun i => Z.lxor (inBuffer !!! i) (Unsecure.key s !!! i)))
    by (by rewrite length_replicate).
  rewrite (zip_lxor_closed inBuffer (Unsecure.key s)) by done.
  assert (length (zip_with Z.lxor inBuffer (Unsecure.key s)) = VALUE_SIZE)
    as Hz by (rewrite length_zip_with; lia).
  by rewrite memcpy_from_exact.
Qed.

Lemma Unsecure_length_GenerateKey rng keyOut :
  length (Unsecure.GenerateKey rng keyOut) = length keyOut.
Proof.
  unfold Unsecure.GenerateKey.
  by rewrite (ChaCha20Facts.length_fold_insert
                (fun _ i => wrap8 (Z.land (rng i) 0xFF))).
Qed.

Lemma Unsecure_Deserialize_closed d s :
  length d = VALUE_SIZE * 2 →
  Unsecure.Deserialize d (VALUE_SIZE * 2) s
  = Ok (true, Unsecure.mkSafeVar (drop VALUE_SIZE d) (take VALUE_SIZE d)).
Proof.
  intros Hd. unfold Unsecure.Deserialize.
  rewrite bool_decide_false by (by intros []).
  rewrite (memcpy_from_exact (drop VALUE_SIZE d))
    by (rewrite length_drop; lia).
  unfold memcpy_from. by rewrite decide_True by lia.
Qed.

(** X28. The XOR variant, round trip for every size.  On an object
    whose arrays have their sizes, [Set] of a value returns the value,
    the key is the draws of this call reduced to bytes, the ciphertext
    is the value XORed with that key, and [Get] returns the value. *)
Theorem Unsecure_round_trip rng value s :
  Unsecure.sized s → length value = VALUE_SIZE →
  ∃ s', Unsecure.Set_ rng value s = Ok (value, s') ∧ Unsecure.sized s' ∧
    Unsecure.key s' = (fun i => wrap8 (Z.land (rng i) 0xFF)) <$> seq 0 VALUE_SIZE ∧
    Unsecure.Get s' true = Ok (zip_with Z.lxor value (Unsecure.key s')) ∧
    Unsecure.Get s' false = Ok value.
Proof.
  intros [Hb Hk] Hv. unfold Unsecure.Set_.
  rewrite Unsecure_Obfuscate_closed
    by (cbn; rewrite ?Unsecure_length_GenerateKey; done).
  rewrite KeystreamFacts.bind_Ok. cbn.
  eexists. split; [done|]. cbn.
  assert (length (Unsecure.GenerateKey rng (Unsecure.key s)) = VALUE_SIZE)
    as Hk' by (by rewrite Unsecure_length_GenerateKey).
  assert (length (zip_with Z.lxor value
                    (Unsecure.GenerateKey rng (Unsecure.key s))) = VALUE_SIZE)
    as Hz by (rewrite length_zip_with; lia).
  split; [done|]. split.
  { unfold Unsecure.GenerateKey. by apply fold_insert_closed. }
  split.
  - unfold Unsecure.Get. cbn. by rewrite memcpy_from_exact.
  - unfold Unsecure.Get. cbn.
    rewrite Unsecure_Deobfuscate_closed by done. cbn.
    by rewrite CipherFacts.zip_lxor_twice by lia.
Qed.

(** X29. The wire image of the XOR variant carries its own key.  The
    image is the key followed by the ciphertext; [Deserialize] of it
    into any object gives the serialized object back; and the plain
    value is the XOR of the two halves of the image, for whoever holds
    the image. *)
Theorem Unsecure_image_reveals_value s s0 :
  Unsecure.sized s →
  ∃ image, Unsecure.Serialize s = Ok image ∧
    length image = VALUE_SIZE * 2 ∧
    Unsecure.Deserialize image (length image) s0 = Ok (true, s) ∧
    Unsecure.Get s false
    = Ok (zip_with Z.lxor (drop VALUE_SIZE image) (take VALUE_SIZE image)).
Proof.
  intros [Hb Hk]. unfold Unsecure.Serialize.
  rewrite (memcpy_from_exact (Unsecure.key s)), KeystreamFacts.bind_Ok by done.
  rewrite (memcpy_from_exact (Unsecure.buffer s)), KeystreamFacts.bind_Ok
    by done.
  eexists. split; [done|].
  assert (length (Unsecure.key s ++ Unsecure.buffer s) = VALUE_SIZE * 2)
    as Hlen by (rewrite length_app; lia).
  split; [done|]. split.
  - rewrite Hlen, Unsecure_Deserialize_closed by done.
    rewrite take_app_length', drop_app_length' by lia. by destruct s.
  - unfold Unsecure.Get.
    rewrite Unsecure_Deobfuscate_closed by done.
    by rewrite take_app_length', drop_app_length' by lia.
Qed.

(** X30. No validation in the XOR variant: [Deserialize] accepts every
    buffer of [2 * sizeof(T)] bytes, refuses every other length without
    touching the object, and after it [Get] returns the XOR of the two
    halves, so a change to the second half of an image changes the
    value by the same bits and goes unnoticed. *)
Theorem Unsecure_Deserialize_accepts_anything data len s :
  (len ≠ VALUE_SIZE * 2 → Unsecure.Deserialize data len s = Ok (false, s)) ∧
  (len = VALUE_SIZE * 2 → length data = VALUE_SIZE * 2 →
   ∃ s', Unsecure.Deserialize data len s = Ok (true, s') ∧
     Unsecure.sized s' ∧
     Unsecure.Get s' false
     = Ok (zip_with Z.lxor (drop VALUE_SIZE data) (take VALUE_SIZE data)) ∧
     ∀ delta, length delta = VALUE_SIZE →
       ∃ s'', Unsecure.Deserialize
                (take VALUE_SIZE data
                 ++ zip_with Z.lxor (drop VALUE_SIZE data) delta) len s
              = Ok (true, s'') ∧
         Unsecure.Get s'' false
         = Ok (zip_with Z.lxor
                 (zip_with Z.lxor (drop VALUE_SIZE data) (take VALUE_SIZE data))
                 delta)).
Proof.
  split.
  { intros Hlen. unfold Unsecure.Deserialize. by rewrite bool_decide_true. }
  intros -> Hdata.
  pose proof (fun d => Unsecure_Deserialize_closed d s) as Hdes.
  eexists. split; [by apply Hdes|].
  assert (length (drop VALUE_SIZE data) = VALUE_SIZE) as Hd1
    by (rewrite length_drop; lia).
  assert (length (take VALUE_SIZE data) = VALUE_SIZE) as Hd2
    by (rewrite length_take; lia).
  split; [done|]. split.
  { unfold Unsecure.Get. by rewrite Unsecure_Deobfuscate_closed. }
  intros delta Hdelta.
  eexists. split.
  { apply Hdes. rewrite length_app, length_zip_with. lia. }
  rewrite take_app_length', drop_app_length' by lia.
  unfold Unsecure.Get. cbn.
  rewrite Unsecure_Deobfuscate_closed
    by (cbn; rewrite ?length_zip_with; lia).
  cbn. f_equal. apply zip_lxor_swap.
Qed.

End UnsecureProperties.

Section UnsecureWitnesses.

Lemma Unsecure_round_trip_witness :
  ∃ s', Unsecure.Set_ (H := int32_t) (fun i => Z.of_nat (300 + i)) forty_two
          (Unsecure.mkSafeVar (replicate 4 0%Z) (replicate 4 0%Z))
        = Ok (forty_two, s') ∧
    Unsecure.sized (H := int32_t) s' ∧
    Unsecure.key s' =
      (fun i => wrap8 (Z.land (Z.of_nat (300 + i)) 0xFF)) <$> seq 0 4 ∧
    Unsecure.Get (H := int32_t) s' true
    = Ok (zip_with Z.lxor forty_two (Unsecure.key s')) ∧
    Unsecure.Get (H := int32_t) s' false = Ok forty_two.
Proof.
  apply (Unsecure_round_trip (H := int32_t) (fun i => Z.of_nat (300 + i))
           forty_two (Unsecure.mkSafeVar (replicate 4 0%Z) (replicate 4 0%Z)));
    [split; reflexivity|reflexivity].
Defined.

Lemma Unsecure_image_reveals_value_witness :
  ∃ image,
    Unsecure.Serialize (H := int32_t)
      (Unsecure.mkSafeVar [1; 2; 3; 4]%Z [9; 9; 9; 9]%Z) = Ok image ∧
    length image = 4 * 2 ∧
    Unsecure.Deserialize (H := int32_t) image (length image)
      (Unsecure.mkSafeVar (replicate 4 0%Z) (replicate 4 0%Z))
    = Ok (true, Unsecure.mkSafeVar [1; 2; 3; 4]%Z [9; 9; 9; 9]%Z) ∧
    Unsecure.Get (H := int32_t)
      (Unsecure.mkSafeVar [1; 2; 3; 4]%Z [9; 9; 9; 9]%Z) false
    = Ok (zip_with Z.lxor (drop 4 image) (take 4 image)).
Proof.
  apply (Unsecure_image_reveals_value (H := int32_t)
           (Unsecure.mkSafeVar [1; 2; 3; 4]%Z [9; 9; 9; 9]%Z)
           (Unsecure.mkSafeVar (replicate 4 0%Z) (replicate 4 0%Z))).
  split; reflexivity.
Defined.

Lemma Unsecure_Deserialize_accepts_anything_witness :
  Unsecure.Deserialize (H := int32_t) [1; 2; 3]%Z 3
    (Unsecure.mkSafeVar [1; 2; 3; 4]%Z [9; 9; 9; 9]%Z)
  = Ok (false, Unsecure.mkSafeVar [1; 2; 3; 4]%Z [9; 9; 9; 9]%Z).
Proof.
  apply (Unsecure_Deserialize_accepts_anything (H := int32_t) [1; 2; 3]%Z 3
           (Unsecure.mkSafeVar [1; 2; 3; 4]%Z [9; 9; 9; 9]%Z)).
  vm_compute. lia.
Defined.

End UnsecureWitnesses.

Section PostStepReuse.
Context `{ValueType}.

(** X27. The copy that postfix [++] and [--] return, when the new block
    is at the address of the old one.  The copy then points to the block
    of the live container, and its destructor zeroes and releases that
    block: afterwards the live container points to released memory and
    its [Get] reads it. *)
Theorem post_step_copy_releases_live_block env env' op m v rawMode :
  well_formed m → VALUE_SIZE ≤ 32 → realMemory (this m) ≠ 0%Z →
  Get (this m) (heap m) false = Ok v → length (op v) = VALUE_SIZE →
  VirtualFree env = true → VirtualAlloc env = realMemory (this m) →
  VirtualFree env' = true →
  ∃ m' m'', post_step env op m = Return (this m) m' ∧
    Get (this m') (heap m') false = Ok (op v) ∧
    destroy env' (this m) m' = Return () m'' ∧
    heap m'' !! realMemory (this m') = None ∧
    Get (this m') (heap m'') rawMode = Undefined.
Proof.
  intros Hwf Hsz Hnz Hget Hv Hfree Hsame Hfree'.
  assert (VirtualAlloc env ≠ 0%Z) as Ha by congruence.
  destruct (Set_returns _ (op v) _ _ (Clear_returns env m Hwf Hfree) Hsz Hv Ha)
    as (c & Hc & Hob & Hrun).
  cbn [heap] in Hrun. rewrite decide_False in Hrun by done.
  pose proof (Clear_release env'
    (mkMachine (this m)
       (<[VirtualAlloc env := c]> (delete (realMemory (this m)) (heap m)))
       (wrapptr (fakeBaseAddress m + wrapptr (Z.of_nat VALUE_SIZE + 0x10))))
    c Hnz) as Hd.
  cbn [this heap fakeBaseAddress] in Hd.
  rewrite <- Hsame in Hd at 1. rewrite lookup_insert_eq in Hd.
  specialize (Hd eq_refl ltac:(lia) Hfree').
  eexists. eexists. split.
  { unfold post_step, compound_assign. exec_unfold. unfold id.
    rewrite Hget, Hrun. done. }
  cbn [this heap fakeBaseAddress].
  split; [by apply Get_established|].
  split; [exact Hd|].
  assert (delete (realMemory (this m))
            (<[VirtualAlloc env := c]> (delete (realMemory (this m)) (heap m)))
          !! realMemory (established env c (fakeBaseAddress m)) = None) as Hgone
    by (cbn; rewrite Hsame; apply lookup_delete_eq).
  split; [exact Hgone|].
  unfold Get, ValidateMemory, load. cbn [heap].
  rewrite Hgone. cbn. by rewrite bool_decide_false by done.
Qed.

End PostStepReuse.

Lemma post_step_copy_releases_live_block_witness :
  ∃ m' m'', post_step (H := int32_t) os_grants (plus_DWORD 1) secret_42
            = Return (this secret_42) m' ∧
    Get (H := int32_t) (this m') (heap m') false = Ok [43; 0; 0; 0]%Z ∧
    destroy (H := int32_t) os_grants (this secret_42) m' = Return () m'' ∧
    heap m'' !! realMemory (this m') = None ∧
    Get (H := int32_t) (this m') (heap m'') false = Undefined.
Proof.
  apply (post_step_copy_releases_live_block (H := int32_t) os_grants os_grants
           (plus_DWORD 1) secret_42 forty_two false);
    [apply secret_42_well_formed|vm_compute; lia|vm_compute; discriminate
    |vm_compute; reflexivity|reflexivity|reflexivity|vm_compute; reflexivity
    |reflexivity].
Defined.

(** * The object-level semantics *)

Section LayoutFacts.
Context `{ValueType}.
Import ChaCha20 CipherFacts EncryptFacts KeystreamFacts.

Lemma write_at_front object bytes :
  length bytes ≤ length object →
  Layout.write_at object 0 bytes = Ok (bytes ++ drop (length bytes) object).
Proof. intros Hlen. unfold Layout.write_at. by rewrite decide_True. Qed.

Lemma write_at_back object off bytes :
  off + length bytes = length object →
  Layout.write_at object off bytes = Ok (take off object ++ bytes).
Proof.
  intros Hlen. unfold Layout.write_at. rewrite decide_True by lia.
  by rewrite drop_ge, app_nil_r by lia.
Qed.

Lemma length_cipher_key s : length (cipher_key s) = 32.
Proof.
  unfold cipher_key. rewrite length_take, length_app, length_replicate. lia.
Qed.

Lemma cipher_key_short s :
  length (key s) ≤ 32 →
  cipher_key s = key s ++ replicate (32 - length (key s)) 0%Z.
Proof.
  intros Hk. unfold cipher_key.
  by rewrite take_app_ge, take_replicate, Nat.min_l by lia.
Qed.

Lemma cipher_key_long s : 32 ≤ length (key s) → cipher_key s = take 32 (key s).
Proof. intros Hk. unfold cipher_key. by rewrite take_app_le. Qed.

(** The copy of the key never leaves [CryptoState], and after the
    three writes the object holds the cipher key and a zeroed [temp],
    whatever it held before. *)
Lemma InitializeCryptoState_overwrites cryptoState s :
  length cryptoState = Layout.sizeof_CryptoState →
  length (key s) = VALUE_SIZE →
  Layout.InitializeCryptoState cryptoState s =
  Ok (cipher_key s ++ replicate VALUE_SIZE 0%Z).
Proof.
  unfold Layout.sizeof_CryptoState. intros Hc Hk.
  unfold Layout.InitializeCryptoState, Layout.offsetof_temp.
  rewrite write_at_front by (rewrite length_replicate; lia).
  rewrite bind_Ok, length_replicate.
  rewrite write_at_front
    by (rewrite length_app, length_replicate, length_drop; lia).
  rewrite bind_Ok.
  rewrite write_at_back
    by (rewrite !length_app, length_drop, length_app, !length_replicate,
          length_drop; lia).
  do 2 f_equal.
  destruct (decide (VALUE_SIZE ≤ 32)) as [Hsz|Hsz].
  - rewrite cipher_key_short by lia.
    rewrite drop_app_le by (rewrite length_replicate; lia).
    rewrite drop_replicate, (assoc_L (++)).
    rewrite take_app_length'; [by rewrite Hk|].
    rewrite length_app, length_replicate. lia.
  - rewrite cipher_key_long by lia. by rewrite take_app_le by lia.
Qed.

Lemma Encrypt_key_prefix input len key nonce :
  Encrypt input len (take 32 key) nonce = Encrypt input len key nonce.
Proof. unfold Encrypt. by rewrite init_state_key_prefix. Qed.

(** At the object level the two cipher paths of the container run
    [Encrypt] under [cipher_key], for every size. *)
Lemma Layout_Obfuscate_cipher s value :
  length (key s) = VALUE_SIZE → length value = VALUE_SIZE →
  Layout.Obfuscate s value =
  Encrypt value VALUE_SIZE (cipher_key s) (nonce s).
Proof.
  intros Hk Hv. unfold Layout.Obfuscate, Layout.fresh_CryptoState.
  rewrite InitializeCryptoState_overwrites
    by (by rewrite ?length_replicate).
  rewrite bind_Ok. rewrite <- Hv at 1. rewrite memcpy_from_all, bind_Ok.
  unfold Layout.offsetof_temp.
  rewrite write_at_back
    by (rewrite length_app, length_cipher_key, length_replicate; lia).
  rewrite bind_Ok.
  rewrite take_app_length' by (by rewrite length_cipher_key).
  rewrite drop_app_length' by (by rewrite length_cipher_key).
  rewrite <- (Encrypt_key_prefix _ _ (cipher_key s ++ value)).
  by rewrite take_app_length' by (by rewrite length_cipher_key).
Qed.

Lemma Layout_Deobfuscate_cipher s inBuffer :
  length (key s) = VALUE_SIZE →
  Layout.Deobfuscate s inBuffer =
  Encrypt inBuffer VALUE_SIZE (cipher_key s) (nonce s).
Proof.
  intros Hk. unfold Layout.Deobfuscate, Layout.fresh_CryptoState.
  rewrite InitializeCryptoState_overwrites
    by (by rewrite ?length_replicate).
  rewrite bind_Ok.
  rewrite <- (Encrypt_key_prefix _ _ (cipher_key s ++ _)).
  rewrite take_app_length' by (by rewrite length_cipher_key).
  destruct (Encrypt inBuffer _ _ _) as [out| |] eqn:Hrun; simpl; [|done..].
  apply Encrypt_length in Hrun.
  unfold Layout.offsetof_temp.
  rewrite write_at_back
    by (rewrite length_app, length_cipher_key, length_replicate; lia).
  rewrite bind_Ok.
  rewrite take_app_length' by (by rewrite length_cipher_key).
  rewrite drop_app_length' by (by rewrite length_cipher_key).
  by rewrite <- Hrun, memcpy_from_all.
Qed.

(** Where the key fits [fullKey], the two levels agree. *)
Lemma Layout_Obfuscate_fits s value :
  length (key s) = VALUE_SIZE → VALUE_SIZE ≤ 32 →
  length value = VALUE_SIZE →
  Layout.Obfuscate s value = Obfuscate s value.
Proof.
  intros Hk Hsz Hv.
  rewrite Layout_Obfuscate_cipher, Obfuscate_fits by (done || lia).
  by rewrite cipher_key_short by lia.
Qed.

Lemma Layout_Deobfuscate_fits s inBuffer :
  length (key s) = VALUE_SIZE → VALUE_SIZE ≤ 32 →
  Layout.Deobfuscate s inBuffer = Deobfuscate s inBuffer.
Proof.
  intros Hk Hsz.
  rewrite Layout_Deobfuscate_cipher, Deobfuscate_fits by (done || lia).
  by rewrite cipher_key_short by lia.
Qed.

(** Encrypting and decrypting undo each other, for every size. *)
Lemma Layout_Obfuscate_Deobfuscate s value :
  length (key s) = VALUE_SIZE → 8 ≤ length (nonce s) →
  length value = VALUE_SIZE →
  ∃ c, Layout.Obfuscate s value = Ok c ∧ length c = VALUE_SIZE ∧
       Layout.Deobfuscate s c = Ok value ∧ Layout.Obfuscate s c = Ok value.
Proof.
  intros Hk Hn Hv.
  destruct (Encrypt_keystream (cipher_key s) (nonce s) VALUE_SIZE)
    as (K & HK & HE); [by rewrite length_cipher_key|done|].
  exists (zip_with Z.lxor value K).
  assert (Hc : length (zip_with Z.lxor value K) = VALUE_SIZE)
    by (rewrite length_zip_with; lia).
  rewrite !Layout_Obfuscate_cipher, Layout_Deobfuscate_cipher by done.
  rewrite !HE by lia.
  rewrite (take_ge value), (take_ge (zip_with Z.lxor value K)) by lia.
  by rewrite zip_lxor_twice by lia.
Qed.

Lemma Layout_Obfuscate_ext s s' value :
  key s = key s' → nonce s = nonce s' →
  Layout.Obfuscate s value = Layout.Obfuscate s' value.
Proof.
  intros Hk Hn.
  unfold Layout.Obfuscate, Layout.InitializeCryptoState. by rewrite Hk, Hn.
Qed.

Lemma Layout_Deobfuscate_ext s s' inBuffer :
  key s = key s' → nonce s = nonce s' →
  Layout.Deobfuscate s inBuffer = Layout.Deobfuscate s' inBuffer.
Proof.
  intros Hk Hn.
  unfold Layout.Deobfuscate, Layout.InitializeCryptoState. by rewrite Hk, Hn.
Qed.

(** [Set] at the object level, when the operating system grants the
    pages: it returns for every size. *)
Lemma Layout_Set_returns env value m m1 :
  Clear env m = Return () m1 →
  length value = VALUE_SIZE → VirtualAlloc env ≠ 0%Z →
  ∃ c, length c = VALUE_SIZE ∧
    Layout.Obfuscate (keyed env c (this m)) value = Ok c ∧
    Layout.Deobfuscate (keyed env c (this m)) c = Ok value ∧
    Layout.Set_ env value m =
    Return value
      (mkMachine (established env c (fakeBaseAddress m))
         (<[VirtualAlloc env := c]> (heap m1))
         (wrapptr (fakeBaseAddress m
                   + wrapptr (Z.of_nat VALUE_SIZE + 0x10)))).
Proof.
  intros Hclear Hv Halloc.
  set (s0 := keyed env [] (this m)).
  destruct (Layout_Obfuscate_Deobfuscate s0 value) as (c & Hob & Hc & Hde & _);
    [by cbn; rewrite length_GenerateKey
    |by cbn; rewrite length_GenerateNonce; cbn; lia|done|].
  exists c. split; [done|].
  rewrite (Layout_Obfuscate_ext _ s0), (Layout_Deobfuscate_ext _ s0) by done.
  split; [done|]. split; [done|].
  pose proof (Clear_Return _ _ _ Hclear) as ->.
  unfold Layout.Set_. exec_unfold. rewrite Hclear.
  unfold with_this, set_key, set_nonce; cbn.
  rewrite (Layout_Obfuscate_ext _ s0) by done.
  rewrite Hob.
  unfold RealMemoryAllocator.AllocateRealMemory. exec_unfold.
  rewrite decide_False by done. rewrite bool_decide_false by done.
  unfold with_this, with_heap, set_buffer, set_realMemory; cbn.
  rewrite <- Hc at 1. rewrite memcpy_from_all.
  unfold store, with_heap; cbn. rewrite lookup_insert_eq.
  rewrite memcpy_to_all by (by rewrite length_replicate).
  rewrite ComputeChecksumFNV_fold, firstn_all by done.
  unfold FakeMemoryAllocator.AllocateFakeMemory. exec_unfold.
  unfold with_this, set_lastChecksum, set_fakeMemoryAddress, set_isValid,
    established; cbn.
  by rewrite insert_insert_eq.
Qed.


End LayoutFacts.

(** Where no access leaves its array the two levels give the same
    results: [Get] and [Set] for [sizeof(T) <= 32], [Serialize] and
    [Deserialize] for [sizeof(T) >= 32]. *)
Section LayoutAgreement.
Context `{ValueType}.
Import ChaCha20 CipherFacts EncryptFacts KeystreamFacts.

Lemma Layout_Get_fits s h encrypted :
  length (key s) = VALUE_SIZE → VALUE_SIZE ≤ 32 →
  Layout.Get s h encrypted = Get s h encrypted.
Proof.
  intros Hk Hsz. unfold Layout.Get, Get.
  case_bool_decide; [done|].
  destruct (ValidateMemory s h) as [[]| |]; simpl; [|done..].
  destruct encrypted; [done|].
  rewrite Layout_Deobfuscate_fits by done.
  destruct (Deobfuscate s (buffer s)) as [d| |] eqn:Hd; simpl; [|done..].
  by rewrite Layout_Obfuscate_fits by eauto using Deobfuscate_length.
Qed.

Lemma Layout_Set_fits env value m :
  length value = VALUE_SIZE → VALUE_SIZE ≤ 32 →
  Layout.Set_ env value m = Set_ env value m.
Proof.
  intros Hv Hsz. unfold Layout.Set_, Set_. exec_unfold.
  destruct (Clear env m) as [[] m1|e m1|]; [|done..].
  unfold with_this; cbn.
  by rewrite Layout_Obfuscate_fits
    by (done || by cbn; rewrite length_GenerateKey).
Qed.

Lemma take_32_from_key gap s :
  32 ≤ length (key s) → take 32 (Layout.from_key gap s) = take 32 (key s).
Proof. intros Hk. unfold Layout.from_key. by rewrite take_app_le. Qed.

Lemma Layout_Serialize_fits gap s :
  32 ≤ length (key s) → Layout.Serialize gap s = Serialize s.
Proof.
  intros Hk. unfold Layout.Serialize, Serialize.
  rewrite <- (Encrypt_key_prefix _ _ (Layout.from_key gap s)).
  by rewrite take_32_from_key, Encrypt_key_prefix.
Qed.

Lemma Layout_Deserialize_fits gap data len m :
  32 ≤ VALUE_SIZE →
  Layout.Deserialize gap data len m = Deserialize data len m.
Proof.
  intros Hsz. unfold Layout.Deserialize, Deserialize.
  case_bool_decide; [done|].
  exec_unfold. unfold memcpy_from.
  case_decide; [|done]. unfold with_this; cbn -[Layout.from_key].
  case_decide; [|done]. cbn -[Layout.from_key].
  case_decide; [|done]. cbn -[Layout.from_key].
  rewrite <- (Encrypt_key_prefix _ _ (Layout.from_key gap _)).
  rewrite take_32_from_key by (cbn; rewrite length_take; lia).
  by rewrite Encrypt_key_prefix.
Qed.

End LayoutAgreement.

Section LayoutClaims.
Context `{ValueType}.
Import ChaCha20 CipherFacts EncryptFacts KeystreamFacts.


(** C8. The key material that reaches the cipher.  For every size of
    [T], two key buffers that agree on their first 32 bytes give, for
    the same value and nonce, the same ciphertext, and that ciphertext
    is [Encrypt] under the first 32 bytes of the key buffer followed by
    [32 - sizeof(T)] zero bytes: the whole buffer zero-padded when
    [sizeof(T) < 32], its first 32 bytes and nothing of the rest when
    [sizeof(T) > 32]. *)
Theorem Obfuscate_reads_32_key_bytes s1 s2 value :
  length (key s1) = VALUE_SIZE → length (key s2) = VALUE_SIZE →
  length (nonce s1) = 12 → nonce s2 = nonce s1 →
  length value = VALUE_SIZE →
  take 32 (key s1) = take 32 (key s2) →
  ∃ c, Layout.Obfuscate s1 value = Ok c ∧
       Layout.Obfuscate s2 value = Ok c ∧
       Encrypt value VALUE_SIZE
         (take 32 (key s1) ++ replicate (32 - VALUE_SIZE) 0%Z) (nonce s1)
       = Ok c.
Proof.
  intros Hk1 Hk2 Hn1 Hn2 Hv Hpre.
  assert (cipher_key s1 =
          take 32 (key s1) ++ replicate (32 - VALUE_SIZE) 0%Z) as Hkey1.
  { destruct (decide (VALUE_SIZE ≤ 32)) as [Hsz|Hsz].
    - rewrite cipher_key_short, take_ge by lia. by rewrite Hk1.
    - rewrite cipher_key_long by lia.
      replace (32 - VALUE_SIZE) with 0 by lia. by rewrite app_nil_r. }
  assert (cipher_key s2 = cipher_key s1) as Hkey2.
  { unfold cipher_key.
    destruct (decide (VALUE_SIZE ≤ 32)) as [Hsz|Hsz].
    - rewrite !take_ge in Hpre by lia. by rewrite Hpre.
    - by rewrite !take_app_le, Hpre by lia. }
  destruct (Layout_Obfuscate_Deobfuscate s1 value) as (c & Hob & _);
    [done|lia|done|].
  exists c. split; [done|].
  rewrite Layout_Obfuscate_cipher, Hkey2, Hn2 by done.
  rewrite Layout_Obfuscate_cipher in Hob by done.
  split; [done|]. by rewrite <- Hkey1.
Qed.

Lemma length_le_bytes n x : length (Layout.le_bytes n x) = n.
Proof. unfold Layout.le_bytes. by rewrite length_fmap, length_seq. Qed.

Lemma length_from_key gap s :
  length (Layout.from_key gap s) =
  length (key s) + Layout.gap_size + 8 + 8 + length (nonce s) + 4 + 1.
Proof.
  unfold Layout.from_key.
  rewrite !length_app, length_fmap, length_seq, !length_le_bytes. simpl. lia.
Qed.

Lemma set_members_same s :
  set_buffer (buffer s) (set_key (key s) (set_nonce (nonce s) s)) = s.
Proof. by destruct s. Qed.

(** C6. Serialize, then Deserialize on the same container, for every
    size of [T].  On a valid container on which [Get] returns [v],
    [Serialize] returns an image of [2 * sizeof(T) + 12] bytes;
    [Deserialize] of that image returns [true] and leaves every member
    as it was; and [Get] returns [v].  For [sizeof(T) < 32] the key
    loader reads on, past [key], into the pointer, the fake address and
    the nonce of the object, which are the same at both calls. *)
Theorem Serialize_Deserialize_Get gap m v :
  well_formed m → Layout.Get (this m) (heap m) false = Ok v →
  ∃ image m', Layout.Serialize gap (this m) = Ok image ∧
    length image = VALUE_SIZE + 12 + VALUE_SIZE ∧
    Layout.Deserialize gap image (length image) m = Return true m' ∧
    m' = m ∧
    Layout.Get (this m') (heap m') false = Ok v.
Proof.
  intros (Hb & Hk & Hn & _) HGet.
  destruct (Encrypt_keystream (Layout.from_key gap (this m)) (nonce (this m))
              VALUE_SIZE) as (K & HK & HE);
    [rewrite length_from_key; lia|lia|].
  set (e := zip_with Z.lxor (buffer (this m)) K).
  assert (He : length e = VALUE_SIZE)
    by (unfold e; rewrite length_zip_with; lia).
  assert (Hser : Layout.Serialize gap (this m)
                 = Ok (nonce (this m) ++ key (this m) ++ e)).
  { unfold Layout.Serialize.
    rewrite <- Hn at 1. rewrite memcpy_from_all, bind_Ok.
    rewrite <- Hk at 1. rewrite memcpy_from_all, bind_Ok.
    by rewrite HE, (take_ge (buffer (this m))), bind_Ok by lia. }
  exists (nonce (this m) ++ key (this m) ++ e), m.
  split; [done|].
  assert (Hlen : length (nonce (this m) ++ key (this m) ++ e)
                 = VALUE_SIZE + 12 + VALUE_SIZE)
    by (rewrite !length_app; lia).
  split; [done|]. split; [|done].
  rewrite Hlen. unfold Layout.Deserialize.
  rewrite bool_decide_false by (by intros []).
  exec_unfold. unfold memcpy_from.
  rewrite decide_True by lia.
  rewrite take_app_length' by done.
  unfold with_this; cbn.
  rewrite drop_app_length' by done.
  rewrite decide_True by (rewrite length_app; lia).
  rewrite take_app_length' by done. cbn.
  change (S (S (S (S (S (S (S (S (S (S (S (S VALUE_SIZE))))))))))))
    with (12 + VALUE_SIZE).
  assert (drop (12 + VALUE_SIZE) (nonce (this m) ++ key (this m) ++ e) = e)
    as ->.
  { rewrite (assoc_L (++)). apply drop_app_length'.
    rewrite length_app. lia. }
  rewrite decide_True by lia. rewrite take_ge by lia. cbn.
  replace (set_key (key (this m)) (set_nonce (nonce (this m)) (this m)))
    with (this m) by (by destruct (this m)).
  rewrite HE by lia. rewrite take_ge by lia.
  unfold e. rewrite zip_lxor_twice by lia.
  cbn. destruct m as [s h f]; cbn. by destruct s.
Qed.

End LayoutClaims.


Lemma Obfuscate_reads_32_key_bytes_witness :
  ∃ c, Layout.Obfuscate (H := bytes33) secret_33 value_33 = Ok c ∧
       Layout.Obfuscate (H := bytes33) secret_33' value_33 = Ok c ∧
       ChaCha20.Encrypt value_33 33
         (take 32 (key secret_33) ++ replicate (32 - 33) 0%Z)
         (nonce secret_33)
       = Ok c.
Proof.
  apply (Obfuscate_reads_32_key_bytes (H := bytes33) secret_33 secret_33'
           value_33); reflexivity.
Defined.

Lemma Serialize_Deserialize_Get_witness :
  ∃ image m',
    Layout.Serialize (H := int32_t) stack_fill (this secret_42) = Ok image ∧
    length image = 4 + 12 + 4 ∧
    Layout.Deserialize (H := int32_t) stack_fill image (length image) secret_42
    = Return true m' ∧
    m' = secret_42 ∧
    Layout.Get (H := int32_t) (this m') (heap m') false = Ok forty_two.
Proof.
  apply (Serialize_Deserialize_Get (H := int32_t) stack_fill secret_42
           forty_two);
    [apply secret_42_well_formed|vm_compute; reflexivity].
Defined.

(** C3. [Get] after a postfix increment.  A container of a 32-bit
    integer is constructed with 42 and incremented with [x++].  The
    copy that the operator returns shares the pointer of the container.
    - When the operating system hands the new block out at the address
      of the one just released, the destructor of the copy zeroes and
      releases the block the container now uses, and the container is
      left with a non-null pointer and no allocation behind it.
    - When the new block is at another address, the copy itself is
      left so from the moment it is returned.
    For such an object the specification asks for the
    invalid-memory-state error, and [Get], in either mode and at either
    level of the semantics, reads the released block. *)
Theorem Get_after_postfix_increment_reads_released_block :
  (∃ m1 m2,
     post_step (H := int32_t) os_grants (plus_DWORD 1) secret_42
     = Return (this secret_42) m1 ∧
     Get (H := int32_t) (this m1) (heap m1) false = Ok [43; 0; 0; 0]%Z ∧
     destroy (H := int32_t) os_grants (this secret_42) m1 = Return () m2 ∧
     realMemory (this m1) ≠ 0%Z ∧
     real_allocation (mkMachine (this m1) (heap m2) (fakeBaseAddress m2))
     = None ∧
     ∀ rawMode,
       Get_specified (H := int32_t)
         (mkMachine (this m1) (heap m2) (fakeBaseAddress m2)) rawMode
       = Throw InvalidMemoryState ∧
       Get (H := int32_t) (this m1) (heap m2) rawMode = Undefined ∧
       Layout.Get (H := int32_t) (this m1) (heap m2) rawMode = Undefined) ∧
  (∃ m1,
     post_step (H := int32_t) os_grants_elsewhere (plus_DWORD 1) secret_42
     = Return (this secret_42) m1 ∧
     Get (H := int32_t) (this m1) (heap m1) false = Ok [43; 0; 0; 0]%Z ∧
     realMemory (this secret_42) ≠ 0%Z ∧
     real_allocation
       (mkMachine (this secret_42) (heap m1) (fakeBaseAddress m1)) = None ∧
     ∀ rawMode,
       Get_specified (H := int32_t)
         (mkMachine (this secret_42) (heap m1) (fakeBaseAddress m1)) rawMode
       = Throw InvalidMemoryState ∧
       Get (H := int32_t) (this secret_42) (heap m1) rawMode = Undefined ∧
       Layout.Get (H := int32_t) (this secret_42) (heap m1) rawMode
       = Undefined).
Proof.
  split.
  - eexists. eexists.
    split; [vm_compute; reflexivity|].
    split; [vm_compute; reflexivity|].
    split; [vm_compute; reflexivity|].
    split; [vm_compute; discriminate|].
    split; [vm_compute; reflexivity|].
    intros []; repeat split; vm_compute; reflexivity.
  - eexists.
    split; [vm_compute; reflexivity|].
    split; [vm_compute; reflexivity|].
    split; [vm_compute; discriminate|].
    split; [vm_compute; reflexivity|].
    intros []; repeat split; vm_compute; reflexivity.
Qed.

Section LayoutLifeCycle.
Context `{ValueType}.
Import ChaCha20 CipherFacts EncryptFacts KeystreamFacts.

Lemma Layout_Set_Clear_Raise env value m e m1 :
  Clear env m = Raise e m1 → Layout.Set_ env value m = Raise e m1.
Proof. intros Hc. unfold Layout.Set_. exec_unfold. by rewrite Hc. Qed.

Lemma Layout_Set_Clear_Fault env value m :
  Clear env m = Fault → Layout.Set_ env value m = Fault.
Proof. intros Hc. unfold Layout.Set_. exec_unfold. by rewrite Hc. Qed.

Lemma Layout_Set_alloc_fails env value m m1 :
  Clear env m = Return () m1 →
  length value = VALUE_SIZE → VirtualAlloc env = 0%Z →
  ∃ c, length c = VALUE_SIZE ∧
    Layout.Set_ env value m =
    Raise MemoryAllocationFailed
      (mkMachine (keyed env c (this m)) (heap m1) (fakeBaseAddress m)).
Proof.
  intros Hclear Hv Halloc.
  set (s0 := keyed env [] (this m)).
  destruct (Layout_Obfuscate_Deobfuscate s0 value) as (c & Hob & Hc & _);
    [by cbn; rewrite length_GenerateKey
    |by cbn; rewrite length_GenerateNonce; cbn; lia|done|].
  exists c. split; [done|].
  pose proof (Clear_Return _ _ _ Hclear) as ->.
  unfold Layout.Set_. exec_unfold. rewrite Hclear.
  unfold with_this, set_key, set_nonce; cbn.
  rewrite (Layout_Obfuscate_ext _ s0) by done.
  rewrite Hob.
  unfold RealMemoryAllocator.AllocateRealMemory. exec_unfold.
  by rewrite decide_True by done.
Qed.

Lemma sized_established env c a :
  length c = VALUE_SIZE → Layout.sized (established env c a).
Proof.
  intros Hc. unfold Layout.sized; cbn.
  by rewrite length_GenerateKey, length_GenerateNonce.
Qed.

Lemma sized_keyed env c s :
  length c = VALUE_SIZE → Layout.sized (keyed env c s).
Proof.
  intros Hc. unfold Layout.sized; cbn.
  by rewrite length_GenerateKey, length_GenerateNonce.
Qed.

Lemma sized_cleared s : Layout.sized (cleared s).
Proof. unfold Layout.sized; cbn. by rewrite !length_replicate. Qed.

(** What [Set] leaves in the object when it returns and when it
    throws, for every size. *)
Lemma Layout_Set_Return_inv env value m v m' :
  length value = VALUE_SIZE → Layout.Set_ env value m = Return v m' →
  Layout.sized (this m') ∧ isValid (this m') = true.
Proof.
  intros Hv Hrun.
  destruct (Clear env m) as [[] m1|e m1|] eqn:Hclear;
    [|by rewrite (Layout_Set_Clear_Raise _ _ _ _ _ Hclear) in Hrun
     |by rewrite (Layout_Set_Clear_Fault _ _ _ Hclear) in Hrun].
  destruct (decide (VirtualAlloc env = 0%Z)) as [Ha|Ha].
  - destruct (Layout_Set_alloc_fails _ _ _ _ Hclear Hv Ha) as (c & _ & Hs).
    by rewrite Hs in Hrun.
  - destruct (Layout_Set_returns _ _ _ _ Hclear Hv Ha)
      as (c & Hc & _ & _ & Hs).
    rewrite Hs in Hrun. injection Hrun as <- <-. cbn.
    split; [by apply sized_established|done].
Qed.

Lemma Layout_Set_Raise_inv env value m e m' :
  length value = VALUE_SIZE → Layout.Set_ env value m = Raise e m' →
  this m' = this m ∨
  (Layout.sized (this m') ∧ isValid (this m') = isValid (this m)).
Proof.
  intros Hv Hrun.
  destruct (Clear env m) as [[] m1|e1 m1|] eqn:Hclear;
    [|rewrite (Layout_Set_Clear_Raise _ _ _ _ _ Hclear) in Hrun;
      injection Hrun as <- <-; left;
      by destruct (Clear_Raise _ _ _ _ Hclear) as (_ & ? & _)
     |by rewrite (Layout_Set_Clear_Fault _ _ _ Hclear) in Hrun].
  right. destruct (decide (VirtualAlloc env = 0%Z)) as [Ha|Ha].
  - destruct (Layout_Set_alloc_fails _ _ _ _ Hclear Hv Ha) as (c & Hc & Hs).
    rewrite Hs in Hrun. injection Hrun as <- <-. cbn.
    split; [by apply sized_keyed|done].
  - destruct (Layout_Set_returns _ _ _ _ Hclear Hv Ha)
      as (c & _ & _ & _ & Hs).
    by rewrite Hs in Hrun.
Qed.

Lemma Layout_Deobfuscate_length s inBuffer d :
  Layout.Deobfuscate s inBuffer = Ok d → length d = VALUE_SIZE.
Proof.
  unfold Layout.Deobfuscate, memcpy_from.
  destruct (Layout.InitializeCryptoState _ s); simpl; [|done..].
  destruct (Encrypt _ _ _ _); simpl; [|done..].
  destruct (Layout.write_at _ _ _); simpl; [|done..].
  case_decide; [|done]. intros [= <-]. rewrite length_take. lia.
Qed.

Lemma Layout_Get_length s h encrypted v :
  Layout.Get s h encrypted = Ok v → length v = VALUE_SIZE.
Proof.
  unfold Layout.Get. case_bool_decide; [done|].
  destruct (ValidateMemory s h) as [[]| |]; simpl; [|done..].
  destruct encrypted.
  - unfold memcpy_from. case_decide; [|done]. intros [= <-].
    rewrite length_take. lia.
  - destruct (Layout.Deobfuscate s (buffer s)) as [d| |] eqn:Hd; simpl;
      [|done..].
    destruct (Layout.Obfuscate s d); simpl; [|done..].
    case_bool_decide; [done|]. intros [= <-].
    by eapply Layout_Deobfuscate_length.
Qed.

(** [Get] followed by [Set] of a value computed from what [Get]
    returned: the shape of [ReKey], of the compound assignments and of
    the steps. *)
Lemma Layout_Get_then_Set env (op : list Z → list Z) m r :
  (∀ v, length v = VALUE_SIZE → length (op v) = VALUE_SIZE) →
  Layout.sized (this m) → isValid (this m) = true →
  (m0 ← gets id;
   current ← lift (Layout.Get (this m0) (heap m0) false);
   Layout.Set_ env (op current)) m = r →
  match r with
  | Return _ m' | Raise _ m' =>
      Layout.sized (this m') ∧ isValid (this m') = true
  | Fault => True
  end.
Proof.
  intros Hop Hs Hval. exec_unfold. unfold id.
  destruct (Layout.Get (this m) (heap m) false) as [current|e|] eqn:HGet;
    [|by intros <-..].
  apply Layout_Get_length in HGet.
  destruct (Layout.Set_ env (op current) m) as [v m'|e m'|] eqn:HSet;
    intros <-; [| |done].
  - eapply Layout_Set_Return_inv; [|done]. by apply Hop.
  - destruct (Layout_Set_Raise_inv _ _ _ _ _ (Hop _ HGet) HSet)
      as [->|[? ->]]; done.
Qed.

Lemma Layout_Deserialize_inv gap data len m r :
  Layout.sized (this m) →
  Layout.Deserialize gap data len m = r →
  match r with
  | Return _ m' | Raise _ m' =>
      Layout.sized (this m') ∧ isValid (this m') = isValid (this m)
  | Fault => True
  end.
Proof.
  intros Hs. unfold Layout.Deserialize. case_bool_decide as Hlen.
  { by intros <-. }
  exec_unfold. unfold memcpy_from.
  case_decide; [|by intros <-]. unfold with_this; cbn.
  case_decide; [|by intros <-]. cbn. case_decide; [|by intros <-]. cbn.
  destruct (Encrypt _ _ _ _) as [out|e'|] eqn:HE; [| |by intros <-].
  - intros <-. cbn. apply Encrypt_length in HE.
    unfold Layout.sized; cbn.
    rewrite length_drop in *.
    rewrite !length_take, !length_drop. repeat split; try done; lia.
  - by apply Encrypt_no_throw in HE.
Qed.

Lemma run_keeps_sized_valid gap o m :
  Layout.well_typed o → Layout.sized (this m) → isValid (this m) = true →
  match Layout.run gap o m with
  | Return _ m' | Raise _ m' =>
      Layout.sized (this m') ∧ isValid (this m') = true
  | Fault => True
  end.
Proof.
  intros Hty Hs Hval.
  destruct o as [encrypted|env value|env| |data len|env|env op|env op];
    cbn [Layout.run Layout.well_typed] in *.
  - exec_unfold. unfold id.
    by destruct (Layout.Get _ _ _).
  - exec_unfold.
    destruct (Layout.Set_ env value m) as [v m'|e m'|] eqn:HSet; [| |done].
    + by eapply Layout_Set_Return_inv.
    + destruct (Layout_Set_Raise_inv _ _ _ _ _ Hty HSet) as [->|[? ->]]; done.
  - unfold Layout.ReKey.
    pose proof (Layout_Get_then_Set env id m _ (fun _ Hv => Hv) Hs Hval
                  eq_refl) as Hr.
    revert Hr. exec_unfold. unfold id.
    destruct (Layout.Get _ _ _); [|done..].
    by destruct (Layout.Set_ env _ m).
  - exec_unfold. by destruct (Layout.Serialize _ _).
  - exec_unfold.
    pose proof (Layout_Deserialize_inv gap data len m _ Hs eq_refl) as Hr.
    destruct (Layout.Deserialize gap data len m) as [b m'|e m'|]; [| |done].
    + destruct Hr as [? ->]. done.
    + destruct Hr as [? ->]. done.
  - destruct (Clear env m) as [[] m1|e m1|] eqn:Hclear; [| |done].
    + pose proof (Clear_Return _ _ _ Hclear) as ->. cbn.
      split; [apply sized_cleared|done].
    + destruct (Clear_Raise _ _ _ _ Hclear) as (_ & -> & _). done.
  - unfold Layout.compound_assign.
    pose proof (Layout_Get_then_Set env op m _ Hty Hs Hval eq_refl) as Hr.
    revert Hr. exec_unfold. unfold id.
    destruct (Layout.Get _ _ _); [|done..].
    by destruct (Layout.Set_ env _ m).
  - unfold Layout.post_step, Layout.compound_assign.
    pose proof (Layout_Get_then_Set env op m _ Hty Hs Hval eq_refl) as Hr.
    revert Hr. exec_unfold. unfold id.
    destruct (Layout.Get _ _ _); [|done..].
    by destruct (Layout.Set_ env _ m).
Qed.

(** X15. What no member function undoes.  Once the constructor has
    returned, the three arrays have their sizes and the validity flag
    is set, and every public operation that returns or throws leaves
    them so, for every size of [T] and whatever the heap holds: [Get],
    [Set], [ReKey], [Serialize], [Deserialize], [Clear], the compound
    assignments, the prefix and the postfix steps.  Nothing resets the
    flag, not [Clear] and not a [Set] that fails. *)
Theorem isValid_never_reset gap o m :
  Layout.well_typed o → Layout.sized (this m) → isValid (this m) = true →
  match Layout.run gap o m with
  | Return _ m' | Raise _ m' =>
      Layout.sized (this m') ∧ isValid (this m') = true
  | Fault => True
  end ∧
  ∀ b k n h f env value,
    length value = VALUE_SIZE →
    match Layout.Set_ env value (mkMachine (uninitialised b k n) h f) with
    | Return _ m' => Layout.sized (this m') ∧ isValid (this m') = true
    | _ => True
    end.
Proof.
  intros Hty Hs Hval. split.
  - by apply run_keeps_sized_valid.
  - intros b k n h f env value Hv.
    destruct (Layout.Set_ env value _) as [v m'|e m'|] eqn:HSet; [|done..].
    by eapply Layout_Set_Return_inv.
Qed.

End LayoutLifeCycle.

Lemma isValid_never_reset_witness :
  match Layout.run (H := bytes33) stack_fill (Layout.OpClear os_grants)
          (machine_after
             (Layout.Set_ (H := bytes33) os_grants value_33
                (fresh_process (H := bytes33)))
             (fresh_process (H := bytes33))) with
  | Return _ m' | Raise _ m' =>
      Layout.sized (H := bytes33) (this m') ∧ isValid (this m') = true
  | Fault => True
  end ∧
  ∀ b k n h f env value,
    length value = 33 →
    match Layout.Set_ (H := bytes33) env value
            (mkMachine (uninitialised b k n) h f) with
    | Return _ m' =>
        Layout.sized (H := bytes33) (this m') ∧ isValid (this m') = true
    | _ => True
    end.
Proof.
  apply (isValid_never_reset (H := bytes33) stack_fill
           (Layout.OpClear os_grants)
           (machine_after
              (Layout.Set_ (H := bytes33) os_grants value_33
                 (fresh_process (H := bytes33)))
              (fresh_process (H := bytes33))));
    [exact I|vm_compute; done|vm_compute; reflexivity].
Defined.
